(** * Field inference engine of the PDF-to-AcroForm converter

    A shallow embedding of [src/converter_core.py] (class [PDFConverter])
    and the properties of its field detection pipeline.

    Conventions of the embedding.
    - A Python [str] is a list of Unicode code points ([str := list N]), so
      that [len], slicing and [in] count code points as Python does.
    - Page coordinates (Python floats held by [fitz.Rect]) are exact
      rationals [Q]; scores of the fuzzy matcher are exact rationals too.
      Where rounding decides a property, the code is embedded a second
      time on IEEE binary64 numbers ([float_place_text]).
    - The parts of the Python runtime and of PyMuPDF that the source calls
      but does not define are interfaces: [PyRuntime] ([str.lower], the
      [\d] class of [re]) and [FitzRect] ([Rect.width], [Rect.height],
      [Rect.intersects]).  What a page answers to the document library and
      to the local OCR engine is data of the [Page] record. *)

From Stdlib Require Import QArith Qminmax Qabs Lqa.
From stdpp Require Import base decidable numbers list gmap pretty sorting.
From Stdlib Require Strings.String Strings.Ascii.
From Stdlib Require Floats.PrimFloat Floats.SpecFloat Floats.FloatAxioms.
Import String.StringSyntax.
Delimit Scope string_scope with string.
Import PrimFloat.PrimFloatNotations.

Local Open Scope nat_scope.
#[local] Set Warnings "-clear-no-such-hyp".
#[local] Set Warnings "-inexact-float".

(* ===================================================================== *)
(** ** Python strings *)
(* ===================================================================== *)

Definition char := N.
Definition str := list char.

Module Utf8.
(** Decoding of the UTF-8 bytes of a Rocq string literal, so that the
    literals of the source can be written as they are. *)

Definition byte (a : Ascii.ascii) : N := Ascii.N_of_ascii a.

(** [cont n acc bs] reads [n] continuation bytes into [acc]. *)
Fixpoint decode_from (pending : nat) (acc : N) (bs : list N) : str :=
  match bs with
  | [] => match pending with O => [] | S _ => [acc] end
  | b :: bs' =>
      match pending with
      | S k =>
          let acc' := (acc * 64 + (b mod 64))%N in
          match k with
          | O => acc' :: decode_from O 0%N bs'
          | S _ => decode_from k acc' bs'
          end
      | O =>
          if (b <? 128)%N then b :: decode_from O 0%N bs'
          else if (b <? 224)%N then decode_from 1 (b mod 32)%N bs'
          else if (b <? 240)%N then decode_from 2 (b mod 16)%N bs'
          else decode_from 3 (b mod 8)%N bs'
      end
  end.

Definition decode (s : String.string) : str :=
  decode_from O 0%N (map byte (String.list_ascii_of_string s)).
End Utf8.

(** [u "..."] is the Python string with the text of the literal. *)
Definition u (s : String.string) : str := Utf8.decode s.
Arguments u s%_string.

Module Py.

(** [str.isspace] on one code point; also the class [\s] of [re] and the
    separators of [str.split()] and [str.strip()]. *)
Definition isspace (c : char) : bool :=
  ((9 <=? c) && (c <=? 13) || (28 <=? c) && (c <=? 32)
   || (c =? 133) || (c =? 160) || (c =? 5760)
   || (8192 <=? c) && (c <=? 8202)
   || (c =? 8232) || (c =? 8233) || (c =? 8239) || (c =? 8287)
   || (c =? 12288))%N.

Definition char_in (cs : str) (c : char) : bool :=
  existsb (N.eqb c) cs.

(** [s.lstrip(chars)] and [s.rstrip(chars)] for a class of characters. *)
Fixpoint lstrip_of (p : char -> bool) (s : str) : str :=
  match s with
  | c :: s' => if p c then lstrip_of p s' else s
  | [] => []
  end.

Fixpoint rstrip_of (p : char -> bool) (s : str) : str :=
  match s with
  | c :: s' =>
      match rstrip_of p s' with
      | [] => if p c then [] else [c]
      | r => c :: r
      end
  | [] => []
  end.

(** [s.strip()] *)
Definition strip (s : str) : str := rstrip_of isspace (lstrip_of isspace s).

(** [s.rstrip(chars)] *)
Definition rstrip_chars (chars : str) (s : str) : str :=
  rstrip_of (char_in chars) s.

(** [s.startswith(p)] *)
Fixpoint startswith (p s : str) : bool :=
  match p, s with
  | [], _ => true
  | _ :: _, [] => false
  | a :: p', b :: s' => (a =? b)%N && startswith p' s'
  end.

(** [s.find(sub)]: index of the first occurrence. *)
Fixpoint find (sub s : str) : option nat :=
  if startswith sub s then Some 0
  else match s with
       | [] => None
       | _ :: s' => S <$> find sub s'
       end.

(** [sub in s] *)
Definition contains (sub s : str) : bool :=
  match find sub s with Some _ => true | None => false end.

(** [s.split(sep)] for a non-empty [sep] (Python raises [ValueError] on
    an empty one; every separator of the source is a non-empty literal).
    [cur] is the piece being read, reversed; [skip] counts the characters
    of a separator still to pass. *)
Fixpoint split_go (sep : str) (cur : str) (skip : nat) (s : str) : list str :=
  match s with
  | [] => [rev cur]
  | c :: s' =>
      match skip with
      | S k => split_go sep cur k s'
      | O =>
          if startswith sep s
          then rev cur :: split_go sep [] (length sep - 1) s'
          else split_go sep (c :: cur) 0 s'
      end
  end.

Definition split (sep s : str) : list str := split_go sep [] 0 s.

(** [s.split(sep)[0]]: the text before the first occurrence. *)
Definition before (sep s : str) : str :=
  match find sep s with
  | Some i => take i s
  | None => s
  end.

(** [s.split()]: the maximal runs of non-space characters. *)
Fixpoint words_go (cur : str) (s : str) : list str :=
  match s with
  | [] => match cur with [] => [] | _ => [rev cur] end
  | c :: s' =>
      if isspace c
      then match cur with [] => words_go [] s' | _ => rev cur :: words_go [] s' end
      else words_go (c :: cur) s'
  end.

Definition split_ws (s : str) : list str := words_go [] s.

(** [s.replace(old, new)] for one-character [old]. *)
Definition replace_char (old : char) (new : str) (s : str) : str :=
  flat_map (fun c => if (c =? old)%N then new else [c]) s.

(** [re.sub(r'\s+', ' ', s)]: every maximal run of white space becomes
    one space. *)
Fixpoint sub_spaces_go (in_run : bool) (s : str) : str :=
  match s with
  | [] => []
  | c :: s' =>
      if isspace c
      then (if in_run then sub_spaces_go true s'
            else 32%N :: sub_spaces_go true s')
      else c :: sub_spaces_go false s'
  end.

Definition sub_spaces (s : str) : str := sub_spaces_go false s.

End Py.

(* ===================================================================== *)
(** ** The regular expressions of the source *)
(* ===================================================================== *)

Module Re.

(** The two patterns of the source are sequences of these atoms; a
    repetition is always over a character class. *)
Inductive atom :=
| Lit (c : char)                   (* one given character *)
| Opt (c : char)                   (* [c?], greedy *)
| Star (cls : char -> bool)        (* [[cls]*], greedy *)
| Plus (cls : char -> bool)        (* [[cls]+], greedy *)
| PlusLazy (cls : char -> bool).   (* [[cls]+?] *)

Definition pattern := list atom.

(** A match is the list of the lengths taken by the atoms, in order. *)
Definition bump (r : option (list nat)) : option (list nat) :=
  match r with
  | Some (n :: l) => Some (S n :: l)
  | _ => None
  end.

(** The repetition takes as much as it can and gives back one character
    at a time while the rest [k] of the pattern fails. *)
Fixpoint greedy (cls : char -> bool) (k : str -> option (list nat))
    (s : str) : option (list nat) :=
  match s with
  | c :: s' =>
      if cls c
      then match greedy cls k s' with
           | Some r => bump (Some r)
           | None => cons 0 <$> k s
           end
      else cons 0 <$> k s
  | [] => cons 0 <$> k s
  end.

(** The repetition takes one more character only while the rest [k] of
    the pattern fails. *)
Fixpoint lazy (cls : char -> bool) (k : str -> option (list nat))
    (s : str) : option (list nat) :=
  match k s with
  | Some r => Some (0 :: r)
  | None =>
      match s with
      | c :: s' => if cls c then bump (lazy cls k s') else None
      | [] => None
      end
  end.

(** [match_at p s]: the match of [p] anchored at the start of [s] that a
    backtracking matcher finds first. *)
Fixpoint match_at (p : pattern) : str -> option (list nat) :=
  match p with
  | [] => fun _ => Some []
  | a :: p' =>
      let k := match_at p' in
      match a with
      | Lit c => fun s =>
          match s with
          | x :: s' => if (x =? c)%N then cons 1 <$> k s' else None
          | [] => None
          end
      | Opt c => fun s =>
          match s with
          | x :: s' =>
              if (x =? c)%N
              then match k s' with
                   | Some r => Some (1 :: r)
                   | None => cons 0 <$> k s
                   end
              else cons 0 <$> k s
          | [] => cons 0 <$> k s
          end
      | Star cls => greedy cls k
      | Plus cls => fun s =>
          match s with
          | x :: s' => if cls x then bump (greedy cls k s') else None
          | [] => None
          end
      | PlusLazy cls => fun s =>
          match s with
          | x :: s' => if cls x then bump (lazy cls k s') else None
          | [] => None
          end
      end
  end.

(** [finditer]: the matches from left to right, without overlap; each is
    given as the text from its start with the lengths of its atoms.  Both
    patterns of the source end in a literal, so no match is empty. *)
Fixpoint finditer_go (p : pattern) (skip : nat) (s : str)
    : list (str * list nat) :=
  match s with
  | [] => []
  | _ :: s' =>
      match skip with
      | S k => finditer_go p k s'
      | O =>
          match match_at p s with
          | Some lens => (s, lens) :: finditer_go p (sum_list lens - 1) s'
          | None => finditer_go p 0 s'
          end
      end
  end.

Definition finditer (p : pattern) (s : str) : list (str * list nat) :=
  finditer_go p 0 s.

(** [match.group(0)] *)
Definition group0 (m : str * list nat) : str :=
  take (sum_list m.2) m.1.

(** [match.group(1)] when the group is the first atom of the pattern. *)
Definition group1 (m : str * list nat) : str :=
  take (hd 0 m.2) m.1.

Definition is_upper (c : char) : bool := ((65 <=? c) && (c <=? 90))%N.
Definition is_lower (c : char) : bool := ((97 <=? c) && (c <=? 122))%N.
Definition is_alpha (c : char) : bool := is_upper c || is_lower c.

End Re.

(* ===================================================================== *)
(** ** Interfaces of the Python runtime *)
(* ===================================================================== *)

(** [str.lower] and the class [\d] of [re] follow the Unicode tables of the
    interpreter; the laws give them on ASCII text. *)
Class PyRuntime := {
  lower : str -> str;
  is_decimal : char -> bool;
  lower_ascii : forall s : str,
    Forall (fun c => (c < 128)%N) s ->
    lower s = map (fun c => if Re.is_upper c then (c + 32)%N else c) s;
  is_decimal_ascii : forall c : char,
    (c < 128)%N -> is_decimal c = ((48 <=? c) && (c <=? 57))%N
}.

(** The runtime restricted to the ASCII case mapping and digits. *)
#[refine] Instance ascii_runtime : PyRuntime := {|
  lower := map (fun c => if Re.is_upper c then (c + 32)%N else c);
  is_decimal := fun c => ((48 <=? c) && (c <=? 57))%N
|}.
Proof. all: reflexivity. Defined.

(* ===================================================================== *)
(** ** Data model *)
(* ===================================================================== *)

Inductive Kind := Checkbox | Text.

#[global] Instance Kind_eq_dec : EqDecision Kind.
Proof. solve_decision. Defined.

(** [fitz.Rect(x0, y0, x1, y1)] *)
Record Rect := mkRect { x0 : Q; y0 : Q; x1 : Q; y1 : Q }.

(** An entry of [_ocr_page_positions]: [{"text", "rect", "conf"}]. *)
Record TextPosition := mkTP { tp_text : str; tp_rect : Rect; tp_conf : Q }.

(** An entry of [fields_info]: [{"type", "label"}]. *)
Record FieldCandidate := mkFC { fc_kind : Kind; fc_label : str }.

(** An entry of [fields]: [{"type", "rect"}]. *)
Record FieldDescriptor := mkFD { fd_kind : Kind; fd_rect : Rect }.

(** [Rect.width], [Rect.height] and [Rect.intersects] of PyMuPDF. *)
Class FitzRect := {
  width : Rect -> Q;
  height : Rect -> Q;
  intersects : Rect -> Rect -> bool
}.

Definition Qltb (a b : Q) : bool := negb (Qle_bool b a).

(* ===================================================================== *)
(** ** Markdown field extractor *)
(* ===================================================================== *)

Definition CHECKBOX_CHARS : list str :=
  [u "□"; u "☐"; u "☑"; u "☒"; u "▢"; u "◻"; u "◯"; u "■"].
Definition CHECKBOX_ENCODED : list str :=
  [u "Γÿé"; u "Γÿí"; u "Γûí"; u "Γûá"; u "ΓÿÉ"].

(** [ALL_CB = self.CHECKBOX_CHARS + self.CHECKBOX_ENCODED] *)
Definition ALL_CB : list str := CHECKBOX_CHARS ++ CHECKBOX_ENCODED.

(** The inner loop [for other_cb in ALL_CB]: the option text is cut at the
    first occurrence of each glyph in turn. *)
Definition cut_at (other_cb : str) (option : str) : str :=
  if Py.contains other_cb option
  then Py.strip (Py.before other_cb option)
  else option.

(** The text of one segment after a checkbox glyph, lines 94 to 99. *)
Definition clean_option (part : str) : str :=
  Py.strip (Py.sub_spaces (foldl (fun option other_cb => cut_at other_cb option)
                                 (Py.strip part) ALL_CB)).

(** [option[:30]] under the filter of line 100. *)
Definition checkbox_of_option (option : str) : list FieldCandidate :=
  if bool_decide (option <> []) && (1 <? length option) && (length option <? 60)
  then [mkFC Checkbox (take 30 option)]
  else [].

(** Lines 90 to 101 for one glyph [cb]. *)
Definition checkboxes_for (line : str) (cb : str) : list FieldCandidate :=
  if Py.contains cb line
  then flat_map (fun part => checkbox_of_option (clean_option part))
                (tail (Py.split cb line))
  else [].

Definition line_checkboxes (line : str) : list FieldCandidate :=
  flat_map (checkboxes_for line) ALL_CB.

(** The string ["\n"]. *)
Definition newline : str := [10%N].

Definition skip_keywords : list str :=
  [u "NOTE:"; u "---"; u "http"; u "sfhp.org"; u "1("; u "Methods:";
   u "Services:"; u "values."; u "below:"; u "service."].

Section Extractor.
Context `{PyRuntime}.

(** The class [[A-Za-z\s/\'()\[\]#*\d.]] *)
Definition md_label_class (c : char) : bool :=
  Re.is_alpha c || Py.isspace c || Py.char_in (u "/'()[]#*.") c
  || is_decimal c.

(** [r'([A-Za-z\s/\'()\[\]#*\d.]+?)\*?\s*:'] *)
Definition md_label_pattern : Re.pattern :=
  [Re.PlusLazy md_label_class; Re.Opt 42%N; Re.Star Py.isspace; Re.Lit 58%N].

Definition text_of_match (m : str * list nat) : list FieldCandidate :=
  let label := Py.strip (Re.group0 m) in
  if (length label <? 40)
     && negb (existsb (fun sk => Py.contains sk label) skip_keywords)
  then [mkFC Text label]
  else [].

Definition line_texts (line : str) : list FieldCandidate :=
  flat_map text_of_match (Re.finditer md_label_pattern line).

(** The body of [for line in lines]. *)
Definition line_fields (line0 : str) : list FieldCandidate :=
  let line := Py.strip line0 in
  if bool_decide (line = []) || Py.startswith (u "---") line
  then []
  else line_checkboxes line ++ line_texts line.

(** [lines = markdown_text.replace("|", "\n").split("\n")], then the loop
    over the lines. *)
Definition _extract_form_fields_from_markdown (markdown_text : str)
    : list FieldCandidate :=
  let lines := Py.split newline (Py.replace_char 124%N newline markdown_text) in
  flat_map line_fields lines.

End Extractor.

(* ===================================================================== *)
(** ** Fuzzy position matcher *)
(* ===================================================================== *)

(** [a / b] on the lengths and counts of the matcher. *)
Definition ratio (a b : nat) : Q :=
  (inject_Z (Z.of_nat a) / inject_Z (Z.of_nat b))%Q.

(** [set(s.split())] *)
Definition word_set (s : str) : gset str := list_to_set (Py.split_ws s).

(** The pair [(best_match, best_score)] of the loop. *)
Definition Best : Type := option (nat * TextPosition) * Q.

(** [if score > best_score: best_score = score; best_match = (i, tp)] *)
Definition try_score (i : nat) (tp : TextPosition) (score : Q) (st : Best)
    : Best :=
  if Qltb st.2 score then (Some (i, tp), score) else st.

Section Matcher.
Context `{PyRuntime}.

(** [tp["text"].lower().strip()] *)
Definition ocr_clean_of (tp : TextPosition) : str :=
  Py.strip (lower (tp_text tp)).

(** The body of [for i, tp in enumerate(ocr_positions)]. *)
Definition match_step (label_clean : str) (used_positions : gset nat)
    (i : nat) (tp : TextPosition) (st : Best) : Best :=
  if decide (i ∈ used_positions) then st
  else
    let ocr_clean := ocr_clean_of tp in
    let st1 :=
      if Py.contains label_clean ocr_clean || Py.contains ocr_clean label_clean
      then try_score i tp
             (ratio (length label_clean) (Nat.max (length ocr_clean) 1)) st
      else st in
    let label_words := word_set label_clean in
    let ocr_words := word_set ocr_clean in
    let common := label_words ∩ ocr_words in
    if (1 <=? size common) && (0 <? size label_words)
    then try_score i tp (ratio (size common) (size label_words)) st1
    else st1.

Fixpoint match_loop (label_clean : str) (used_positions : gset nat)
    (i : nat) (ocr_positions : list TextPosition) (st : Best) : Best :=
  match ocr_positions with
  | [] => st
  | tp :: rest =>
      match_loop label_clean used_positions (S i) rest
        (match_step label_clean used_positions i tp st)
  end.

(** [label_text.rstrip(":*").strip().lower()] *)
Definition label_clean_of (label_text : str) : str :=
  lower (Py.strip (Py.rstrip_chars (u ":*") label_text)).

Definition _find_label_position (label_text : str)
    (ocr_positions : list TextPosition) (used_positions : gset nat)
    : option (nat * TextPosition) :=
  let label_clean := label_clean_of label_text in
  if length label_clean <? 2 then None
  else
    let st := match_loop label_clean used_positions 0 ocr_positions (None, 0%Q) in
    match st.1 with
    | Some best_match => if Qltb (3 # 10) st.2 then Some best_match else None
    | None => None
    end.

(* ===================================================================== *)
(** ** OCR field synthesizer *)
(* ===================================================================== *)

(** The body of [for j, other in enumerate(ocr_positions)], lines 188-190. *)
Definition limit_step (idx : nat) (tp : TextPosition) (j : nat)
    (other : TextPosition) (field_x1 : Q) : Q :=
  if negb (j =? idx)
     && Qltb (Qabs (y0 (tp_rect other) - y0 (tp_rect tp))) 5
     && Qltb (x1 (tp_rect tp) + 5) (x0 (tp_rect other))
  then Qmin field_x1 (x0 (tp_rect other) - 2)
  else field_x1.

Fixpoint limit_loop (idx : nat) (tp : TextPosition) (j : nat)
    (ocr_positions : list TextPosition) (field_x1 : Q) : Q :=
  match ocr_positions with
  | [] => field_x1
  | other :: rest =>
      limit_loop idx tp (S j) rest (limit_step idx tp j other field_x1)
  end.

(** Line 173: the checkbox to the left of the option text. *)
Definition place_checkbox (tp : TextPosition) : FieldDescriptor :=
  let r := tp_rect tp in
  mkFD Checkbox (mkRect (x0 r - 12) (y0 r) (x0 r - 1) (y1 r)).

(** Lines 184 to 198: the text field to the right of the label; [None]
    when the guard of line 194 drops it.  The sums and the difference are
    exact here; [float_place_text] below has them rounded as the code
    does. *)
Definition place_text (page_width : Q) (ocr_positions : list TextPosition)
    (idx : nat) (tp : TextPosition) : option FieldDescriptor :=
  let r := tp_rect tp in
  let field_x0 := (x1 r + 2)%Q in
  let field_x1 := limit_loop idx tp 0 ocr_positions (page_width - 20)%Q in
  let field_x1 := Qmax (field_x0 + 20) (Qmin field_x1 (field_x0 + 200)) in
  if Qltb 15 (field_x1 - field_x0)
  then Some (mkFD Text (mkRect field_x0 (y0 r) field_x1 (y1 r)))
  else None.

(** What one candidate does: the position index it consumes and the
    fields it appends; [None] when the matcher finds no position. *)
Definition ocr_bind (page_width : Q) (ocr_positions : list TextPosition)
    (used_positions : gset nat) (field_info : FieldCandidate)
    : option (nat * list FieldDescriptor) :=
  match fc_kind field_info with
  | Checkbox =>
      match _find_label_position (fc_label field_info) ocr_positions
              used_positions with
      | Some (idx, tp) => Some (idx, [place_checkbox tp])
      | None => None
      end
  | Text =>
      match _find_label_position (fc_label field_info) ocr_positions
              used_positions with
      | Some (idx, tp) =>
          Some (idx, option_list (place_text page_width ocr_positions idx tp))
      | None => None
      end
  end.

(** The body of [for field_info in form_fields] on the state
    [(fields, used_positions)]. *)
Definition ocr_step (page_width : Q) (ocr_positions : list TextPosition)
    (st : list FieldDescriptor * gset nat) (field_info : FieldCandidate)
    : list FieldDescriptor * gset nat :=
  match ocr_bind page_width ocr_positions st.2 field_info with
  | Some (idx, new) => (st.1 ++ new, {[idx]} ∪ st.2)
  | None => st
  end.

Definition ocr_loop (page_width : Q) (ocr_positions : list TextPosition)
    (form_fields : list FieldCandidate)
    (st : list FieldDescriptor * gset nat) : list FieldDescriptor * gset nat :=
  foldl (ocr_step page_width ocr_positions) st form_fields.

(** The same loop, keeping with every field the position index it is
    bound to. *)
Fixpoint ocr_bindings (page_width : Q) (ocr_positions : list TextPosition)
    (used_positions : gset nat) (form_fields : list FieldCandidate)
    : list (nat * FieldDescriptor) :=
  match form_fields with
  | [] => []
  | field_info :: rest =>
      match ocr_bind page_width ocr_positions used_positions field_info with
      | Some (idx, new) =>
          map (pair idx) new
          ++ ocr_bindings page_width ocr_positions ({[idx]} ∪ used_positions) rest
      | None => ocr_bindings page_width ocr_positions used_positions rest
      end
  end.

End Matcher.

(* ===================================================================== *)
(** ** Pages and the native strategies *)
(* ===================================================================== *)

Record Span := mkSpan { span_text : str }.
Record Line := mkLine { line_spans : list Span; line_bbox : Rect }.
Record Block := mkBlock { block_type : Z; block_lines : list Line }.

(** A page of [self.doc] as the converter sees it: [get_text("dict")],
    [search_for], [rect.width], and the positions that
    [_ocr_page_positions] computes from the local OCR engine. *)
Record Page := mkPage {
  page_blocks : list Block;
  page_search_for : str -> list Rect;
  page_width : Q;
  page_ocr_positions : list TextPosition
}.

Definition _get_page_text_blocks (page : Page) : list Block :=
  filter (fun b => block_type b = 0%Z) (page_blocks page).

Definition _find_checkbox_locations (page : Page) : list Rect :=
  flat_map (page_search_for page) ALL_CB.

(** The key [(r.y0, r.x0)] and the order of Python tuples on it. *)
Definition key_lt (a b : Rect) : bool :=
  Qltb (y0 a) (y0 b) || (Qeq_bool (y0 a) (y0 b) && Qltb (x0 a) (x0 b)).

(** [sorted(instances, key=...)]: the stable sort. *)
Fixpoint insert_sorted (r : Rect) (l : list Rect) : list Rect :=
  match l with
  | [] => [r]
  | a :: l' => if key_lt r a then r :: l else a :: insert_sorted r l'
  end.

Definition sorted (instances : list Rect) : list Rect :=
  foldl (fun acc r => insert_sorted r acc) [] instances.

(** The test of line 218 against [merged[-1]]. *)
Definition merge_cond (m inst : Rect) : bool :=
  Qltb (Qabs (y0 inst - y0 m)) 3 && Qltb (x0 inst) (x1 m + 5).

Definition union_rect (m inst : Rect) : Rect :=
  mkRect (Qmin (x0 m) (x0 inst)) (Qmin (y0 m) (y0 inst))
         (Qmax (x1 m) (x1 inst)) (Qmax (y1 m) (y1 inst)).

(** The body of the loop of line 217 on [merged]. *)
Definition merge_step (merged : list Rect) (inst : Rect) : list Rect :=
  match last merged with
  | Some m =>
      if merge_cond m inst
      then <[length merged - 1 := union_rect m inst]> merged
      else merged ++ [inst]
  | None => merged ++ [inst]
  end.

Definition underscore_field (m : Rect) : FieldDescriptor :=
  mkFD Text (mkRect (x0 m) (y0 m) (x1 m) (y1 m + 2)).

Definition _find_underscore_fields (page : Page) : list FieldDescriptor :=
  let instances := page_search_for page (u "___") in
  match instances with
  | [] => []
  | _ => map underscore_field (foldl merge_step [] (sorted instances))
  end.

(** The class [[A-Za-z\s/\'()#*]] *)
Definition native_label_class (c : char) : bool :=
  Re.is_alpha c || Py.isspace c || Py.char_in (u "/'()#*") c.

(** [r'([A-Za-z\s/\'()#*]+)\s*:\s*'] *)
Definition native_label_pattern : Re.pattern :=
  [Re.Plus native_label_class; Re.Star Py.isspace; Re.Lit 58%N;
   Re.Star Py.isspace].

(** [re.findall] of the pattern: the text of group 1 of every match. *)
Definition native_labels (lt : str) : list str :=
  map Re.group1 (Re.finditer native_label_pattern lt).

(** Lines 238 to 241 for the instance [li] that passed the test. *)
Definition label_field_at (pw : Q) (li : Rect) : list FieldDescriptor :=
  let fx0 := (x1 li + 2)%Q in
  let fx1 := Qmin (fx0 + 150) (pw - 20) in
  if Qltb 20 (fx1 - fx0)
  then [mkFD Text (mkRect fx0 (y0 li) fx1 (y1 li))]
  else [].

(** The loop of line 236: the first instance near the line, then [break]. *)
Definition label_fields_of (page : Page) (line : Line) (label : str)
    : list FieldDescriptor :=
  match List.find
          (fun li => Qltb (Qabs (y0 li - y0 (line_bbox line))) 5)
          (page_search_for page (Py.strip label ++ u ":")) with
  | Some li => label_field_at (page_width page) li
  | None => []
  end.

(** [lt = "".join([s["text"] for s in line["spans"]]).strip()] *)
Definition line_text (line : Line) : str :=
  Py.strip (concat (map span_text (line_spans line))).

Definition _find_label_fields (page : Page) : list FieldDescriptor :=
  flat_map (fun block =>
    flat_map (fun line =>
      flat_map (label_fields_of page line) (native_labels (line_text line)))
      (block_lines block))
    (_get_page_text_blocks page).

(* ===================================================================== *)
(** ** Orchestrator and conversion driver *)
(* ===================================================================== *)

(** A page of the response of the remote OCR service. *)
Record MistralPage := mkMP { mp_index : nat; mp_markdown : str }.

(** The body of line 273 and 274. *)
Definition is_dup `{FitzRect} (unique : list FieldDescriptor)
    (f : FieldDescriptor) : bool :=
  existsb (fun u0 => bool_decide (fd_kind f = fd_kind u0)
                     && intersects (fd_rect f) (fd_rect u0)) unique.

(** The body of [for f in fields], lines 270 to 275. *)
Definition dedup_step `{FitzRect} (unique : list FieldDescriptor)
    (f : FieldDescriptor) : list FieldDescriptor :=
  if Qle_bool (width (fd_rect f)) 0 || Qle_bool (height (fd_rect f)) 0
  then unique
  else if is_dup unique f then unique else unique ++ [f].

Definition dedup `{FitzRect} (fields : list FieldDescriptor)
    : list FieldDescriptor :=
  foldl dedup_step [] fields.

Section Orchestrator.
Context `{PyRuntime} `{FitzRect}.

Definition _detect_fields_ocr (page : Page) (page_markdown : str)
    : list FieldDescriptor :=
  (ocr_loop (page_width page) (page_ocr_positions page)
     (_extract_form_fields_from_markdown page_markdown) ([], ∅)).1.

(** The native branch, lines 253 to 258. *)
Definition native_fields (page : Page) : list FieldDescriptor :=
  let fields := map (mkFD Checkbox) (_find_checkbox_locations page) in
  let uf := _find_underscore_fields page in
  let fields := fields ++ uf in
  match uf with
  | [] => fields ++ _find_label_fields page
  | _ => fields
  end.

(** Lines 260 to 264: the markdown of the first page of the response with
    the index [page_num], or the empty string. *)
Definition page_md_of (page_num : nat) (mistral_pages : list MistralPage)
    : str :=
  match List.find (fun mp => mp_index mp =? page_num) mistral_pages with
  | Some mp => mp_markdown mp
  | None => []
  end.

(** [fields] before the deduplication, lines 250 to 266. *)
Definition candidate_fields (page : Page) (page_num : nat)
    (mistral_pages : option (list MistralPage)) : list FieldDescriptor :=
  if 0 <? length (_get_page_text_blocks page)
  then native_fields page
  else
    match mistral_pages with
    | Some mps =>
        let page_md := page_md_of page_num mps in
        match page_md with
        | [] => []
        | _ => _detect_fields_ocr page page_md
        end
    | None => []
    end.

(** [detect_fields]; [None] is the [IndexError] of [self.doc[page_num]]. *)
Definition detect_fields (doc : list Page) (page_num : nat)
    (mistral_pages : option (list MistralPage))
    : option (list FieldDescriptor) :=
  page ← doc !! page_num;
  Some (dedup (candidate_fields page page_num mistral_pages)).

(** The outcome of [_mistral_ocr_pdf]: the pages of the response, or the
    exception it raised. *)
Inductive OcrOutcome :=
| OcrPages (pages : list MistralPage)
| OcrRaised (e : str).

Record Widget := mkWidget {
  widget_rect : Rect;
  widget_field_name : str;
  widget_field_type : Kind;
  widget_field_flags : option Z
}.

(** What [convert] does: its return value, the widgets added to each page
    in order, what it printed, and whether it called the remote service. *)
Record Conversion := mkConversion {
  total_fields : nat;
  widgets : list (nat * Widget);
  printed : list str;
  ocr_called : bool
}.

Definition decimal (n : nat) : str :=
  map Utf8.byte (String.list_ascii_of_string (pretty n)).

(** The body of [for j, field in enumerate(fields)]. *)
Definition widget_of (i j : nat) (field : FieldDescriptor) : Widget :=
  mkWidget (fd_rect field)
    (u "page" ++ decimal (i + 1) ++ u "_field" ++ decimal (j + 1))
    (fd_kind field)
    (match fd_kind field with Text => Some 0%Z | Checkbox => None end).

(** [needs_ocr], line 285. *)
Definition needs_ocr (doc : list Page) : bool :=
  existsb (fun page => length (_get_page_text_blocks page) =? 0) doc.

(** Lines 286 to 292: [(mistral_pages, printed, called)]. *)
Definition request_ocr (doc : list Page) (remote : OcrOutcome)
    : option (list MistralPage) * list str * bool :=
  if needs_ocr doc
  then match remote with
       | OcrPages pages => (Some pages, [], true)
       | OcrRaised e => (None, [u "Mistral OCR failed: " ++ e], true)
       end
  else (None, [], false).

(** The loop of line 295 over the page numbers [is]. *)
Fixpoint convert_pages (doc : list Page)
    (mistral_pages : option (list MistralPage)) (pages : list nat)
    (acc : nat * list (nat * Widget)) : option (nat * list (nat * Widget)) :=
  match pages with
  | [] => Some acc
  | i :: rest =>
      fields ← detect_fields doc i mistral_pages;
      convert_pages doc mistral_pages rest
        (acc.1 + length fields,
         acc.2 ++ imap (fun j field => (i, widget_of i j field)) fields)
  end.

(** [convert], lines 284 to 306 and the value of line 310.  What the
    document library does at [page.add_widget] and at [self.doc.save]
    (lines 305 and 308) is outside the embedding: the widgets are recorded
    in the order in which they are added, and [None] is the [IndexError]
    of [self.doc[i]] only. *)
Definition convert (doc : list Page) (remote : OcrOutcome)
    : option Conversion :=
  let '(mistral_pages, out, called) := request_ocr doc remote in
  r ← convert_pages doc mistral_pages (seq 0 (length doc)) (0, []);
  Some (mkConversion r.1 r.2 out called).

End Orchestrator.

(** PyMuPDF's rectangle functions on valid rectangles, for the examples. *)
Instance plain_rect : FitzRect := {|
  width := fun r => Qmax 0 (x1 r - x0 r);
  height := fun r => Qmax 0 (y1 r - y0 r);
  intersects := fun a b =>
    Qltb (Qmax (x0 a) (x0 b)) (Qmin (x1 a) (x1 b))
    && Qltb (Qmax (y0 a) (y0 b)) (Qmin (y1 a) (y1 b))
|}.

Definition position (t : String.string) (a b c d : Q) : TextPosition :=
  mkTP (u t) (mkRect a b c d) 1.

(* ===================================================================== *)
(** ** The matcher as the specification words it *)
(* ===================================================================== *)

Module Spec.

(** Substring score: [len(label)/max(len(text),1)] when one normalized
    string contains the other. *)
Definition substring_score (label text : str) : Q :=
  if Py.contains label text || Py.contains text label
  then ratio (length label) (Nat.max (length text) 1)
  else 0.

(** Word-overlap score: [|common words| / |label words|] when the
    intersection is non-empty. *)
Definition word_score (label text : str) : Q :=
  let common := word_set label ∩ word_set text in
  if decide (common = ∅) then 0
  else ratio (size common) (size (word_set label)).

(** The score of a position: the maximum of the two. *)
Definition score `{PyRuntime} (label : str) (tp : TextPosition) : Q :=
  Qmax (substring_score label (ocr_clean_of tp))
       (word_score label (ocr_clean_of tp)).

End Spec.

(* ===================================================================== *)
(** ** Definitions used to state the properties *)
(* ===================================================================== *)

(** The condition under which the specification selects position [i]:
    it is unused, scores above 0.3, no unused position scores higher and
    no earlier unused position scores as high. *)
Definition first_best `{PyRuntime} (lc : str) (ps : list TextPosition)
    (used : gset nat) (i : nat) (tp : TextPosition) : Prop :=
  ps !! i = Some tp /\ (i ∉ used)
  /\ (3 # 10 < Spec.score lc tp)%Q
  /\ (forall j tpj, ps !! j = Some tpj -> j ∉ used ->
        (Spec.score lc tpj <= Spec.score lc tp)%Q)
  /\ (forall j tpj, j < i -> ps !! j = Some tpj -> j ∉ used ->
        (Spec.score lc tpj < Spec.score lc tp)%Q).

Definition is_ascii (s : str) : Prop := Forall (fun c => (c < 128)%N) s.

(** The key order of two rectangles: [a] does not come after [b]. *)
Definition key_le (a b : Rect) : Prop := key_lt b a = false.

(** The longest prefix of [s] in the class [p]; [Py.lstrip_of p s] is what
    follows it. *)
Fixpoint run_of (p : char -> bool) (s : str) : str :=
  match s with
  | c :: s' => if p c then c :: run_of p s' else []
  | [] => []
  end.

(** The rest of the native pattern after its group: [\s*:\s*]. *)
Definition colon_tail : Re.pattern :=
  [Re.Star Py.isspace; Re.Lit 58%N; Re.Star Py.isspace].

(** The label locator as the specification words it: digits belong to the
    label class, and the width is measured from the label's right edge. *)
Definition claimed_label_class (c : char) : bool :=
  Re.is_alpha c || Py.isspace c || Py.char_in (u "/'()#*") c
  || ((48 <=? c) && (c <=? 57))%N.

Definition claimed_label_width (pw label_right : Q) : Q :=
  Qmin 150 (pw - 20 - label_right).

(** A page with the single line [text] at [bbox], on which the search for
    [text] finds [bbox] and any other search finds nothing. *)
Definition one_line_page (text : str) (bbox : Rect) (pw : Q) : Page :=
  mkPage [mkBlock 0 [mkLine [mkSpan text] bbox]]
         (fun needle => if bool_decide (needle = text) then [bbox] else [])
         pw [].

(** The fields of a page when there is no OCR data: those of the native
    pipeline when the page has native text, none otherwise. *)
Definition fields_without_ocr `{FitzRect} (page : Page)
    : list FieldDescriptor :=
  if 0 <? length (_get_page_text_blocks page)
  then dedup (native_fields page)
  else [].

(** [sep.join(parts)] *)
Fixpoint join (sep : str) (parts : list str) : str :=
  match parts with
  | [] => []
  | [p] => p
  | p :: rest => p ++ sep ++ join sep rest
  end.

(** The text of [s] before the next occurrence of any glyph of [gs], or
    all of [s] when there is none. *)
Fixpoint before_any_glyph (gs : list str) (s : str) : str :=
  if existsb (fun g => Py.startswith g s) gs then []
  else match s with
       | [] => []
       | c :: s' => c :: before_any_glyph gs s'
       end.

(** The option text as the specification words it: the text before the
    next glyph, its white space collapsed. *)
Definition option_text (part : str) : str :=
  join (u " ") (Py.split_ws (before_any_glyph ALL_CB part)).

(** What the extraction needs of the glyph alphabet: no glyph is empty or
    holds white space, and the first character of a glyph never occurs in
    a glyph after its first character. *)
Definition no_straddle (g g' : str) : bool :=
  forallb (fun x => match g' with
                    | [] => true
                    | y :: _ => negb (x =? y)%N
                    end) (tail g).

Definition glyph_ok (gs : list str) (g : str) : bool :=
  match g with [] => false | _ :: _ => true end
  && forallb (fun c => negb (Py.isspace c)) g
  && forallb (no_straddle g) gs.

(** A scanned page: no native text, and the OCR engine reads "Male" and
    "Female" on one line. *)
Definition scanned_page : Page :=
  mkPage [] (fun _ => []) 600
         [position "Male" 20 10 40 20; position "Female" 70 10 100 20].

(* ===================================================================== *)
(** ** Positions of the local OCR engine *)
(* ===================================================================== *)

(** An entry of [reader.readtext(img_np)]: the corner points of the box,
    each a list of coordinates in pixels, the text and the confidence. *)
Record OcrResult := mkOcr {
  ocr_bbox : list (list Q);
  ocr_text : str;
  ocr_conf : Q
}.

(** The body of the loop of line 66; [None] is the [IndexError] of a box
    without the corners 0 and 2 or of a corner without two coordinates. *)
Definition position_of_result (scale_x scale_y : Q) (r : OcrResult)
    : option TextPosition :=
  p0 ← ocr_bbox r !! 0;
  a ← p0 !! 0;
  b ← p0 !! 1;
  p2 ← ocr_bbox r !! 2;
  c ← p2 !! 0;
  d ← p2 !! 1;
  Some (mkTP (ocr_text r)
             (mkRect (a * scale_x) (b * scale_y) (c * scale_x) (d * scale_y))
             (ocr_conf r)).

(** [_ocr_page_positions] from the size of the page, the size in pixels of
    the rendered image and the results of the reader; [None] also is the
    [ZeroDivisionError] of an image without width or height.  The scaling
    is exact here, where the code rounds the quotient and the products. *)
Definition _ocr_page_positions (page_w page_h : Q) (img_w img_h : Z)
    (results : list OcrResult) : option (list TextPosition) :=
  if (img_w =? 0)%Z || (img_h =? 0)%Z then None
  else
    let scale_x := (page_w / inject_Z img_w)%Q in
    let scale_y := (page_h / inject_Z img_h)%Q in
    mapM (position_of_result scale_x scale_y) results.

(* ===================================================================== *)
(** ** The text placement in double precision *)
(* ===================================================================== *)

(** The coordinates of the code are Python floats, that is IEEE binary64
    numbers: every sum and difference of lines 184 to 194 is rounded. *)
Local Abbreviation float := PrimFloat.float.
Number Notation PrimFloat.float PrimFloat.parser PrimFloat.printer
  : float_scope.









(* ===================================================================== *)
(** ** Further definitions used to state properties *)
(* ===================================================================== *)

(** The rectangle [inner] lies within the rectangle [outer]. *)
Definition within (outer inner : Rect) : Prop :=
  (x0 outer <= x0 inner)%Q /\ (y0 outer <= y0 inner)%Q
  /\ (x1 inner <= x1 outer)%Q /\ (y1 inner <= y1 outer)%Q.

(** No descriptor of the list intersects an earlier one of its kind. *)
Definition separated `{FitzRect} (l : list FieldDescriptor) : Prop :=
  forall i j earlier f,
    i < j -> l !! i = Some earlier -> l !! j = Some f ->
    fd_kind f = fd_kind earlier ->
    intersects (fd_rect f) (fd_rect earlier) = false.

(** Every descriptor of the list has a positive width and height. *)
Definition all_positive `{FitzRect} (l : list FieldDescriptor) : Prop :=
  forall f, f ∈ l ->
    (0 < width (fd_rect f))%Q /\ (0 < height (fd_rect f))%Q.

(** A piece of text is what the atom of a pattern may take. *)
Definition atom_takes (a : Re.atom) (w : str) : Prop :=
  match a with
  | Re.Lit c => w = [c]
  | Re.Opt c => w = [] \/ w = [c]
  | Re.Star cls => Forall (fun x => cls x = true) w
  | Re.Plus cls => w ≠ [] /\ Forall (fun x => cls x = true) w
  | Re.PlusLazy cls => w ≠ [] /\ Forall (fun x => cls x = true) w
  end.

(** The lengths [lens] cut a prefix of [s] into pieces, one for each atom
    of [p], that the atoms take in order. *)
Fixpoint conforms (p : Re.pattern) (lens : list nat) (s : str) : Prop :=
  match p, lens with
  | [], [] => True
  | a :: p', n :: lens' =>
      n <= length s /\ atom_takes a (take n s) /\ conforms p' lens' (drop n s)
  | _, _ => False
  end.

(** The fields that [detect_fields] gives for page [i], none where it
    raises. *)
Definition fields_at `{PyRuntime} `{FitzRect} (doc : list Page)
    (mistral_pages : option (list MistralPage)) (i : nat)
    : list FieldDescriptor :=
  default [] (detect_fields doc i mistral_pages).

(** The widgets of page [i], with the number of the page. *)
Definition page_widgets `{PyRuntime} `{FitzRect} (doc : list Page)
    (mistral_pages : option (list MistralPage)) (i : nat)
    : list (nat * Widget) :=
  imap (fun j field => (i, widget_of i j field))
       (fields_at doc mistral_pages i).

(** [r] lies within one of the rectangles of [ms]. *)
Definition covered (ms : list Rect) (r : Rect) : Prop :=
  exists m, m ∈ ms /\ within m r.


(** The merge test as the specification words it: the vertical origins
    differ by less than 3 and the left edge of the next instance is within
    5 of the right edge of the merged rectangle. *)
Definition claimed_merge_cond (m inst : Rect) : Prop :=
  (Qabs (y0 inst - y0 m) < 3)%Q /\ (Qabs (x0 inst - x1 m) <= 5)%Q.

(** A page on which the search finds a run from 10 to 50 and, one unit
    higher and 450 further right, a run from 500 to 560. *)
Definition far_runs_page : Page :=
  mkPage [] (fun _ => [mkRect 10 101 50 111; mkRect 500 100 560 110]) 600 [].

(** A page with the line " Name: Date:" in two spans.  The search finds
    "Name:" on the line; it finds "Date:" first in a heading further down
    the page and then on the line. *)
Definition two_label_page : Page :=
  mkPage [mkBlock 1 [mkLine [mkSpan (u "Fax:")] (mkRect 10 50 40 60)];
          mkBlock 0 [mkLine [mkSpan (u " Name: "); mkSpan (u "Date:")]
                            (mkRect 10 10 200 20)]]
         (fun needle =>
            if bool_decide (needle = u "Name:") then [mkRect 10 10 40 20]
            else if bool_decide (needle = u "Date:")
                 then [mkRect 10 300 40 310; mkRect 100 12 130 20]
                 else if bool_decide (needle = u "Fax:")
                      then [mkRect 10 50 40 60]
                      else [])
         600 [].

(** A decimal digit. *)
Definition is_digit (c : char) : Prop := (48 <= c <= 57)%N.

(** The box of a result has the corners 0 and 2, each with two
    coordinates: [(a, b)] and [(c, d)]. *)
Definition corners (r : OcrResult) (a b c d : Q) : Prop :=
  exists p0 p2, ocr_bbox r !! 0 = Some p0 /\ ocr_bbox r !! 2 = Some p2
    /\ p0 !! 0 = Some a /\ p0 !! 1 = Some b
    /\ p2 !! 0 = Some c /\ p2 !! 1 = Some d.

(** One result of the reader on an image of 200 by 100 pixels. *)
Definition sample_result : OcrResult :=
  mkOcr [[20; 10]; [60; 10]; [60; 30]; [20; 30]]%Q (u "Name") (9 # 10).

(** A page with native text: the single line "Name:". *)
Definition native_page : Page :=
  one_line_page (u "Name:") (mkRect 10 10 100 20) 200.

(* ===================================================================== *)
(** ** Properties of the fuzzy position matcher *)
(* ===================================================================== *)

Lemma Qltb_lt (a b : Q) : Qltb a b = true <-> (a < b)%Q.
Proof.
  unfold Qltb. rewrite negb_true_iff. split.
  - intros H. apply Qnot_le_lt. intros Hle.
    apply Qle_bool_iff in Hle. congruence.
  - intros H. destruct (Qle_bool b a) eqn:E; [|reflexivity].
    apply Qle_bool_iff in E. exfalso. apply (Qlt_not_le _ _ H E).
Qed.

Lemma ratio_nonneg (a b : nat) : (0 <= ratio a b)%Q.
Proof.
  unfold ratio, Qdiv. apply Qmult_le_0_compat.
  - change 0%Q with (inject_Z 0). rewrite <- Zle_Qle. lia.
  - apply Qinv_le_0_compat. change 0%Q with (inject_Z 0).
    rewrite <- Zle_Qle. lia.
Qed.

Lemma substring_score_nonneg (l t : str) : (0 <= Spec.substring_score l t)%Q.
Proof.
  unfold Spec.substring_score. destruct (_ || _).
  - apply ratio_nonneg.
  - apply Qle_refl.
Qed.

Lemma word_score_nonneg (l t : str) : (0 <= Spec.word_score l t)%Q.
Proof.
  unfold Spec.word_score. cbv zeta. destruct (decide _).
  - apply Qle_refl.
  - apply ratio_nonneg.
Qed.

Lemma try_score_zero (i : nat) (tp : TextPosition) (st : Best) :
  (0 <= st.2)%Q -> try_score i tp 0 st = st.
Proof.
  intros Hst. unfold try_score. destruct (Qltb st.2 0) eqn:E; [|reflexivity].
  apply Qltb_lt in E. lra.
Qed.

Lemma try_score_cases (i : nat) (tp : TextPosition) (score : Q) (st : Best) :
  ((st.2 < score)%Q /\ try_score i tp score st = (Some (i, tp), score))
  \/ ((score <= st.2)%Q /\ try_score i tp score st = st).
Proof.
  unfold try_score. destruct (Qltb st.2 score) eqn:E.
  - left. apply Qltb_lt in E. auto.
  - right. split; [|reflexivity].
    destruct (Qlt_le_dec st.2 score) as [Hlt|Hle]; [|exact Hle].
    apply Qltb_lt in Hlt. congruence.
Qed.

Section MatcherFacts.
Context {rt : PyRuntime}.

Lemma word_guard (l t : str) :
  (1 <=? size (word_set l ∩ word_set t)) && (0 <? size (word_set l)) = true
  <-> word_set l ∩ word_set t ≠ ∅.
Proof.
  rewrite andb_true_iff, Nat.leb_le, Nat.ltb_lt. split.
  - intros [Hc _] He. rewrite He, size_empty in Hc. lia.
  - intros Hne.
    assert (size (word_set l ∩ word_set t) ≠ 0) as Hs.
    { intros Hz. apply size_empty_iff in Hz. apply Hne.
      apply leibniz_equiv. exact Hz. }
    assert (size (word_set l ∩ word_set t) <= size (word_set l)) as Hle.
    { apply subseteq_size. set_solver. }
    lia.
Qed.

(** One iteration of the loop is one scoring of the position. *)
Lemma match_step_unused (lc : str) (used : gset nat) (i : nat)
    (tp : TextPosition) (st : Best) :
  i ∉ used -> (0 <= st.2)%Q ->
  match_step lc used i tp st
  = try_score i tp (Spec.word_score lc (ocr_clean_of tp))
      (try_score i tp (Spec.substring_score lc (ocr_clean_of tp)) st).
Proof.
  intros Hi Hst. unfold match_step.
  destruct (decide (i ∈ used)) as [Hin|_]; [contradiction|].
  cbv zeta. unfold Spec.substring_score, Spec.word_score. cbv zeta.
  set (sub := Py.contains lc (ocr_clean_of tp) || Py.contains (ocr_clean_of tp) lc).
  set (st1 := if sub then _ else st).
  assert (st1 = try_score i tp
            (if sub then ratio (length lc) (Nat.max (length (ocr_clean_of tp)) 1)
             else 0%Q) st) as ->.
  { subst st1. destruct sub; [reflexivity|]. now rewrite try_score_zero. }
  set (st1 := try_score _ _ _ st).
  assert (0 <= st1.2)%Q as Hst1.
  { subst st1. destruct (try_score_cases i tp
      (if sub then ratio (length lc) (Nat.max (length (ocr_clean_of tp)) 1)
       else 0%Q) st) as [[Hlt ->]|[_ ->]]; [|exact Hst].
    simpl. destruct sub; [apply ratio_nonneg|apply Qle_refl]. }
  destruct (decide (word_set lc ∩ word_set (ocr_clean_of tp) = ∅)) as [He|Hne].
  - rewrite try_score_zero by exact Hst1.
    destruct (_ && _) eqn:E; [|reflexivity].
    apply word_guard in E. contradiction.
  - apply word_guard in Hne. rewrite Hne. reflexivity.
Qed.

Lemma match_step_used (lc : str) (used : gset nat) (i : nat)
    (tp : TextPosition) (st : Best) :
  i ∈ used -> match_step lc used i tp st = st.
Proof.
  intros Hi. unfold match_step. destruct (decide (i ∈ used)); [reflexivity|].
  contradiction.
Qed.

(** The effect of one iteration on [(best_match, best_score)]. *)
Lemma match_step_cases (lc : str) (used : gset nat) (i : nat)
    (tp : TextPosition) (st : Best) :
  i ∉ used -> (0 <= st.2)%Q ->
  ((st.2 < Spec.score lc tp)%Q
   /\ (match_step lc used i tp st).1 = Some (i, tp)
   /\ ((match_step lc used i tp st).2 == Spec.score lc tp)%Q)
  \/ ((Spec.score lc tp <= st.2)%Q /\ match_step lc used i tp st = st).
Proof.
  intros Hi Hst. rewrite match_step_unused by assumption.
  unfold Spec.score.
  set (s1 := Spec.substring_score lc (ocr_clean_of tp)).
  set (s2 := Spec.word_score lc (ocr_clean_of tp)).
  destruct (Q.max_spec s1 s2) as [[Hlt Hm]|[Hle Hm]];
    destruct (try_score_cases i tp s1 st) as [[H1 ->]|[H1 ->]];
    match goal with
    | |- context [try_score i tp s2 ?x] =>
        destruct (try_score_cases i tp s2 x) as [[H2 ->]|[H2 ->]]
    end; simpl in *; rewrite ?Hm;
    first [ left; repeat split; (reflexivity || lra)
          | right; split; [lra|reflexivity]
          | exfalso; lra ].
Qed.

Lemma match_step_mono (lc : str) (used : gset nat) (i : nat)
    (tp : TextPosition) (st : Best) :
  (0 <= st.2)%Q -> (st.2 <= (match_step lc used i tp st).2)%Q.
Proof.
  intros Hst. destruct (decide (i ∈ used)) as [Hin|Hout].
  - rewrite match_step_used by exact Hin. apply Qle_refl.
  - destruct (match_step_cases lc used i tp st Hout Hst)
      as [(Hlt & _ & He)|[_ ->]]; [rewrite He; lra|apply Qle_refl].
Qed.

(** What the loop leaves in [(best_match, best_score)]: either nothing
    changed and no unused position scores above the initial best score, or
    the pair is the first unused position with the highest score. *)
Lemma match_loop_spec (lc : str) (used : gset nat)
    (ps : list TextPosition) :
  forall (i : nat) (st : Best), (0 <= st.2)%Q ->
  let st' := match_loop lc used i ps st in
  (forall j tpj, ps !! j = Some tpj -> (i + j) ∉ used ->
     (Spec.score lc tpj <= st'.2)%Q)
  /\ (st.2 <= st'.2)%Q
  /\ (st' = st
      \/ exists j tpj,
           ps !! j = Some tpj /\ ((i + j) ∉ used)
           /\ st'.1 = Some (i + j, tpj)
           /\ (st'.2 == Spec.score lc tpj)%Q
           /\ (st.2 < Spec.score lc tpj)%Q
           /\ forall j' tp', j' < j -> ps !! j' = Some tp' ->
                (i + j') ∉ used -> (Spec.score lc tp' < Spec.score lc tpj)%Q).
Proof.
  induction ps as [|tp ps IH]; intros i st Hst; cbn [match_loop].
  - cbv zeta. split; [|split].
    + intros j tpj Hj. discriminate.
    + apply Qle_refl.
    + left. reflexivity.
  - pose proof (match_step_mono lc used i tp st Hst) as Hmono.
    assert (0 <= (match_step lc used i tp st).2)%Q as Hst1 by lra.
    specialize (IH (S i) _ Hst1). cbv zeta in IH |- *.
    destruct IH as (Hall & Hle & Hres).
    set (st1 := match_step lc used i tp st) in *.
    set (st' := match_loop lc used (S i) ps st1) in *.
    assert (forall j tpj, (tp :: ps) !! j = Some tpj -> (i + j) ∉ used ->
              (Spec.score lc tpj <= st'.2)%Q) as Hall'.
    { intros [|j] tpj Hj Hu; cbn in Hj.
      - injection Hj as <-. rewrite Nat.add_0_r in Hu.
        destruct (match_step_cases lc used i tp st Hu Hst)
          as [(_ & _ & He)|[Hs Heq]]; fold st1 in He || fold st1 in Heq.
        + lra.
        + rewrite Heq in Hle. lra.
      - apply (Hall j); [exact Hj|]. now rewrite Nat.add_succ_comm. }
    split; [exact Hall'|]. split; [lra|].
    destruct (decide (i ∈ used)) as [Hin|Hout].
    + (* the position is used: the iteration changes nothing *)
      assert (st1 = st) as E1 by (subst st1; now apply match_step_used).
      destruct Hres as [Hsame|(j & tpj & Hj & Hu & Hm & Hs & Hlt & Hfirst)].
      * left. congruence.
      * right. exists (S j), tpj. rewrite <- Nat.add_succ_comm.
        rewrite E1 in Hlt.
        repeat split; try assumption.
        intros [|j'] tp' Hj' Hl Hu'; cbn in Hl.
        -- rewrite Nat.add_0_r in Hu'. contradiction.
        -- apply (Hfirst j'); [lia|exact Hl|].
           now rewrite Nat.add_succ_comm.
    + destruct (match_step_cases lc used i tp st Hout Hst)
        as [(Hlt0 & Hm0 & Hs0)|[Hle0 Heq0]]; fold st1 in Hm0, Hs0 || fold st1 in Heq0.
      * (* the position becomes the best one *)
        destruct Hres as [Hsame|(j & tpj & Hj & Hu & Hm & Hs & Hlt & Hfirst)].
        -- right. exists 0, tp. rewrite Nat.add_0_r.
           rewrite Hsame. repeat split; try assumption; try reflexivity.
           intros j' tp' Hj'. lia.
        -- right. exists (S j), tpj. rewrite <- Nat.add_succ_comm.
           repeat split; try assumption; [lra|].
           intros [|j'] tp' Hj' Hl Hu'; cbn in Hl.
           ++ injection Hl as <-. lra.
           ++ apply (Hfirst j'); [lia|exact Hl|].
              now rewrite Nat.add_succ_comm.
      * destruct Hres as [Hsame|(j & tpj & Hj & Hu & Hm & Hs & Hlt & Hfirst)].
        -- left. congruence.
        -- right. exists (S j), tpj. rewrite <- Nat.add_succ_comm.
           rewrite Heq0 in Hlt.
           repeat split; try assumption.
           intros [|j'] tp' Hj' Hl Hu'; cbn in Hl.
           ++ injection Hl as <-. lra.
           ++ apply (Hfirst j'); [lia|exact Hl|].
              now rewrite Nat.add_succ_comm.
Qed.

Lemma find_label_position_iff (label_text : str)
    (ps : list TextPosition) (used : gset nat) (i : nat) (tp : TextPosition) :
  2 <= length (label_clean_of label_text) ->
  _find_label_position label_text ps used = Some (i, tp)
  <-> first_best (label_clean_of label_text) ps used i tp.
Proof.
  intros Hlen. unfold _find_label_position. cbv zeta.
  set (lc := label_clean_of label_text) in *.
  destruct (length lc <? 2) eqn:E; [apply Nat.ltb_lt in E; lia|].
  destruct (match_loop_spec lc used ps 0 (None, 0%Q) (Qle_refl 0))
    as (Hall & _ & Hres).
  cbv zeta in Hall, Hres. cbn [Nat.add] in Hall, Hres.
  set (st' := match_loop lc used 0 ps (None, 0%Q)) in *.
  destruct Hres as [Hsame|(j & tpj & Hj & Hu & Hm & Hs & Hlt & Hfirst)].
  - rewrite Hsame in *. cbn [fst snd] in *. split; [discriminate|].
    intros (Hi & Hiu & Hs & _). specialize (Hall i tp Hi Hiu). lra.
  - rewrite Hm. split.
    + destruct (Qltb (3 # 10) st'.2) eqn:E3; [|discriminate].
      intros [= <- <-]. apply Qltb_lt in E3.
      repeat split; try assumption.
      * lra.
      * intros k tpk Hk Hku. specialize (Hall k tpk Hk Hku). lra.
    + intros (Hi & Hiu & Hi3 & Hmax & Hmin).
      assert (i = j) as ->.
      { destruct (Nat.lt_trichotomy i j) as [Hl|[He|Hg]]; [|exact He|].
        - specialize (Hfirst i tp Hl Hi Hiu).
          specialize (Hmax j tpj Hj Hu). lra.
        - specialize (Hmin j tpj Hg Hj Hu).
          specialize (Hall i tp Hi Hiu). lra. }
      assert (tp = tpj) as -> by congruence.
      assert (Qltb (3 # 10) st'.2 = true) as ->; [|reflexivity].
      apply Qltb_lt. lra.
Qed.

Lemma find_label_position_short (label_text : str)
    (ps : list TextPosition) (used : gset nat) :
  length (label_clean_of label_text) < 2 ->
  _find_label_position label_text ps used = None.
Proof.
  intros Hlen. unfold _find_label_position. cbv zeta.
  apply Nat.ltb_lt in Hlen. now rewrite Hlen.
Qed.

(** The matcher returns an unused index of the list, with its entry. *)
Lemma find_label_position_unused (label_text : str)
    (ps : list TextPosition) (used : gset nat) (i : nat) (tp : TextPosition) :
  _find_label_position label_text ps used = Some (i, tp) ->
  (i ∉ used) /\ ps !! i = Some tp.
Proof.
  intros Hf.
  destruct (Nat.lt_ge_cases (length (label_clean_of label_text)) 2) as [Hs|Hl].
  - rewrite find_label_position_short in Hf by exact Hs. discriminate.
  - apply find_label_position_iff in Hf; [|exact Hl].
    destruct Hf as (Hi & Hu & _). auto.
Qed.

End MatcherFacts.

(** *** The matcher on ASCII text does not depend on the Unicode tables *)

Ltac solve_ascii := unfold is_ascii; vm_compute; repeat constructor.

Lemma lstrip_of_Forall (P : char -> Prop) (p : char -> bool) (s : str) :
  Forall P s -> Forall P (Py.lstrip_of p s).
Proof.
  induction 1 as [|c s Hc Hs IH]; cbn; [constructor|].
  destruct (p c); [exact IH|now constructor].
Qed.

Lemma rstrip_of_Forall (P : char -> Prop) (p : char -> bool) (s : str) :
  Forall P s -> Forall P (Py.rstrip_of p s).
Proof.
  induction 1 as [|c s Hc Hs IH]; cbn; [constructor|].
  destruct (Py.rstrip_of p s) as [|d r].
  - destruct (p c); repeat constructor. exact Hc.
  - now constructor.
Qed.

Lemma strip_ascii (s : str) : is_ascii s -> is_ascii (Py.strip s).
Proof. intros Hs. now apply rstrip_of_Forall, lstrip_of_Forall. Qed.

Lemma lower_on_ascii (rt : PyRuntime) (s : str) :
  is_ascii s -> @lower rt s = @lower ascii_runtime s.
Proof. intros Hs. now rewrite (@lower_ascii rt s Hs). Qed.

Lemma find_label_position_ascii (rt : PyRuntime) (label_text : str)
    (ps : list TextPosition) (used : gset nat) :
  is_ascii label_text -> Forall (fun tp => is_ascii (tp_text tp)) ps ->
  @_find_label_position rt label_text ps used
  = @_find_label_position ascii_runtime label_text ps used.
Proof.
  intros Hl Hps. unfold _find_label_position. cbv zeta.
  assert (@label_clean_of rt label_text
          = @label_clean_of ascii_runtime label_text) as ->.
  { unfold label_clean_of. apply lower_on_ascii, strip_ascii.
    now apply rstrip_of_Forall. }
  set (lc := @label_clean_of ascii_runtime label_text).
  assert (forall i st, @match_loop rt lc used i ps st
                       = @match_loop ascii_runtime lc used i ps st) as ->;
    [|reflexivity].
  induction Hps as [|tp ps Htp Hps IH]; intros i st; cbn [match_loop];
    [reflexivity|].
  rewrite IH. f_equal. unfold match_step, ocr_clean_of.
  now rewrite (lower_on_ascii rt (tp_text tp) Htp).
Qed.

(** C2. The fuzzy position matcher returns none when the normalized label
    (trailing ':' and '*' stripped, trimmed, lowercased) is shorter than 2;
    otherwise it returns position [i] exactly when [i] is the first unused
    position attaining the highest score and that score exceeds 0.3, the
    score of a position being the maximum of the substring score and the
    word-overlap score.  Label "Patient Name" is matched to the position
    with text "Patient Name:", and to none when the only position has the
    text "Date of Birth". *)
Theorem find_label_position_correct (rt : PyRuntime) :
  (forall label_text ps used,
      length (label_clean_of label_text) < 2 ->
      _find_label_position label_text ps used = None)
  /\ (forall label_text ps used i tp,
        2 <= length (label_clean_of label_text) ->
        _find_label_position label_text ps used = Some (i, tp)
        <-> first_best (label_clean_of label_text) ps used i tp)
  /\ (forall r c,
        _find_label_position (u "Patient Name")
          [mkTP (u "Patient Name:") r c] ∅
        = Some (0, mkTP (u "Patient Name:") r c))
  /\ (forall r c,
        _find_label_position (u "Patient Name")
          [mkTP (u "Date of Birth") r c] ∅ = None).
Proof.
  split; [|split; [|split]].
  - intros. now apply find_label_position_short.
  - intros. now apply find_label_position_iff.
  - intros r c. rewrite find_label_position_ascii.
    + vm_compute. reflexivity.
    + solve_ascii.
    + constructor; [solve_ascii|constructor].
  - intros r c. rewrite find_label_position_ascii.
    + vm_compute. reflexivity.
    + solve_ascii.
    + constructor; [solve_ascii|constructor].
Qed.

(** The theorem at the label "A:" (too short once normalized) and at the
    label "Patient Name" with one matching position. *)
Lemma find_label_position_correct_witness :
  (length (@label_clean_of ascii_runtime (u "A:")) < 2
   /\ @_find_label_position ascii_runtime (u "A:") [position "A" 0 0 9 9] ∅
      = None)
  /\ (2 <= length (@label_clean_of ascii_runtime (u "Patient Name"))
      /\ @first_best ascii_runtime
           (@label_clean_of ascii_runtime (u "Patient Name"))
           [position "Patient Name:" 0 0 9 9] ∅ 0
           (position "Patient Name:" 0 0 9 9)).
Proof.
  split.
  - assert (length (@label_clean_of ascii_runtime (u "A:")) < 2) as Hs
      by (vm_compute; lia).
    split; [exact Hs|].
    exact (proj1 (find_label_position_correct ascii_runtime) _ _ _ Hs).
  - assert (2 <= length (@label_clean_of ascii_runtime (u "Patient Name")))
      as Hl by (vm_compute; lia).
    split; [exact Hl|].
    apply (proj1 (proj2 (find_label_position_correct ascii_runtime))
             _ _ _ _ _ Hl).
    vm_compute. reflexivity.
Defined.

(* ===================================================================== *)
(** ** Properties of the OCR field synthesizer *)
(* ===================================================================== *)

Section SynthesizerFacts.
Context {rt : PyRuntime}.

(** The clamp of line 192 leaves a width between 20 and 200, so the guard
    of line 194 always passes. *)
Lemma place_text_some (pw : Q) (ps : list TextPosition) (idx : nat)
    (tp : TextPosition) :
  exists fd, place_text pw ps idx tp = Some fd
    /\ fd_kind fd = Text
    /\ (20 <= x1 (fd_rect fd) - x0 (fd_rect fd))%Q
    /\ (x1 (fd_rect fd) - x0 (fd_rect fd) <= 200)%Q.
Proof.
  unfold place_text. cbv zeta.
  set (a := (x1 (tp_rect tp) + 2)%Q).
  set (b := limit_loop idx tp 0 ps (pw - 20)%Q).
  set (c := Qmax (a + 20) (Qmin b (a + 200))).
  assert (a + 20 <= c)%Q as Hlo by apply Q.le_max_l.
  assert (c <= a + 200)%Q as Hhi.
  { subst c. apply Q.max_lub; [lra|apply Q.le_min_r]. }
  assert (Qltb 15 (c - a) = true) as -> by (apply Qltb_lt; lra).
  eexists. split; [reflexivity|]. cbn. repeat split; lra.
Qed.

(** A candidate appends at most one field, of its own kind. *)
Lemma ocr_bind_new (pw : Q) (ps : list TextPosition) (used : gset nat)
    (fi : FieldCandidate) (idx : nat) (new : list FieldDescriptor) :
  ocr_bind pw ps used fi = Some (idx, new) ->
  exists tp fd, _find_label_position (fc_label fi) ps used = Some (idx, tp)
    /\ new = [fd] /\ fd_kind fd = fc_kind fi
    /\ (fc_kind fi = Checkbox -> fd = place_checkbox tp)
    /\ (fc_kind fi = Text -> place_text pw ps idx tp = Some fd).
Proof.
  unfold ocr_bind. intros Hb.
  destruct (fc_kind fi) eqn:Ek;
    destruct (_find_label_position (fc_label fi) ps used) as [[i tp]|] eqn:Ef;
    try discriminate; injection Hb as -> <-.
  - exists tp, (place_checkbox tp). repeat split; auto. discriminate.
  - destruct (place_text_some pw ps idx tp) as (fd & Hfd & Hk & _).
    exists tp, fd. rewrite Hfd. repeat split; auto. discriminate.
Qed.

Lemma ocr_bind_unused (pw : Q) (ps : list TextPosition) (used : gset nat)
    (fi : FieldCandidate) (idx : nat) (new : list FieldDescriptor) :
  ocr_bind pw ps used fi = Some (idx, new) ->
  (idx ∉ used) /\ is_Some (ps !! idx).
Proof.
  intros Hb. apply ocr_bind_new in Hb as (tp & fd & Hf & _).
  apply find_label_position_unused in Hf as [Hu Hl]. split; [exact Hu|].
  now exists tp.
Qed.

(** The fields of the loop are the fields of its bindings, and the used
    set only grows. *)
Lemma ocr_loop_bindings (pw : Q) (ps : list TextPosition)
    (fis : list FieldCandidate) :
  forall st : list FieldDescriptor * gset nat,
    (ocr_loop pw ps fis st).1 = st.1 ++ (ocr_bindings pw ps st.2 fis).*2
    /\ st.2 ⊆ (ocr_loop pw ps fis st).2.
Proof.
  induction fis as [|fi fis IH]; intros st; cbn [ocr_loop ocr_bindings foldl].
  - rewrite app_nil_r. split; [reflexivity|set_solver].
  - fold (ocr_loop pw ps fis (ocr_step pw ps st fi)).
    destruct (IH (ocr_step pw ps st fi)) as [IH1 IH2]. unfold ocr_step in *.
    destruct (ocr_bind pw ps st.2 fi) as [[idx new]|] eqn:Eb.
    + cbn [fst snd] in *. rewrite IH1. split; [|set_solver].
      rewrite fmap_app, <- app_assoc. f_equal. f_equal.
      clear. induction new as [|f new IH]; cbn; [reflexivity|now f_equal].
    + split; assumption.
Qed.

(** The indices of the bindings are fresh and pairwise distinct. *)
Lemma ocr_bindings_fresh (pw : Q) (ps : list TextPosition)
    (fis : list FieldCandidate) :
  forall used : gset nat,
    NoDup (ocr_bindings pw ps used fis).*1
    /\ (forall i, i ∈ (ocr_bindings pw ps used fis).*1 ->
          (i ∉ used) /\ is_Some (ps !! i)).
Proof.
  induction fis as [|fi fis IH]; intros used; cbn [ocr_bindings].
  - split; [constructor|]. intros i Hi. cbn in Hi. set_solver.
  - destruct (ocr_bind pw ps used fi) as [[idx new]|] eqn:Eb; [|apply IH].
    destruct (ocr_bind_unused _ _ _ _ _ _ Eb) as [Hu Hl].
    apply ocr_bind_new in Eb as (tp & fd & _ & -> & _).
    destruct (IH ({[idx]} ∪ used)) as [IHn IHf].
    cbn [map app fmap list_fmap fst]. split.
    + apply NoDup_cons. split; [|exact IHn].
      intros Hin. apply IHf in Hin as [Hin _]. set_solver.
    + intros i Hi. apply elem_of_cons in Hi as [->|Hi]; [now split|].
      apply IHf in Hi as [Hi1 Hi2]. split; [set_solver|exact Hi2].
Qed.


(** C3. The matcher never returns an index of the used set; the index a
    candidate consumes is in the used set from then on, and the used set
    never loses an index; hence the fields that the OCR pipeline produces
    for a page are bound to pairwise distinct positions of the page. *)
Theorem ocr_positions_not_reused :
  (forall label_text ps used i tp,
      _find_label_position label_text ps used = Some (i, tp) ->
      (i ∉ used) /\ ps !! i = Some tp)
  /\ (forall pw ps st fi idx new,
        ocr_bind pw ps st.2 fi = Some (idx, new) ->
        idx ∈ (ocr_step pw ps st fi).2)
  /\ (forall pw ps st fis, st.2 ⊆ (ocr_loop pw ps fis st).2)
  /\ (forall page page_markdown,
        let bindings :=
          ocr_bindings (page_width page) (page_ocr_positions page) ∅
            (_extract_form_fields_from_markdown page_markdown) in
        _detect_fields_ocr page page_markdown = bindings.*2
        /\ NoDup bindings.*1
        /\ forall i, i ∈ bindings.*1 ->
             is_Some (page_ocr_positions page !! i)).
Proof.
  split; [|split; [|split]].
  - intros label_text ps used i tp Hf.
    exact (find_label_position_unused _ _ _ _ _ Hf).
  - intros pw ps st fi idx new Hb. unfold ocr_step. rewrite Hb. cbn.
    set_solver.
  - intros. apply ocr_loop_bindings.
  - intros page md bindings. split; [|split].
    + apply (ocr_loop_bindings _ _ _ ([], ∅)).
    + apply ocr_bindings_fresh.
    + intros i Hi. now apply ocr_bindings_fresh in Hi.
Qed.








End SynthesizerFacts.

(** The first theorem at the markup "☐ Male ☐ Female" of the
    specification's scenario B. *)
Lemma ocr_positions_not_reused_witness :
  @_find_label_position ascii_runtime (u "Male")
    [position "Male" 20 10 40 20; position "Female" 70 10 100 20] ∅
  = Some (0, position "Male" 20 10 40 20)
  /\ (0 ∉ (∅ : gset nat))
  /\ [position "Male" 20 10 40 20; position "Female" 70 10 100 20] !! 0
     = Some (position "Male" 20 10 40 20).
Proof.
  assert (@_find_label_position ascii_runtime (u "Male")
            [position "Male" 20 10 40 20; position "Female" 70 10 100 20] ∅
          = Some (0, position "Male" 20 10 40 20)) as Hf
    by (vm_compute; reflexivity).
  split; [exact Hf|].
  exact (proj1 (@ocr_positions_not_reused ascii_runtime) _ _ _ _ _ Hf).
Defined.



(* ===================================================================== *)
(** ** Properties of the underscore-run merger *)
(* ===================================================================== *)

Lemma key_lt_spec (a b : Rect) :
  key_lt a b = true
  <-> (y0 a < y0 b)%Q \/ ((y0 a == y0 b)%Q /\ (x0 a < x0 b)%Q).
Proof.
  unfold key_lt. rewrite orb_true_iff, andb_true_iff, !Qltb_lt, Qeq_bool_iff.
  reflexivity.
Qed.

Lemma key_lt_asym (a b : Rect) : key_lt a b = true -> key_lt b a = false.
Proof.
  intros Hab. destruct (key_lt b a) eqn:Hba; [|reflexivity].
  apply key_lt_spec in Hab, Hba. exfalso.
  destruct Hab as [?|[? ?]], Hba as [?|[? ?]]; lra.
Qed.

Lemma insert_sorted_perm (r : Rect) (l : list Rect) :
  insert_sorted r l ≡ₚ r :: l.
Proof.
  induction l as [|a l IH]; cbn; [reflexivity|].
  destruct (key_lt r a); [reflexivity|].
  rewrite IH. apply Permutation_swap.
Qed.

Lemma insert_sorted_Sorted (r : Rect) (l : list Rect) :
  Sorted key_le l -> Sorted key_le (insert_sorted r l).
Proof.
  induction 1 as [|a l Hl IH Hhd]; cbn.
  - repeat constructor.
  - destruct (key_lt r a) eqn:E.
    + constructor; [now constructor|]. constructor.
      unfold key_le. now apply key_lt_asym.
    + constructor; [exact IH|].
      destruct Hhd as [|b l Hab]; cbn.
      * constructor. exact E.
      * destruct (key_lt r b); constructor; assumption.
Qed.

Lemma sorted_from (acc l : list Rect) :
  Sorted key_le acc ->
  foldl (fun acc r => insert_sorted r acc) acc l ≡ₚ acc ++ l
  /\ Sorted key_le (foldl (fun acc r => insert_sorted r acc) acc l).
Proof.
  revert acc. induction l as [|r l IH]; intros acc Hacc; cbn.
  - rewrite app_nil_r. auto.
  - destruct (IH (insert_sorted r acc)) as [Hp Hs].
    { now apply insert_sorted_Sorted. }
    split; [|exact Hs]. rewrite Hp, insert_sorted_perm.
    cbn. apply Permutation_middle.
Qed.

Lemma merge_cond_spec (m inst : Rect) :
  merge_cond m inst = true
  <-> (Qabs (y0 inst - y0 m) < 3)%Q /\ (x0 inst - x1 m < 5)%Q.
Proof.
  unfold merge_cond. rewrite andb_true_iff, !Qltb_lt.
  split; intros [? ?]; split; (assumption || lra).
Qed.

Lemma merge_step_snoc (ms : list Rect) (m inst : Rect) :
  merge_step (ms ++ [m]) inst
  = if merge_cond m inst then ms ++ [union_rect m inst]
    else ms ++ [m; inst].
Proof.
  unfold merge_step. rewrite last_snoc.
  destruct (merge_cond m inst).
  - rewrite length_app. cbn [length].
    replace (length ms + 1 - 1) with (length ms + 0) by lia.
    now rewrite insert_app_r.
  - now rewrite <- app_assoc.
Qed.

(** C4, as the code has it.  The underscore merger returns no field when
    the search for a run of underscores finds nothing.  Otherwise it sorts
    the instances by (top, left), and the next instance joins the last
    merged rectangle exactly when their vertical origins differ by less
    than 3 and its left edge lies less than 5 to the right of the merged
    rectangle's right edge: the test is one-sided, so an instance that
    begins at or left of that edge joins however far away it begins, and
    a gap of exactly 5 does not join.  The joined rectangle spans both.
    Every merged rectangle becomes a Text field whose bottom edge is 2
    lower.  Runs 4 apart merge into one field, runs 6 apart do not, and a
    run that begins 550 left of the merged right edge does. *)
Theorem underscore_merger_correct :
  (forall page,
      page_search_for page (u "___") = [] ->
      _find_underscore_fields page = [])
  /\ (forall page,
        page_search_for page (u "___") <> [] ->
        _find_underscore_fields page
        = map underscore_field
            (foldl merge_step [] (sorted (page_search_for page (u "___")))))
  /\ (forall instances,
        sorted instances ≡ₚ instances /\ Sorted key_le (sorted instances))
  /\ (forall a b, key_le a b <->
        (y0 a < y0 b)%Q \/ ((y0 a == y0 b)%Q /\ (x0 a <= x0 b)%Q))
  /\ (forall inst, merge_step [] inst = [inst])
  /\ (forall ms m inst,
        (Qabs (y0 inst - y0 m) < 3)%Q /\ (x0 inst - x1 m < 5)%Q ->
        merge_step (ms ++ [m]) inst = ms ++ [union_rect m inst])
  /\ (forall ms m inst,
        ~ ((Qabs (y0 inst - y0 m) < 3)%Q /\ (x0 inst - x1 m < 5)%Q) ->
        merge_step (ms ++ [m]) inst = ms ++ [m; inst])
  /\ (forall m,
        underscore_field m
        = mkFD Text (mkRect (x0 m) (y0 m) (x1 m) (y1 m + 2)))
  /\ (forall page,
        page_search_for page (u "___")
        = [mkRect 54 101 90 111; mkRect 10 100 50 110] ->
        _find_underscore_fields page
        = [mkFD Text (mkRect 10 100 90 113)])
  /\ (forall page,
        page_search_for page (u "___")
        = [mkRect 56 101 90 111; mkRect 10 100 50 110] ->
        _find_underscore_fields page
        = [mkFD Text (mkRect 10 100 50 112);
           mkFD Text (mkRect 56 101 90 113)])
  /\ (forall m inst,
        union_rect m inst
        = mkRect (Qmin (x0 m) (x0 inst)) (Qmin (y0 m) (y0 inst))
                 (Qmax (x1 m) (x1 inst)) (Qmax (y1 m) (y1 inst)))
  /\ (forall ms m inst,
        (Qabs (y0 inst - y0 m) < 3)%Q -> (x0 inst <= x1 m)%Q ->
        merge_step (ms ++ [m]) inst = ms ++ [union_rect m inst])
  /\ (forall ms m inst,
        (x0 inst - x1 m == 5)%Q ->
        merge_step (ms ++ [m]) inst = ms ++ [m; inst])
  /\ (forall page,
        page_search_for page (u "___")
        = [mkRect 10 101 50 111; mkRect 500 100 560 110] ->
        _find_underscore_fields page
        = [mkFD Text (mkRect 10 100 560 113)]).
Proof.
  repeat apply conj.
  - intros page Hn. unfold _find_underscore_fields. now rewrite Hn.
  - intros page Hn. unfold _find_underscore_fields. cbv zeta.
    destruct (page_search_for page (u "___")); [contradiction|reflexivity].
  - intros instances. unfold sorted.
    destruct (sorted_from [] instances) as [Hp Hs]; [constructor|].
    split; assumption.
  - intros a b. unfold key_le.
    destruct (key_lt b a) eqn:E.
    + apply key_lt_spec in E. split; [discriminate|]. intros Hx. exfalso.
      destruct E as [?|[? ?]], Hx as [?|[? ?]]; lra.
    + split; [|reflexivity]. intros _.
      assert (~ ((y0 b < y0 a)%Q \/ ((y0 b == y0 a)%Q /\ (x0 b < x0 a)%Q)))
        as Hn.
      { intros Hx. apply key_lt_spec in Hx. congruence. }
      destruct (Qlt_le_dec (y0 a) (y0 b)) as [?|Hy]; [now left|right].
      destruct (Qlt_le_dec (y0 b) (y0 a)) as [?|Hy']; [tauto|].
      split; [lra|].
      destruct (Qlt_le_dec (x0 b) (x0 a)) as [?|?]; [|assumption].
      exfalso. apply Hn. right. split; [lra|assumption].
  - reflexivity.
  - intros ms m inst Hc. rewrite merge_step_snoc.
    apply merge_cond_spec in Hc. now rewrite Hc.
  - intros ms m inst Hc. rewrite merge_step_snoc.
    destruct (merge_cond m inst) eqn:E; [|reflexivity].
    apply merge_cond_spec in E. contradiction.
  - reflexivity.
  - intros page Hs. unfold _find_underscore_fields. rewrite Hs.
    vm_compute. reflexivity.
  - intros page Hs. unfold _find_underscore_fields. rewrite Hs.
    vm_compute. reflexivity.
  - reflexivity.
  - intros ms m inst Hy Hx. rewrite merge_step_snoc.
    assert (merge_cond m inst = true) as ->; [|reflexivity].
    apply merge_cond_spec. split; [exact Hy|lra].
  - intros ms m inst Hx. rewrite merge_step_snoc.
    destruct (merge_cond m inst) eqn:E; [|reflexivity].
    apply merge_cond_spec in E. lra.
  - intros page Hs. unfold _find_underscore_fields. rewrite Hs.
    vm_compute. reflexivity.
Qed.

(** The theorem on a page whose search finds the two runs 4 apart. *)
Lemma underscore_merger_correct_witness :
  let page :=
    mkPage [] (fun _ => [mkRect 54 101 90 111; mkRect 10 100 50 110]) 600 [] in
  page_search_for page (u "___")
  = [mkRect 54 101 90 111; mkRect 10 100 50 110]
  /\ _find_underscore_fields page = [mkFD Text (mkRect 10 100 90 113)].
Proof.
  intros page. split; [reflexivity|].
  exact (proj1 (proj2 (proj2 (proj2 (proj2 (proj2 (proj2 (proj2 (proj2
           underscore_merger_correct)))))))) page eq_refl).
Defined.

(** C4 as stated fails on the code.  On the page with the runs from 10 to
    50 and from 500 to 560 the sort puts the right run first; the left
    edge 10 of the left run is 550 away from the right edge 560 of the
    merged rectangle, not within 5, and yet the run joins: the page gets
    the single field from 10 to 560.  And a run that begins exactly 5
    right of the merged rectangle is within 5 and does not join. *)
Lemma underscore_merger_counterexample :
  (sorted (page_search_for far_runs_page (u "___"))
   = [mkRect 500 100 560 110; mkRect 10 101 50 111]
   /\ ~ claimed_merge_cond (mkRect 500 100 560 110) (mkRect 10 101 50 111)
   /\ merge_step [mkRect 500 100 560 110] (mkRect 10 101 50 111)
      = [mkRect 10 100 560 111]
   /\ _find_underscore_fields far_runs_page
      = [mkFD Text (mkRect 10 100 560 113)])
  /\ (claimed_merge_cond (mkRect 10 100 50 110) (mkRect 55 100 90 110)
      /\ merge_step [mkRect 10 100 50 110] (mkRect 55 100 90 110)
         = [mkRect 10 100 50 110; mkRect 55 100 90 110]).
Proof.
  split; [split; [|split; [|split]]|split].
  - vm_compute. reflexivity.
  - unfold claimed_merge_cond. cbn [x0 x1 y0]. intros [_ Hx].
    revert Hx. vm_compute. intros Hx. now apply Hx.
  - vm_compute. reflexivity.
  - vm_compute. reflexivity.
  - unfold claimed_merge_cond. cbn [x0 x1 y0]. split; vm_compute;
      [reflexivity|discriminate].
  - vm_compute. reflexivity.
Qed.

(* ===================================================================== *)
(** ** Properties of the native label locator *)
(* ===================================================================== *)

Lemma isspace_in_class (c : char) :
  Py.isspace c = true -> native_label_class c = true.
Proof.
  intros Hc. unfold native_label_class. rewrite Hc.
  now rewrite orb_true_r.
Qed.

Lemma colon_not_in_class : native_label_class 58%N = false.
Proof. reflexivity. Qed.

Lemma class_not_colon (c : char) :
  native_label_class c = true -> (c =? 58)%N = false.
Proof.
  intros Hc. destruct (c =? 58)%N eqn:E; [|reflexivity].
  apply N.eqb_eq in E. subst c. discriminate.
Qed.

(** The trailing [\s*] takes all the white space that follows. *)
Lemma greedy_spaces_end (s : str) :
  Re.greedy Py.isspace (Re.match_at []) s
  = Some [length (run_of Py.isspace s)].
Proof.
  induction s as [|c s IH]; cbn; [reflexivity|].
  destruct (Py.isspace c); [|reflexivity].
  cbn in IH. now rewrite IH.
Qed.

(** [\s*:\s*] fails where the class run is not followed by a colon. *)
Lemma colon_tail_none (s : str) :
  head (Py.lstrip_of native_label_class s) ≠ Some 58%N ->
  Re.match_at colon_tail s = None.
Proof.
  induction s as [|c s IH]; intros Hh; [reflexivity|].
  cbn [Py.lstrip_of] in Hh. cbn [colon_tail Re.match_at Re.greedy].
  destruct (Py.isspace c) eqn:Ews.
  - rewrite (isspace_in_class c Ews) in Hh. specialize (IH Hh).
    cbn [colon_tail Re.match_at] in IH. rewrite IH. cbn.
    now rewrite (class_not_colon c (isspace_in_class c Ews)).
  - cbn [fmap option_fmap option_map].
    destruct (native_label_class c) eqn:Ec.
    + now rewrite (class_not_colon c Ec).
    + cbn in Hh. destruct (c =? 58)%N eqn:E; [|reflexivity].
      apply N.eqb_eq in E. subst c. now contradiction Hh.
Qed.

(** [\s*:\s*] right at the colon. *)
Lemma colon_tail_at_colon (s : str) :
  Re.match_at colon_tail (58%N :: s)
  = Some [0; 1; length (run_of Py.isspace s)].
Proof.
  cbn [colon_tail Re.match_at Re.greedy].
  change (Py.isspace 58%N) with false. cbn [fmap option_fmap option_map].
  rewrite N.eqb_refl.
  pose proof (greedy_spaces_end s) as Hg. cbn [Re.match_at] in Hg.
  now rewrite Hg.
Qed.

(** The greedy group followed by [\s*:\s*]: it matches exactly when the
    class run is followed by a colon, and then takes the whole run. *)
Lemma greedy_class_colon (s : str) :
  Re.greedy native_label_class (Re.match_at colon_tail) s
  = match Py.lstrip_of native_label_class s with
    | c :: after =>
        if (c =? 58)%N
        then Some [length (run_of native_label_class s); 0; 1;
                   length (run_of Py.isspace after)]
        else None
    | [] => None
    end.
Proof.
  induction s as [|c s IH]; [reflexivity|].
  cbn [Re.greedy Py.lstrip_of run_of].
  destruct (native_label_class c) eqn:Ec.
  - rewrite IH.
    destruct (Py.lstrip_of native_label_class s) as [|d after] eqn:El.
    + rewrite colon_tail_none; [reflexivity|].
      cbn [Py.lstrip_of]. rewrite Ec, El. discriminate.
    + destruct (d =? 58)%N eqn:Ed; [reflexivity|].
      rewrite colon_tail_none; [reflexivity|].
      cbn [Py.lstrip_of]. rewrite Ec, El. cbn.
      intros [= ->]. discriminate.
  - destruct (c =? 58)%N eqn:E.
    + apply N.eqb_eq in E. subst c. now rewrite colon_tail_at_colon.
    + rewrite colon_tail_none; [reflexivity|].
      cbn [Py.lstrip_of]. rewrite Ec. cbn. intros [= ->]. discriminate.
Qed.

(** A match of the native pattern at the start of [s]. *)
Lemma native_match_at (s : str) :
  Re.match_at native_label_pattern s
  = match run_of native_label_class s, Py.lstrip_of native_label_class s with
    | _ :: _, c :: after =>
        if (c =? 58)%N
        then Some [length (run_of native_label_class s); 0; 1;
                   length (run_of Py.isspace after)]
        else None
    | _, _ => None
    end.
Proof.
  destruct s as [|x s]; [reflexivity|].
  change (Re.match_at native_label_pattern (x :: s))
    with (if native_label_class x
          then Re.bump (Re.greedy native_label_class
                          (Re.match_at colon_tail) s)
          else None).
  cbn [run_of Py.lstrip_of].
  destruct (native_label_class x) eqn:Ex; [|reflexivity].
  rewrite greedy_class_colon.
  destruct (Py.lstrip_of native_label_class s) as [|c after]; [reflexivity|].
  destruct (c =? 58)%N; reflexivity.
Qed.

Lemma label_field_width (pw : Q) (li : Rect) :
  (Qmin (x1 li + 2 + 150) (pw - 20) - (x1 li + 2)
   == Qmin 150 (pw - 22 - x1 li))%Q.
Proof.
  destruct (Q.min_spec (x1 li + 2 + 150) (pw - 20)) as [[? ->]|[? ->]];
    destruct (Q.min_spec 150 (pw - 22 - x1 li)) as [[? ->]|[? ->]]; lra.
Qed.

Lemma find_first (P : Rect -> bool) (pre post : list Rect) (li : Rect) :
  Forall (fun r => P r = false) pre -> P li = true ->
  List.find P (pre ++ li :: post) = Some li.
Proof.
  induction 1 as [|r pre Hr Hpre IH]; intros Hli; cbn.
  - now rewrite Hli.
  - rewrite Hr. now apply IH.
Qed.

Lemma find_none (P : Rect -> bool) (l : list Rect) :
  Forall (fun r => P r = false) l -> List.find P l = None.
Proof.
  induction 1 as [|r l Hr Hl IH]; cbn; [reflexivity|]. now rewrite Hr.
Qed.

Lemma find_first_iff (P : Rect -> bool) (l : list Rect) (li : Rect) :
  List.find P l = Some li
  <-> exists pre post, l = pre ++ li :: post
        /\ Forall (fun r => P r = false) pre /\ P li = true.
Proof.
  split.
  - induction l as [|a l IH]; cbn; [discriminate|].
    destruct (P a) eqn:E.
    + intros [= ->]. exists [], l. repeat split; [constructor|exact E].
    + intros Hf. destruct (IH Hf) as (pre & post & -> & Hpre & Hli).
      exists (a :: pre), post. repeat split; [|exact Hli].
      constructor; assumption.
  - intros (pre & post & -> & Hpre & Hli). now apply find_first.
Qed.

Lemma near_false (line : Line) (r : Rect) :
  Qltb (Qabs (y0 r - y0 (line_bbox line))) 5 = false
  <-> ~ (Qabs (y0 r - y0 (line_bbox line)) < 5)%Q.
Proof.
  rewrite <- Qltb_lt. destruct (Qltb _ 5); split; congruence.
Qed.

Lemma run_of_lstrip (p : char -> bool) (s : str) :
  run_of p s ++ Py.lstrip_of p s = s.
Proof.
  induction s as [|c s IH]; cbn; [reflexivity|].
  destruct (p c); cbn; [now rewrite IH|reflexivity].
Qed.

Lemma take_run_of (p : char -> bool) (s : str) :
  take (length (run_of p s)) s = run_of p s.
Proof.
  rewrite <- (run_of_lstrip p s) at 2. apply take_app_length.
Qed.

(** Passing over [k] characters is resuming the search [k] further. *)
Lemma finditer_go_skip (p : Re.pattern) (s : str) :
  forall k, Re.finditer_go p k s = Re.finditer_go p 0 (drop k s).
Proof.
  induction s as [|c s IH]; intros k; [now destruct k|].
  destruct k as [|k]; [reflexivity|]. cbn [Re.finditer_go drop]. apply IH.
Qed.

Lemma native_match_some (s after : str) :
  run_of native_label_class s ≠ [] ->
  Py.lstrip_of native_label_class s = 58%N :: after ->
  Re.match_at native_label_pattern s
  = Some [length (run_of native_label_class s); 0; 1;
          length (run_of Py.isspace after)].
Proof.
  intros Hr Hl. rewrite native_match_at, Hl.
  destruct (run_of native_label_class s); [contradiction|reflexivity].
Qed.

Lemma native_match_none (s : str) :
  head (Py.lstrip_of native_label_class s) ≠ Some 58%N ->
  Re.match_at native_label_pattern s = None.
Proof.
  intros Hh. rewrite native_match_at.
  destruct (run_of native_label_class s) as [|r run]; [reflexivity|].
  destruct (Py.lstrip_of native_label_class s) as [|d after]; [reflexivity|].
  destruct (d =? 58)%N eqn:E; [|reflexivity].
  apply N.eqb_eq in E. subst d. now contradiction Hh.
Qed.

(** The search passes over a character outside the class. *)
Lemma native_labels_other (c : char) (s : str) :
  native_label_class c = false ->
  native_labels (c :: s) = native_labels s.
Proof.
  intros Hc. unfold native_labels, Re.finditer. cbn [Re.finditer_go].
  rewrite native_match_at. cbn [run_of]. now rewrite Hc.
Qed.

(** A run of the class followed by a colon is a label; the search resumes
    after the colon and the white space behind it. *)
Lemma native_labels_label (s after : str) :
  run_of native_label_class s ≠ [] ->
  Py.lstrip_of native_label_class s = 58%N :: after ->
  native_labels s
  = run_of native_label_class s
    :: native_labels (Py.lstrip_of Py.isspace after).
Proof.
  intros Hr Hl. destruct s as [|c s']; [now contradiction Hr|].
  unfold native_labels, Re.finditer. cbn [Re.finditer_go].
  rewrite (native_match_some _ after Hr Hl). cbn [map]. f_equal.
  - unfold Re.group1. cbn [fst snd hd]. apply take_run_of.
  - rewrite finditer_go_skip. do 2 f_equal.
    pose proof (run_of_lstrip native_label_class (c :: s')) as Hs.
    rewrite Hl in Hs.
    pose proof (run_of_lstrip Py.isspace after) as Ha.
    remember (run_of Py.isspace after) as ws eqn:Ews.
    remember (Py.lstrip_of Py.isspace after) as rest eqn:Erest.
    clear Ews Erest Hl. subst after.
    destruct (run_of native_label_class (c :: s')) as [|r run];
      [now contradiction Hr|].
    cbn [app] in Hs. injection Hs as _ <-.
    cbn [sum_list sum_list_with length]. unfold id.
    replace (S (length run) + (0 + (1 + (length ws + 0))) - 1)
      with (length (run ++ 58%N :: ws))
      by (rewrite length_app; cbn [length]; lia).
    replace (run ++ 58%N :: ws ++ rest) with ((run ++ 58%N :: ws) ++ rest)
      by (now rewrite <- app_assoc).
    apply drop_app_length.
Qed.

(** A run of the class that no colon follows holds no label. *)
Lemma native_labels_run (s : str) :
  run_of native_label_class s ≠ [] ->
  head (Py.lstrip_of native_label_class s) ≠ Some 58%N ->
  native_labels s = native_labels (Py.lstrip_of native_label_class s).
Proof.
  induction s as [|c s IH]; intros Hr Hh; [now contradiction Hr|].
  cbn [run_of] in Hr.
  destruct (native_label_class c) eqn:Ec; [|now contradiction Hr].
  assert (native_labels (c :: s) = native_labels s) as ->.
  { unfold native_labels, Re.finditer. cbn [Re.finditer_go].
    now rewrite native_match_none. }
  cbn [Py.lstrip_of] in *. rewrite Ec in *.
  destruct s as [|d s']; [reflexivity|].
  destruct (native_label_class d) eqn:Ed.
  - apply IH; [|exact Hh]. cbn [run_of]. rewrite Ed. discriminate.
  - cbn [Py.lstrip_of]. now rewrite Ed.
Qed.

(** The field of lines 238 to 241 for the instance [li]. *)
Lemma label_field_at_elem (pw : Q) (li : Rect) (f : FieldDescriptor) :
  f ∈ label_field_at pw li
  <-> (20 < Qmin 150 (pw - 22 - x1 li))%Q
      /\ f = mkFD Text (mkRect (x1 li + 2) (y0 li)
                               (Qmin (x1 li + 2 + 150) (pw - 20)) (y1 li)).
Proof.
  unfold label_field_at. cbv zeta.
  pose proof (label_field_width pw li) as He.
  destruct (Qltb 20 _) eqn:E.
  - apply Qltb_lt in E. rewrite list_elem_of_singleton.
    split; [intros ->; split; [|reflexivity]|now intros [_ ->]].
    rewrite <- He. exact E.
  - split; [intros Hf; now apply elem_of_nil in Hf|].
    intros [Hw _]. rewrite <- He in Hw. apply Qltb_lt in Hw. congruence.
Qed.

(** C5, as the code has it.  The label class holds letters, white space,
    slashes, apostrophes, parentheses, '#' and '*', and no digit.  The
    labels of a line are found from left to right: a character outside
    the class is passed over; a run of the class, taken as long as it
    goes, is a label exactly when ':' follows it at once, and the search
    resumes behind the colon and its white space, or behind the run when
    no colon follows.  The fields of a page are those of its text blocks,
    line by line, the text of a line being its spans joined and stripped:
    for every label the stripped label with ':' is searched on the page,
    the first instance whose top is within 5 of the line's top is kept,
    the field starts 2 right of the label's right edge and its width is
    the lesser of 150 and (page width - 22 - label's right edge), the
    field being skipped when that width is at most 20. *)
Theorem native_label_locator_correct :
  (forall c, native_label_class c = true
      <-> Re.is_alpha c = true \/ Py.isspace c = true
          \/ c ∈ [47; 39; 40; 41; 35; 42]%N)
  /\ (forall c, (48 <= c <= 57)%N -> native_label_class c = false)
  /\ (native_labels [] = []
      /\ (forall c s, native_label_class c = false ->
            native_labels (c :: s) = native_labels s)
      /\ (forall s after,
            run_of native_label_class s ≠ [] ->
            Py.lstrip_of native_label_class s = 58%N :: after ->
            native_labels s
            = run_of native_label_class s
              :: native_labels (Py.lstrip_of Py.isspace after))
      /\ (forall s,
            run_of native_label_class s ≠ [] ->
            head (Py.lstrip_of native_label_class s) ≠ Some 58%N ->
            native_labels s
            = native_labels (Py.lstrip_of native_label_class s)))
  /\ (forall s, Re.match_at native_label_pattern s
        = match run_of native_label_class s,
                Py.lstrip_of native_label_class s with
          | _ :: _, c :: after =>
              if (c =? 58)%N
              then Some [length (run_of native_label_class s); 0; 1;
                         length (run_of Py.isspace after)]
              else None
          | _, _ => None
          end)
  /\ (forall page line label pre li post,
        page_search_for page (Py.strip label ++ u ":") = pre ++ li :: post ->
        Forall (fun r => ~ (Qabs (y0 r - y0 (line_bbox line)) < 5)%Q) pre ->
        (Qabs (y0 li - y0 (line_bbox line)) < 5)%Q ->
        label_fields_of page line label = label_field_at (page_width page) li)
  /\ (forall page line label,
        Forall (fun r => ~ (Qabs (y0 r - y0 (line_bbox line)) < 5)%Q)
          (page_search_for page (Py.strip label ++ u ":")) ->
        label_fields_of page line label = [])
  /\ (forall pw li,
        (20 < Qmin 150 (pw - 22 - x1 li))%Q ->
        exists fd, label_field_at pw li = [fd]
          /\ fd_kind fd = Text
          /\ x0 (fd_rect fd) = (x1 li + 2)%Q
          /\ y0 (fd_rect fd) = y0 li /\ y1 (fd_rect fd) = y1 li
          /\ (x1 (fd_rect fd) - x0 (fd_rect fd)
              == Qmin 150 (pw - 22 - x1 li))%Q)
  /\ (forall pw li,
        (Qmin 150 (pw - 22 - x1 li) <= 20)%Q -> label_field_at pw li = [])
  /\ (forall page f,
        f ∈ _find_label_fields page
        <-> exists block line label pre li post,
              block ∈ page_blocks page /\ block_type block = 0%Z
              /\ line ∈ block_lines block
              /\ label ∈ native_labels
                   (Py.strip (concat (map span_text (line_spans line))))
              /\ page_search_for page (Py.strip label ++ u ":")
                 = pre ++ li :: post
              /\ Forall (fun r => ~ (Qabs (y0 r - y0 (line_bbox line)) < 5)%Q)
                   pre
              /\ (Qabs (y0 li - y0 (line_bbox line)) < 5)%Q
              /\ (20 < Qmin 150 (page_width page - 22 - x1 li))%Q
              /\ f = mkFD Text
                       (mkRect (x1 li + 2) (y0 li)
                          (Qmin (x1 li + 2 + 150) (page_width page - 20))
                          (y1 li)))
  /\ (forall page block line,
        page_blocks page = [block] -> block_type block = 0%Z ->
        block_lines block = [line] ->
        _find_label_fields page
        = flat_map (label_fields_of page line)
            (native_labels
               (Py.strip (concat (map span_text (line_spans line))))))
  /\ native_labels (u "Name: Date:") = [u "Name"; u "Date"]
  /\ native_labels (u "Room 2: Tel / Fax :  x") = [u " Tel / Fax "]
  /\ _find_label_fields two_label_page
     = [mkFD Text (mkRect 42 10 192 20); mkFD Text (mkRect 132 12 282 20)].
Proof.
  split; [|split; [|split; [|split; [|split; [|split; [|split; [|split;
    [|split; [|split; [|split; [|split]]]]]]]]]]].
  - intros c. unfold native_label_class. rewrite !orb_true_iff.
    assert (Py.char_in (u "/'()#*") c = true
            <-> c ∈ [47; 39; 40; 41; 35; 42]%N) as ->; [|tauto].
    unfold Py.char_in. rewrite existsb_exists. split.
    + intros (x & Hx & He). apply N.eqb_eq in He. subst x.
      apply list_elem_of_In. exact Hx.
    + intros Hc. exists c. split; [|apply N.eqb_refl].
      apply list_elem_of_In in Hc. exact Hc.
  - intros c Hc.
    assert (c = 48 \/ c = 49 \/ c = 50 \/ c = 51 \/ c = 52 \/ c = 53
            \/ c = 54 \/ c = 55 \/ c = 56 \/ c = 57)%N as Hd by lia.
    repeat (destruct Hd as [->|Hd]; [reflexivity|]). now subst c.
  - split; [reflexivity|]. split; [exact native_labels_other|].
    split; [exact native_labels_label|exact native_labels_run].
  - apply native_match_at.
  - intros page line label pre li post Hs Hpre Hli. unfold label_fields_of.
    rewrite Hs, (find_first _ pre post li); [reflexivity| |].
    + eapply Forall_impl; [exact Hpre|]. cbn. intros r Hr.
      now apply near_false.
    + now apply Qltb_lt.
  - intros page line label Hall. unfold label_fields_of.
    rewrite find_none; [reflexivity|].
    eapply Forall_impl; [exact Hall|]. cbn. intros r Hr.
    now apply near_false.
  - intros pw li Hw. unfold label_field_at. cbv zeta.
    pose proof (label_field_width pw li) as He.
    assert (Qltb 20 (Qmin (x1 li + 2 + 150) (pw - 20) - (x1 li + 2)) = true)
      as -> by (apply Qltb_lt; rewrite He; exact Hw).
    eexists. split; [reflexivity|]. cbn. repeat split. exact He.
  - intros pw li Hw. unfold label_field_at. cbv zeta.
    pose proof (label_field_width pw li) as He.
    destruct (Qltb 20 _) eqn:E; [|reflexivity].
    apply Qltb_lt in E. rewrite He in E. lra.
  - intros page f. unfold _find_label_fields, _get_page_text_blocks. split.
    + intros Hf. apply list_elem_of_In, in_flat_map in Hf as (block & Hb & Hf).
      apply list_elem_of_In, list_elem_of_filter in Hb as [Ht Hb].
      apply in_flat_map in Hf as (line & Hl & Hf).
      apply in_flat_map in Hf as (label & Hlab & Hf).
      unfold label_fields_of in Hf.
      destruct (List.find _ _) as [li|] eqn:Efind; [|destruct Hf].
      apply find_first_iff in Efind as (pre & post & Hs & Hpre & Hli).
      apply list_elem_of_In, label_field_at_elem in Hf as [Hw ->].
      exists block, line, label, pre, li, post.
      split; [exact Hb|]. split; [exact Ht|].
      split; [now apply list_elem_of_In|].
      split; [now apply list_elem_of_In|]. split; [exact Hs|].
      split; [|split; [now apply Qltb_lt|split; [exact Hw|reflexivity]]].
      eapply Forall_impl; [exact Hpre|]. cbn. intros r Hr.
      now apply near_false.
    + intros (block & line & label & pre & li & post & Hb & Ht & Hl & Hlab
              & Hs & Hpre & Hli & Hw & ->).
      apply list_elem_of_In, in_flat_map. exists block. split.
      { apply list_elem_of_In, list_elem_of_filter. now split. }
      apply in_flat_map. exists line. split; [now apply list_elem_of_In|].
      apply in_flat_map. exists label. split; [now apply list_elem_of_In|].
      unfold label_fields_of. rewrite Hs, (find_first _ pre post li).
      * apply list_elem_of_In, label_field_at_elem. now split.
      * eapply Forall_impl; [exact Hpre|]. cbn. intros r Hr.
        now apply near_false.
      * now apply Qltb_lt.
  - intros page block line Hp Ht Hl.
    unfold _find_label_fields, _get_page_text_blocks. rewrite Hp.
    rewrite filter_cons_True, filter_nil by exact Ht.
    cbn [flat_map]. rewrite Hl. cbn [flat_map]. now rewrite !app_nil_r.
  - vm_compute. reflexivity.
  - vm_compute. reflexivity.
  - vm_compute. reflexivity.
Qed.

(** The theorem at the label "Name:" found at (10,10)-(100,20) on a page
    200 wide. *)
Lemma native_label_locator_correct_witness :
  (20 < Qmin 150 (200 - 22 - x1 (mkRect 10 10 100 20)))%Q
  /\ exists fd, label_field_at 200 (mkRect 10 10 100 20) = [fd]
       /\ (x1 (fd_rect fd) - x0 (fd_rect fd)
           == Qmin 150 (200 - 22 - x1 (mkRect 10 10 100 20)))%Q.
Proof.
  assert (20 < Qmin 150 (200 - 22 - x1 (mkRect 10 10 100 20)))%Q as Hw
    by (vm_compute; reflexivity).
  split; [exact Hw|].
  destruct (proj1 (proj2 (proj2 (proj2 (proj2 (proj2 (proj2
              native_label_locator_correct)))))) 200%Q (mkRect 10 10 100 20) Hw)
    as (fd & Hfd & _ & _ & _ & _ & He).
  exists fd. split; assumption.
Defined.

(** C5 as stated fails on the code.  The line "Room 2:" is a run of
    characters of the claimed class followed by ':', found again on the
    line itself, with a claimed width of 150, and yet yields no field; and
    the field for "Name:" ending at 100 on a page 200 wide is 78 wide and
    not the claimed 80. *)
Lemma native_label_locator_counterexample :
  (forallb claimed_label_class (u "Room 2") = true
   /\ (20 < claimed_label_width 600 60)%Q
   /\ _find_label_fields
        (one_line_page (u "Room 2:") (mkRect 10 10 60 20) 600) = [])
  /\ (_find_label_fields
        (one_line_page (u "Name:") (mkRect 10 10 100 20) 200)
      = [mkFD Text (mkRect 102 10 180 20)]
      /\ ~ (180 - 102 == claimed_label_width 200 100)%Q).
Proof.
  split; [split; [|split]|split].
  - vm_compute. reflexivity.
  - vm_compute. reflexivity.
  - vm_compute. reflexivity.
  - vm_compute. reflexivity.
  - vm_compute. discriminate.
Qed.

(* ===================================================================== *)
(** ** Properties of the deduplicator *)
(* ===================================================================== *)

Section DedupFacts.
Context {fz : FitzRect}.

Lemma is_dup_spec (unique : list FieldDescriptor) (f : FieldDescriptor) :
  is_dup unique f = true
  <-> exists r, r ∈ unique /\ fd_kind f = fd_kind r
                /\ intersects (fd_rect f) (fd_rect r) = true.
Proof.
  unfold is_dup. rewrite existsb_exists. split.
  - intros (r & Hr & Hb). apply andb_true_iff in Hb as [Hk Hi].
    apply bool_decide_eq_true in Hk. exists r.
    split; [now apply list_elem_of_In|]. auto.
  - intros (r & Hr & Hk & Hi). exists r.
    split; [now apply list_elem_of_In|].
    apply andb_true_iff. split; [now apply bool_decide_eq_true|exact Hi].
Qed.

Lemma dedup_snoc (fields : list FieldDescriptor) (f : FieldDescriptor) :
  dedup (fields ++ [f]) = dedup_step (dedup fields) f.
Proof. unfold dedup. now rewrite foldl_snoc. Qed.

Lemma dedup_step_positive (unique : list FieldDescriptor)
    (f g : FieldDescriptor) :
  (forall r, r ∈ unique ->
     (0 < width (fd_rect r))%Q /\ (0 < height (fd_rect r))%Q) ->
  g ∈ dedup_step unique f ->
  (0 < width (fd_rect g))%Q /\ (0 < height (fd_rect g))%Q.
Proof.
  intros Hu Hg. unfold dedup_step in Hg.
  destruct (Qle_bool (width (fd_rect f)) 0) eqn:Ew; [now apply Hu|].
  destruct (Qle_bool (height (fd_rect f)) 0) eqn:Eh; [now apply Hu|].
  cbn [orb] in Hg. destruct (is_dup unique f); [now apply Hu|].
  apply elem_of_app in Hg as [Hg|Hg]; [now apply Hu|].
  apply list_elem_of_singleton in Hg as ->. split; apply Qnot_le_lt.
  - intros Hle. apply Qle_bool_iff in Hle. congruence.
  - intros Hle. apply Qle_bool_iff in Hle. congruence.
Qed.

Lemma dedup_step_sublist (unique fields : list FieldDescriptor)
    (f : FieldDescriptor) :
  unique `sublist_of` fields ->
  dedup_step unique f `sublist_of` fields ++ [f].
Proof.
  intros Hs. unfold dedup_step.
  destruct (_ || _); [now apply sublist_inserts_r|].
  destruct (is_dup unique f); [now apply sublist_inserts_r|].
  now apply sublist_app.
Qed.

(** C7. The deduplicator excludes every rectangle of width or height at
    most 0; a descriptor of positive extent is retained exactly when no
    descriptor retained before it has the same kind and an intersecting
    rectangle; the retained descriptors keep the order of production; an
    overlapping checkbox and text field are both kept. *)
Theorem dedup_correct :
  (forall fields f,
      f ∈ dedup fields ->
      (0 < width (fd_rect f))%Q /\ (0 < height (fd_rect f))%Q)
  /\ (forall fields f,
        (width (fd_rect f) <= 0)%Q \/ (height (fd_rect f) <= 0)%Q ->
        dedup (fields ++ [f]) = dedup fields)
  /\ (forall fields f,
        (0 < width (fd_rect f))%Q -> (0 < height (fd_rect f))%Q ->
        (exists r, r ∈ dedup fields /\ fd_kind f = fd_kind r
                   /\ intersects (fd_rect f) (fd_rect r) = true) ->
        dedup (fields ++ [f]) = dedup fields)
  /\ (forall fields f,
        (0 < width (fd_rect f))%Q -> (0 < height (fd_rect f))%Q ->
        ~ (exists r, r ∈ dedup fields /\ fd_kind f = fd_kind r
                     /\ intersects (fd_rect f) (fd_rect r) = true) ->
        dedup (fields ++ [f]) = dedup fields ++ [f])
  /\ (forall fields, dedup fields `sublist_of` fields)
  /\ (forall cb tx,
        fd_kind cb = Checkbox -> fd_kind tx = Text ->
        (0 < width (fd_rect cb))%Q -> (0 < height (fd_rect cb))%Q ->
        (0 < width (fd_rect tx))%Q -> (0 < height (fd_rect tx))%Q ->
        dedup [cb; tx] = [cb; tx]).
Proof.
  assert (forall f, (0 < width (fd_rect f))%Q -> (0 < height (fd_rect f))%Q ->
            Qle_bool (width (fd_rect f)) 0 || Qle_bool (height (fd_rect f)) 0
            = false) as Hpos.
  { intros f Hw Hh. apply orb_false_iff.
    split; apply not_true_iff_false; intros Hle;
      apply Qle_bool_iff in Hle; lra. }
  repeat apply conj.
  - intros fields. induction fields as [|g fields IH] using rev_ind;
      intros f Hf.
    + cbn in Hf. now apply elem_of_nil in Hf.
    + rewrite dedup_snoc in Hf.
      now apply (dedup_step_positive (dedup fields) g f IH).
  - intros fields f Hd. rewrite dedup_snoc. unfold dedup_step.
    assert (Qle_bool (width (fd_rect f)) 0 || Qle_bool (height (fd_rect f)) 0
            = true) as ->; [|reflexivity].
    apply orb_true_iff. destruct Hd as [Hd|Hd]; [left|right];
      now apply Qle_bool_iff.
  - intros fields f Hw Hh Hd. rewrite dedup_snoc. unfold dedup_step.
    rewrite (Hpos f Hw Hh). apply is_dup_spec in Hd. now rewrite Hd.
  - intros fields f Hw Hh Hd. rewrite dedup_snoc. unfold dedup_step.
    rewrite (Hpos f Hw Hh).
    destruct (is_dup (dedup fields) f) eqn:E; [|reflexivity].
    apply is_dup_spec in E. contradiction.
  - intros fields. induction fields as [|g fields IH] using rev_ind.
    + reflexivity.
    + rewrite dedup_snoc. now apply dedup_step_sublist.
  - intros cb tx Hc Ht Hcw Hch Htw Hth.
    unfold dedup. cbn [foldl]. unfold dedup_step at 2.
    rewrite (Hpos cb Hcw Hch). cbn [is_dup existsb app].
    unfold dedup_step. rewrite (Hpos tx Htw Hth).
    cbn [is_dup existsb]. rewrite Hc, Ht.
    rewrite bool_decide_eq_false_2 by discriminate. reflexivity.
Qed.

End DedupFacts.

(** The theorem at a checkbox and a text field on the same rectangle. *)
Lemma dedup_correct_witness :
  let cb := mkFD Checkbox (mkRect 10 10 30 20) in
  let tx := mkFD Text (mkRect 10 10 30 20) in
  @intersects plain_rect (fd_rect cb) (fd_rect tx) = true
  /\ @dedup plain_rect [cb; tx] = [cb; tx].
Proof.
  intros cb tx. split; [vm_compute; reflexivity|].
  apply (proj2 (proj2 (proj2 (proj2 (proj2 (@dedup_correct plain_rect))))) cb tx);
    vm_compute; reflexivity.
Defined.

(* ===================================================================== *)
(** ** Properties of the orchestrator and of the conversion driver *)
(* ===================================================================== *)

Section OrchestratorFacts.
Context {rt : PyRuntime} {fz : FitzRect}.

(** The OCR pipeline finds nothing in an empty markup. *)
Lemma detect_fields_ocr_empty (page : Page) : _detect_fields_ocr page [] = [].
Proof. reflexivity. Qed.

Lemma page_md_of_first (page_num : nat) (pre post : list MistralPage)
    (mp : MistralPage) :
  Forall (fun p => mp_index p ≠ page_num) pre -> mp_index mp = page_num ->
  page_md_of page_num (pre ++ mp :: post) = mp_markdown mp.
Proof.
  intros Hpre Hmp. unfold page_md_of.
  induction Hpre as [|p pre Hp Hpre IH]; cbn.
  - apply Nat.eqb_eq in Hmp. now rewrite Hmp.
  - apply Nat.eqb_neq in Hp. now rewrite Hp.
Qed.

Lemma page_md_of_none (page_num : nat) (pages : list MistralPage) :
  Forall (fun p => mp_index p ≠ page_num) pages ->
  page_md_of page_num pages = [].
Proof.
  intros Hall. unfold page_md_of.
  induction Hall as [|p pages Hp Hall IH]; cbn; [reflexivity|].
  apply Nat.eqb_neq in Hp. now rewrite Hp.
Qed.

(** C1. For a page of the document, [detect_fields] runs one strategy.
    With at least one native text block it deduplicates the checkbox
    locations followed by the underscore fields, followed by the label
    fields only when there is no underscore field.  With no text block and
    OCR pages of which the first with the page's index is [mp], it
    deduplicates the fields of the OCR pipeline on [mp]'s markup.  With no
    text block and no OCR data, or no OCR page of that index, it yields
    no field. *)
Theorem detect_fields_strategy (doc : list Page) (page_num : nat)
    (page : Page) (mistral_pages : option (list MistralPage)) :
  doc !! page_num = Some page ->
  (0 < length (_get_page_text_blocks page) ->
     (_find_underscore_fields page ≠ [] ->
        detect_fields doc page_num mistral_pages
        = Some (dedup (map (mkFD Checkbox) (_find_checkbox_locations page)
                       ++ _find_underscore_fields page)))
     /\ (_find_underscore_fields page = [] ->
           detect_fields doc page_num mistral_pages
           = Some (dedup (map (mkFD Checkbox) (_find_checkbox_locations page)
                          ++ _find_label_fields page))))
  /\ (length (_get_page_text_blocks page) = 0 ->
        (forall pages pre mp post,
            mistral_pages = Some pages -> pages = pre ++ mp :: post ->
            Forall (fun p => mp_index p ≠ page_num) pre ->
            mp_index mp = page_num ->
            detect_fields doc page_num mistral_pages
            = Some (dedup (_detect_fields_ocr page (mp_markdown mp))))
        /\ (forall pages,
              mistral_pages = Some pages ->
              Forall (fun p => mp_index p ≠ page_num) pages ->
              detect_fields doc page_num mistral_pages = Some [])
        /\ (mistral_pages = None ->
              detect_fields doc page_num mistral_pages = Some [])).
Proof.
  intros Hpage. unfold detect_fields. rewrite Hpage. cbn [mbind option_bind].
  unfold candidate_fields. split.
  - intros Hb. apply Nat.ltb_lt in Hb. rewrite Hb. unfold native_fields.
    cbv zeta. split; intros Hu.
    + destruct (_find_underscore_fields page); [contradiction|reflexivity].
    + rewrite Hu. now rewrite app_nil_r.
  - intros Hb. rewrite Hb. cbn [Nat.ltb Nat.leb length]. repeat apply conj.
    + intros pages pre mp post -> -> Hpre Hmp. cbv zeta.
      rewrite (page_md_of_first _ _ _ _ Hpre Hmp).
      destruct (mp_markdown mp); [|reflexivity].
      now rewrite detect_fields_ocr_empty.
    + intros pages -> Hall. cbv zeta. now rewrite page_md_of_none.
    + intros ->. reflexivity.
Qed.

Lemma detect_fields_without_ocr (doc : list Page) (i : nat) (page : Page) :
  doc !! i = Some page ->
  detect_fields doc i None = Some (fields_without_ocr page).
Proof.
  intros Hp. unfold detect_fields, candidate_fields, fields_without_ocr.
  rewrite Hp. cbn [mbind option_bind].
  now destruct (0 <? length (_get_page_text_blocks page)).
Qed.

Lemma detect_fields_native (doc : list Page) (i : nat) (page : Page)
    (mistral_pages : option (list MistralPage)) :
  doc !! i = Some page -> 0 < length (_get_page_text_blocks page) ->
  detect_fields doc i mistral_pages = Some (dedup (native_fields page)).
Proof.
  intros Hp Hb. unfold detect_fields, candidate_fields.
  rewrite Hp. cbn [mbind option_bind].
  apply Nat.ltb_lt in Hb. now rewrite Hb.
Qed.

(** The loop over the pages ends and counts the fields of every page. *)
Lemma convert_pages_without_ocr (doc : list Page) (pages : list nat) :
  forall acc : nat * list (nat * Widget),
    Forall (fun i => i < length doc) pages ->
    exists r, convert_pages doc None pages acc = Some r
      /\ r.1 = acc.1
               + sum_list (map (fun i => match doc !! i with
                                         | Some page =>
                                             length (fields_without_ocr page)
                                         | None => 0
                                         end) pages)
      /\ length r.2 + acc.1 = r.1 + length acc.2.
Proof.
  induction pages as [|i pages IH]; intros acc Hall; cbn [convert_pages].
  - exists acc. cbn. split; [reflexivity|]. split; lia.
  - apply Forall_cons in Hall as [Hi Hall].
    apply lookup_lt_is_Some in Hi as [page Hp].
    rewrite (detect_fields_without_ocr doc i page Hp).
    cbn [mbind option_bind].
    destruct (IH (acc.1 + length (fields_without_ocr page),
                  acc.2 ++ imap (fun j field => (i, widget_of i j field))
                             (fields_without_ocr page)) Hall)
      as (r & Hr & Ht & Hw).
    exists r. split; [exact Hr|]. cbn [fst snd map sum_list] in *.
    rewrite Hp. unfold id at 1. rewrite length_app, length_imap in Hw.
    split; lia.
Qed.

Lemma sum_over_pages (f : Page -> nat) (pre doc : list Page) :
  sum_list (map (fun i => match (pre ++ doc) !! i with
                          | Some page => f page
                          | None => 0
                          end) (seq (length pre) (length doc)))
  = sum_list (map f doc).
Proof.
  revert pre. induction doc as [|page doc IH]; intros pre; [reflexivity|].
  cbn [length seq map sum_list].
  rewrite lookup_app_r, Nat.sub_diag by lia. cbn [lookup list_lookup].
  f_equal. specialize (IH (pre ++ [page])).
  rewrite <- app_assoc, length_app in IH. cbn [length app] in IH.
  rewrite Nat.add_1_r in IH. exact IH.
Qed.

(** C8. When the remote OCR call raises, [convert] still returns: it has
    printed the failure (the call is made only when some page has no
    native text), every page without native text yields no field, every
    page with native text yields the fields it yields with any OCR data,
    and the total is the number of widgets added. *)
Theorem convert_survives_ocr_failure (doc : list Page) (e : str) :
  exists r, convert doc (OcrRaised e) = Some r
    /\ printed r
       = (if needs_ocr doc then [u "Mistral OCR failed: " ++ e] else [])
    /\ total_fields r
       = sum_list (map (fun page => length (fields_without_ocr page)) doc)
    /\ length (widgets r) = total_fields r
    /\ (forall i page,
          doc !! i = Some page -> length (_get_page_text_blocks page) = 0 ->
          detect_fields doc i None = Some [])
    /\ (forall i page pages,
          doc !! i = Some page -> 0 < length (_get_page_text_blocks page) ->
          detect_fields doc i None = detect_fields doc i (Some pages)).
Proof.
  unfold convert.
  assert (request_ocr doc (OcrRaised e)
          = (None,
             if needs_ocr doc then [u "Mistral OCR failed: " ++ e] else [],
             needs_ocr doc)) as ->.
  { unfold request_ocr. now destruct (needs_ocr doc). }
  destruct (convert_pages_without_ocr doc (seq 0 (length doc)) (0, []))
    as (r & Hr & Ht & Hw).
  { apply Forall_forall. intros i Hi. apply elem_of_seq in Hi. lia. }
  rewrite Hr. cbn [mbind option_bind fst snd length] in *.
  eexists. split; [reflexivity|]. cbn [printed total_fields widgets].
  pose proof (sum_over_pages (fun page => length (fields_without_ocr page))
                [] doc) as Hs. cbn [app length] in Hs.
  rewrite Hs in Ht. repeat apply conj.
  - reflexivity.
  - lia.
  - lia.
  - intros i page Hp Hb. rewrite (detect_fields_without_ocr doc i page Hp).
    unfold fields_without_ocr. now rewrite Hb.
  - intros i page pages Hp Hb.
    now rewrite !(detect_fields_native doc i page _ Hp Hb).
Qed.

End OrchestratorFacts.

(** The first theorem on the scanned page with the markup
    "☐ Male ☐ Female": the OCR pipeline runs on the markup of the response
    page with the index of the page. *)
Lemma detect_fields_strategy_witness :
  [scanned_page] !! 0 = Some scanned_page
  /\ length (_get_page_text_blocks scanned_page) = 0
  /\ @detect_fields ascii_runtime plain_rect [scanned_page] 0
       (Some [mkMP 0 (u "☐ Male ☐ Female")])
     = Some (@dedup plain_rect
               (@_detect_fields_ocr ascii_runtime scanned_page
                  (u "☐ Male ☐ Female"))).
Proof.
  split; [reflexivity|]. split; [reflexivity|].
  exact (proj1 (proj2 (@detect_fields_strategy ascii_runtime plain_rect
                         [scanned_page] 0 scanned_page
                         (Some [mkMP 0 (u "☐ Male ☐ Female")]) eq_refl)
                  eq_refl)
           [mkMP 0 (u "☐ Male ☐ Female")] [] (mkMP 0 (u "☐ Male ☐ Female"))
           [] eq_refl eq_refl (List.Forall_nil _) eq_refl).
Defined.

(** The second theorem on the document made of the scanned page, when the
    remote call raises "timeout". *)
Lemma convert_survives_ocr_failure_witness :
  exists r,
    @convert ascii_runtime plain_rect [scanned_page] (OcrRaised (u "timeout"))
    = Some r
    /\ total_fields r = 0
    /\ printed r = [u "Mistral OCR failed: timeout"].
Proof.
  destruct (@convert_survives_ocr_failure ascii_runtime plain_rect
              [scanned_page] (u "timeout"))
    as (r & Hr & Hp & Ht & _).
  exists r. split; [exact Hr|]. split.
  - rewrite Ht. reflexivity.
  - rewrite Hp. vm_compute. reflexivity.
Defined.

(** Scenario B of the specification: the scanned page with the markup
    "☐ Male ☐ Female" yields two checkboxes, each left of its text. *)
Example detect_fields_scanned :
  @detect_fields ascii_runtime plain_rect [scanned_page] 0
    (Some [mkMP 0 (u "☐ Male ☐ Female")])
  = Some [mkFD Checkbox (mkRect 8 10 19 20);
          mkFD Checkbox (mkRect 58 10 69 20)].
Proof. vm_compute. reflexivity. Qed.

(* ===================================================================== *)
(** ** Properties of the checkbox extraction *)
(* ===================================================================== *)

Section StripFacts.

Local Abbreviation ws := Py.isspace.
Local Abbreviation lstrip := (Py.lstrip_of Py.isspace).
Local Abbreviation rstrip := (Py.rstrip_of Py.isspace).

Lemma rstrip_cons (c : char) (s : str) :
  rstrip (c :: s)
  = match rstrip s with
    | [] => if ws c then [] else [c]
    | r => c :: r
    end.
Proof. reflexivity. Qed.

Lemma rstrip_app (a b : str) :
  rstrip (a ++ b)
  = match rstrip b with [] => rstrip a | r => a ++ r end.
Proof.
  induction a as [|c a IH]; cbn [app].
  - now destruct (rstrip b).
  - rewrite !rstrip_cons, IH.
    destruct (rstrip b); [reflexivity|now destruct a].
Qed.

Lemma rstrip_nonspace (s : str) :
  Forall (fun c => ws c = false) s -> rstrip s = s.
Proof.
  induction 1 as [|c s Hc Hs IH]; [reflexivity|].
  rewrite rstrip_cons, IH, Hc. now destruct s.
Qed.

Lemma rstrip_cons_nonspace (c : char) (s : str) :
  ws c = false -> rstrip (c :: s) = c :: rstrip s.
Proof.
  intros Hc. rewrite rstrip_cons, Hc. now destruct (rstrip s).
Qed.

Lemma rstrip_idemp (s : str) : rstrip (rstrip s) = rstrip s.
Proof.
  induction s as [|c s IH]; [reflexivity|].
  rewrite rstrip_cons. destruct (rstrip s) as [|d r] eqn:E.
  - destruct (ws c) eqn:Ec; [reflexivity|].
    rewrite rstrip_cons. cbn. now rewrite Ec.
  - rewrite rstrip_cons, IH. reflexivity.
Qed.

Lemma rstrip_prefix (s : str) : exists w, s = rstrip s ++ w.
Proof.
  induction s as [|c s [w IH]]; [now exists []|].
  rewrite rstrip_cons. destruct (rstrip s) as [|d r] eqn:E.
  - destruct (ws c).
    + now exists (c :: s).
    + exists s. reflexivity.
  - exists w. cbn [app] in *. now rewrite <- IH.
Qed.

Lemma lstrip_head (s : str) :
  match lstrip s with
  | [] => True
  | c :: _ => ws c = false
  end.
Proof.
  induction s as [|c s IH]; cbn; [exact I|].
  destruct (ws c) eqn:E; [exact IH|exact E].
Qed.

Lemma lstrip_of_stripped (s : str) :
  match s with [] => True | c :: _ => ws c = false end -> lstrip s = s.
Proof. destruct s as [|c s]; cbn; [reflexivity|]. now intros ->. Qed.

Lemma lstrip_rstrip_lstrip (s : str) :
  lstrip (rstrip (lstrip s)) = rstrip (lstrip s).
Proof.
  pose proof (lstrip_head s) as Hh.
  destruct (lstrip s) as [|c t]; [reflexivity|].
  rewrite rstrip_cons_nonspace by exact Hh. cbn. now rewrite Hh.
Qed.

Lemma strip_idemp (s : str) : Py.strip (Py.strip s) = Py.strip s.
Proof.
  unfold Py.strip. now rewrite lstrip_rstrip_lstrip, rstrip_idemp.
Qed.

Lemma startswith_app (g s w : str) :
  Py.startswith g s = true -> Py.startswith g (s ++ w) = true.
Proof.
  revert s. induction g as [|a g IH]; intros s Hs; [now destruct s|].
  destruct s as [|b s]; [discriminate|]. cbn in *.
  apply andb_true_iff in Hs as [-> Hs]. now apply IH.
Qed.

Lemma startswith_rstrip (g s : str) :
  Forall (fun c => ws c = false) g ->
  Py.startswith g s = true -> Py.startswith g (rstrip s) = true.
Proof.
  intros Hg. revert s. induction Hg as [|a g Ha Hg IH]; intros s Hs.
  - now destruct (rstrip s).
  - destruct s as [|b s]; [discriminate|]. cbn [Py.startswith] in Hs.
    apply andb_true_iff in Hs as [Hab Hs]. specialize (IH s Hs).
    apply N.eqb_eq in Hab. subst b.
    rewrite rstrip_cons_nonspace by exact Ha. cbn [Py.startswith].
    now rewrite N.eqb_refl.
Qed.

Lemma startswith_of_rstrip (g s : str) :
  Py.startswith g (rstrip s) = true -> Py.startswith g s = true.
Proof.
  intros Hs. destruct (rstrip_prefix s) as [w Hw]. rewrite Hw.
  now apply startswith_app.
Qed.

End StripFacts.

Section GlyphFacts.

Local Abbreviation ws := Py.isspace.
Local Abbreviation lstrip := (Py.lstrip_of Py.isspace).
Local Abbreviation rstrip := (Py.rstrip_of Py.isspace).

Lemma before_any_nil (gs : list str) : before_any_glyph gs [] = [].
Proof. cbn. now destruct (existsb _ gs). Qed.

Lemma before_any_cons (gs : list str) (c : char) (s : str) :
  before_any_glyph gs (c :: s)
  = if existsb (fun g => Py.startswith g (c :: s)) gs then []
    else c :: before_any_glyph gs s.
Proof. reflexivity. Qed.

Lemma before_any_prefix (gs : list str) (s : str) :
  exists w, s = before_any_glyph gs s ++ w.
Proof.
  induction s as [|c s [w IH]].
  - exists []. now rewrite before_any_nil.
  - rewrite before_any_cons. destruct (existsb _ gs).
    + now exists (c :: s).
    + exists w. cbn [app]. now rewrite <- IH.
Qed.

(** [s.split(g)[0]] is the text before the next [g]. *)
Lemma before_one (g s : str) : Py.before g s = before_any_glyph [g] s.
Proof.
  unfold Py.before. induction s as [|c s IH].
  - rewrite before_any_nil. cbn. now destruct (Py.startswith g []).
  - rewrite before_any_cons. cbn [existsb Py.find]. rewrite orb_false_r.
    destruct (Py.startswith g (c :: s)); [reflexivity|].
    rewrite <- IH. now destruct (Py.find g s).
Qed.

Lemma before_one_absent (g s : str) :
  Py.contains g s = false -> before_any_glyph [g] s = s.
Proof.
  intros Hc. rewrite <- before_one. unfold Py.before, Py.contains in *.
  now destruct (Py.find g s).
Qed.

(** One round of the inner loop on a stripped text. *)
Lemma cut_at_stripped (g s : str) :
  Py.strip s = s -> cut_at g s = Py.strip (before_any_glyph [g] s).
Proof.
  intros Hs. unfold cut_at. destruct (Py.contains g s) eqn:E.
  - now rewrite before_one.
  - now rewrite before_one_absent, Hs.
Qed.

Lemma glyph_not_at_space (g : str) (c : char) (s : str) :
  glyph_ok [] g = true -> ws c = true -> Py.startswith g (c :: s) = false.
Proof.
  intros Hg Hc. unfold glyph_ok in Hg.
  destruct g as [|a g]; [discriminate|]. cbn in Hg |- *.
  rewrite andb_true_r in Hg. apply andb_true_iff in Hg as [Ha _].
  destruct (N.eqb_spec a c) as [->|]; [|reflexivity].
  rewrite Hc in Ha. discriminate.
Qed.

Lemma glyph_nonspace (gs : list str) (g : str) :
  glyph_ok gs g = true -> Forall (fun c => ws c = false) g.
Proof.
  intros Hg. unfold glyph_ok in Hg.
  apply andb_true_iff in Hg as [Hg _]. apply andb_true_iff in Hg as [_ Hg].
  apply Forall_forall. intros c Hc.
  rewrite forallb_forall in Hg. apply list_elem_of_In in Hc.
  specialize (Hg c Hc). now apply negb_true_iff in Hg.
Qed.

Lemma glyph_ok_nil (gs : list str) (g : str) :
  glyph_ok gs g = true -> glyph_ok [] g = true.
Proof.
  unfold glyph_ok. intros Hg. apply andb_true_iff in Hg as [-> _].
  reflexivity.
Qed.

Lemma before_one_lstrip (g s : str) :
  glyph_ok [] g = true ->
  before_any_glyph [g] (lstrip s) = lstrip (before_any_glyph [g] s).
Proof.
  intros Hg. induction s as [|c s IH]; cbn [Py.lstrip_of].
  - now rewrite before_any_nil.
  - rewrite before_any_cons. cbn [existsb]. rewrite orb_false_r.
    destruct (ws c) eqn:Ec.
    + rewrite (glyph_not_at_space g c s Hg Ec). cbn [Py.lstrip_of].
      now rewrite Ec.
    + rewrite before_any_cons. cbn [existsb]. rewrite orb_false_r.
      destruct (Py.startswith g (c :: s)); [reflexivity|].
      cbn [Py.lstrip_of]. now rewrite Ec.
Qed.

Lemma before_one_rstrip (g s : str) :
  glyph_ok [] g = true ->
  rstrip (before_any_glyph [g] (rstrip s))
  = rstrip (before_any_glyph [g] s).
Proof.
  intros Hg. pose proof (glyph_nonspace [] g Hg) as Hns.
  induction s as [|c s IH]; [reflexivity|].
  rewrite (before_any_cons [g] c s). cbn [existsb]. rewrite orb_false_r.
  destruct (Py.startswith g (c :: s)) eqn:Es.
  - pose proof (startswith_rstrip g (c :: s) Hns Es) as Hr.
    destruct (rstrip (c :: s)) as [|d r]; [now rewrite before_any_nil|].
    rewrite before_any_cons. cbn [existsb]. now rewrite Hr.
  - assert (Py.startswith g (rstrip (c :: s)) = false) as Hr.
    { destruct (Py.startswith g (rstrip (c :: s))) eqn:E; [|reflexivity].
      apply startswith_of_rstrip in E. congruence. }
    rewrite (rstrip_cons c (before_any_glyph [g] s)), <- IH.
    rewrite rstrip_cons in Hr |- *.
    destruct (rstrip s) as [|d r] eqn:Er.
    + rewrite before_any_nil. cbn [Py.rstrip_of].
      destruct (ws c) eqn:Ec; [now rewrite before_any_nil|].
      rewrite before_any_cons. cbn [existsb]. rewrite Hr, before_any_nil.
      cbn. now rewrite Ec.
    + rewrite before_any_cons. cbn [existsb]. rewrite Hr. cbn [orb].
      now rewrite rstrip_cons.
Qed.

(** Stripping before a cut does not change the stripped result. *)
Lemma before_one_strip (g s : str) :
  glyph_ok [] g = true ->
  Py.strip (before_any_glyph [g] (Py.strip s))
  = Py.strip (before_any_glyph [g] s).
Proof.
  intros Hg. unfold Py.strip.
  rewrite <- (before_one_lstrip g (rstrip (lstrip s)) Hg).
  rewrite lstrip_rstrip_lstrip, (before_one_rstrip g (lstrip s) Hg).
  now rewrite before_one_lstrip.
Qed.

(** A glyph that starts here still starts here once the text is cut at
    the glyphs of [gs], when none of them can begin inside it. *)
Lemma startswith_before_any (gs : list str) (g s : str) :
  Forall (fun g' => g' ≠ []) gs ->
  Forall (fun x => Forall (fun g' => head g' ≠ Some x) gs) g ->
  Py.startswith g s = true ->
  Py.startswith g (before_any_glyph gs s) = true.
Proof.
  intros Hne Hg. revert s.
  induction Hg as [|x g Hx Hg IH]; intros s Hs.
  - now destruct (before_any_glyph gs s).
  - destruct s as [|y s]; [discriminate|]. cbn [Py.startswith] in Hs.
    apply andb_true_iff in Hs as [Hxy Hs]. apply N.eqb_eq in Hxy. subst y.
    rewrite before_any_cons.
    assert (existsb (fun g' => Py.startswith g' (x :: s)) gs = false) as ->.
    { apply not_true_iff_false. intros He.
      apply existsb_exists in He as (g' & Hin & Hp).
      apply list_elem_of_In in Hin.
      rewrite Forall_forall in Hne, Hx.
      specialize (Hne g' Hin). specialize (Hx g' Hin).
      destruct g' as [|y g']; [contradiction|]. cbn in Hp, Hx.
      apply andb_true_iff in Hp as [Hy _]. apply N.eqb_eq in Hy.
      subst y. now apply Hx. }
    cbn [Py.startswith]. rewrite N.eqb_refl. now apply IH.
Qed.

Lemma startswith_of_before_any (gs : list str) (g s : str) :
  Py.startswith g (before_any_glyph gs s) = true ->
  Py.startswith g s = true.
Proof.
  intros Hs. destruct (before_any_prefix gs s) as [w Hw]. rewrite Hw.
  now apply startswith_app.
Qed.

Lemma glyph_ok_straddle (gs : list str) (g : str) :
  glyph_ok gs g = true ->
  Forall (fun x => Forall (fun g' => head g' ≠ Some x) gs) (tail g).
Proof.
  intros Hg. unfold glyph_ok in Hg. apply andb_true_iff in Hg as [_ Hg].
  rewrite forallb_forall in Hg.
  apply Forall_forall. intros x Hx. apply Forall_forall. intros g' Hg'.
  apply list_elem_of_In in Hg'. specialize (Hg g' Hg').
  unfold no_straddle in Hg. rewrite forallb_forall in Hg.
  apply list_elem_of_In in Hx. specialize (Hg x Hx).
  destruct g' as [|y g']; [discriminate|]. cbn.
  intros [= ->]. rewrite N.eqb_refl in Hg. discriminate.
Qed.

(** Cutting at [g] what was cut at the glyphs of [gs] is cutting at all
    of them. *)
Lemma before_any_step (gs : list str) (g s : str) :
  Forall (fun g' => g' ≠ []) gs -> glyph_ok gs g = true ->
  before_any_glyph [g] (before_any_glyph gs s) = before_any_glyph (g :: gs) s.
Proof.
  intros Hne Hg. pose proof (glyph_ok_straddle gs g Hg) as Hst.
  induction s as [|c s IH].
  - now rewrite !before_any_nil.
  - rewrite (before_any_cons gs), (before_any_cons (g :: gs)).
    cbn [existsb].
    destruct (existsb (fun g' => Py.startswith g' (c :: s)) gs) eqn:Ee.
    + rewrite orb_true_r. now rewrite before_any_nil.
    + rewrite orb_false_r, before_any_cons. cbn [existsb].
      rewrite orb_false_r, IH.
      assert (Py.startswith g (c :: before_any_glyph gs s)
              = Py.startswith g (c :: s)) as ->; [|reflexivity].
      destruct g as [|a g]; [reflexivity|]. cbn [Py.startswith tail] in *.
      destruct (a =? c)%N; [|reflexivity]. cbn [andb].
      destruct (Py.startswith g s) eqn:Es.
      * now apply startswith_before_any.
      * apply not_true_iff_false. intros Hb.
        apply startswith_of_before_any in Hb. congruence.
Qed.

Lemma before_any_ext (gs gs' : list str) (s : str) :
  (forall t, existsb (fun g => Py.startswith g t) gs
             = existsb (fun g => Py.startswith g t) gs') ->
  before_any_glyph gs s = before_any_glyph gs' s.
Proof.
  intros He. induction s as [|c s IH].
  - now rewrite !before_any_nil.
  - rewrite !before_any_cons, He, IH. reflexivity.
Qed.

Lemma glyph_ok_subset (all done : list str) (g : str) :
  (forall g', g' ∈ done -> g' ∈ all) ->
  glyph_ok all g = true -> glyph_ok done g = true.
Proof.
  intros Hsub Hg. unfold glyph_ok in *.
  apply andb_true_iff in Hg as [-> Hg]. cbn [andb].
  rewrite forallb_forall in Hg |- *. intros g' Hg'. apply Hg.
  apply list_elem_of_In, Hsub, list_elem_of_In, Hg'.
Qed.

(** The inner loop over the glyphs [todo], after the glyphs [done], all of
    them in the alphabet [all]. *)
Lemma cut_loop (all todo : list str) :
  forall (done : list str) (s : str),
    Forall (fun g' => g' ≠ []) done ->
    (forall g', g' ∈ done -> g' ∈ all) ->
    Forall (fun g => g ∈ all /\ glyph_ok all g = true) todo ->
    foldl (fun option other_cb => cut_at other_cb option)
          (Py.strip (before_any_glyph done s)) todo
    = Py.strip (before_any_glyph (rev todo ++ done) s).
Proof.
  induction todo as [|g todo IH]; intros done s Hne Hsub Hok; [reflexivity|].
  apply Forall_cons in Hok as [[Hin Hg] Hok]. cbn [foldl].
  pose proof (glyph_ok_subset all done g Hsub Hg) as Hgd.
  rewrite cut_at_stripped by apply strip_idemp.
  rewrite before_one_strip by exact (glyph_ok_nil _ _ Hgd).
  rewrite before_any_step by assumption.
  rewrite (IH (g :: done) s).
  - cbn [rev]. now rewrite <- app_assoc.
  - constructor; [|exact Hne]. unfold glyph_ok in Hgd.
    destruct g; discriminate.
  - intros g' Hg'. apply elem_of_cons in Hg' as [->|Hg']; auto.
  - exact Hok.
Qed.

(** The glyph alphabet of the source meets the conditions. *)
Lemma all_cb_ok :
  Forall (fun g => g ∈ ALL_CB /\ glyph_ok ALL_CB g = true) ALL_CB.
Proof.
  apply Forall_forall. intros g Hg. split; [exact Hg|].
  revert g Hg. apply Forall_forall.
  vm_compute. repeat constructor.
Qed.

(** The inner loop of the source trims the segment to the text before the
    next glyph of the alphabet. *)
Lemma cut_all_glyphs (part : str) :
  foldl (fun option other_cb => cut_at other_cb option) (Py.strip part) ALL_CB
  = Py.strip (before_any_glyph ALL_CB part).
Proof.
  pose proof (cut_loop ALL_CB ALL_CB [] part) as Hc.
  assert (before_any_glyph [] part = part) as He.
  { clear. induction part as [|c s IH]; [reflexivity|].
    rewrite before_any_cons. cbn [existsb]. now rewrite IH. }
  rewrite He, app_nil_r in Hc. rewrite Hc.
  - f_equal. apply before_any_ext. intros t.
    generalize (fun g => Py.startswith g t). intros f. clear.
    induction ALL_CB as [|g gs IH]; [reflexivity|]. cbn [rev existsb].
    rewrite existsb_app, IH. cbn [existsb].
    now rewrite orb_false_r, orb_comm.
  - constructor.
  - intros g' Hg'. now apply elem_of_nil in Hg'.
  - exact all_cb_ok.
Qed.

End GlyphFacts.

Section CollapseFacts.

Local Abbreviation ws := Py.isspace.
Local Abbreviation lstrip := (Py.lstrip_of Py.isspace).
Local Abbreviation rstrip := (Py.rstrip_of Py.isspace).

Lemma join_cons2 (sep p q : str) (rest : list str) :
  join sep (p :: q :: rest) = p ++ sep ++ join sep (q :: rest).
Proof. reflexivity. Qed.

(** The three states of the scan of [re.sub] followed by [strip], against
    the scan of [split]: inside a word, after a word, before any word. *)
Lemma collapse_scan (s : str) :
  (forall cur, cur ≠ [] -> Forall (fun c => ws c = false) cur ->
     rstrip (rev cur ++ Py.sub_spaces_go false s)
     = join [32%N] (Py.words_go cur s))
  /\ (forall word, rstrip word = word ->
        rstrip (word ++ 32%N :: Py.sub_spaces_go true s)
        = join [32%N] (word :: Py.words_go [] s))
  /\ (forall b, rstrip (lstrip (Py.sub_spaces_go b s))
                = join [32%N] (Py.words_go [] s)).
Proof.
  induction s as [|c s (IH1 & IH2 & IH3)].
  - repeat apply conj.
    + intros cur Hne Hns. cbn [Py.sub_spaces_go Py.words_go].
      rewrite app_nil_r. destruct cur as [|x cur]; [contradiction|].
      cbn [join]. apply rstrip_nonspace. now apply Forall_rev.
    + intros word Hw. cbn [Py.sub_spaces_go Py.words_go join].
      rewrite rstrip_app. exact Hw.
    + intros b. reflexivity.
  - destruct (ws c) eqn:Ec; repeat apply conj.
    + intros cur Hne Hns. cbn [Py.sub_spaces_go Py.words_go]. rewrite Ec.
      destruct cur as [|x cur]; [contradiction|].
      apply IH2. apply rstrip_nonspace. now apply Forall_rev.
    + intros word Hw. cbn [Py.sub_spaces_go Py.words_go]. rewrite Ec.
      now apply IH2.
    + intros b. cbn [Py.sub_spaces_go Py.words_go]. rewrite Ec.
      destruct b; cbn [Py.lstrip_of]; [apply IH3|].
      change (ws 32%N) with true. cbn iota. apply IH3.
    + intros cur Hne Hns. cbn [Py.sub_spaces_go Py.words_go]. rewrite Ec.
      specialize (IH1 (c :: cur)). cbn [rev] in IH1.
      rewrite <- app_assoc in IH1. apply IH1; [discriminate|].
      now constructor.
    + intros word Hw. cbn [Py.sub_spaces_go Py.words_go]. rewrite Ec.
      specialize (IH1 [c]). cbn [rev app] in IH1.
      rewrite rstrip_cons_nonspace in IH1 by exact Ec.
      assert (rstrip (32%N :: c :: Py.sub_spaces_go false s)
              = 32%N :: c :: rstrip (Py.sub_spaces_go false s)) as Hr.
      { rewrite rstrip_cons, rstrip_cons_nonspace by exact Ec.
        reflexivity. }
      rewrite rstrip_app, Hr.
      destruct (Py.words_go [c] s) as [|w l] eqn:Ew.
      * exfalso. cbn [join] in IH1.
        discriminate IH1; [discriminate|repeat constructor; exact Ec].
      * rewrite join_cons2. cbn [app]. f_equal. f_equal.
        apply IH1; [discriminate|repeat constructor; exact Ec].
    + intros b. cbn [Py.sub_spaces_go Py.words_go]. rewrite Ec.
      cbn [Py.lstrip_of]. rewrite Ec.
      apply (IH1 [c]); [discriminate|repeat constructor; exact Ec].
Qed.

(** [re.sub(r'\s+', ' ', s).strip()] is [' '.join(s.split())]. *)
Lemma collapse_is_join_split (s : str) :
  Py.strip (Py.sub_spaces s) = join (u " ") (Py.split_ws s).
Proof. apply (collapse_scan s). Qed.

Lemma words_lstrip (s : str) : Py.words_go [] (lstrip s) = Py.words_go [] s.
Proof.
  induction s as [|c s IH]; [reflexivity|]. cbn [Py.lstrip_of Py.words_go].
  destruct (ws c) eqn:Ec; [exact IH|].
  cbn [Py.words_go]. now rewrite Ec.
Qed.

Lemma words_rstrip (s : str) :
  forall cur, Py.words_go cur (rstrip s) = Py.words_go cur s.
Proof.
  induction s as [|c s IH]; intros cur; [reflexivity|].
  rewrite rstrip_cons. destruct (rstrip s) as [|d r] eqn:Er.
  - destruct (ws c) eqn:Ec.
    + cbn [Py.words_go]. rewrite Ec, <- (IH []). now destruct cur.
    + cbn [Py.words_go]. rewrite Ec, <- (IH (c :: cur)). reflexivity.
  - cbn [Py.words_go]. destruct (ws c).
    + rewrite <- (IH []). reflexivity.
    + rewrite <- (IH (c :: cur)). reflexivity.
Qed.

Lemma split_ws_strip (s : str) : Py.split_ws (Py.strip s) = Py.split_ws s.
Proof.
  unfold Py.split_ws, Py.strip. now rewrite words_rstrip, words_lstrip.
Qed.

(** The option text of the source is the option text of the
    specification. *)
Lemma clean_option_spec (part : str) : clean_option part = option_text part.
Proof.
  unfold clean_option, option_text.
  rewrite cut_all_glyphs, collapse_is_join_split. now rewrite split_ws_strip.
Qed.

End CollapseFacts.

Section SplitFacts.

Lemma split_go_skip (sep rest_sep s cur : str) :
  Py.split_go sep cur (length rest_sep) (rest_sep ++ s)
  = Py.split_go sep cur 0 s.
Proof.
  induction rest_sep as [|x r IH]; [reflexivity|].
  cbn [length app]. destruct s; cbn [Py.split_go]; exact IH.
Qed.

Lemma split_go_nonempty (sep : str) (s : str) :
  forall cur skip, Py.split_go sep cur skip s ≠ [].
Proof.
  induction s as [|c s IH]; intros cur skip; cbn [Py.split_go];
    [discriminate|].
  destruct skip; [|apply IH].
  destruct (Py.startswith sep (c :: s)); [discriminate|apply IH].
Qed.

Lemma startswith_decompose (g s : str) :
  Py.startswith g s = true -> exists t, s = g ++ t.
Proof.
  revert s. induction g as [|a g IH]; intros s Hs; [now exists s|].
  destruct s as [|b s]; [discriminate|]. cbn in Hs.
  apply andb_true_iff in Hs as [Hab Hs]. apply N.eqb_eq in Hab. subst b.
  destruct (IH s Hs) as [t ->]. now exists t.
Qed.

Lemma join_cons_nonempty (sep p : str) (rest : list str) :
  rest ≠ [] -> join sep (p :: rest) = p ++ sep ++ join sep rest.
Proof. destruct rest; [contradiction|reflexivity]. Qed.

(** Joining the pieces of [split] with the separator gives the text
    back: the text is cut at occurrences of the separator only. *)
Lemma join_split_go (sep : str) (n : nat) :
  sep ≠ [] ->
  forall s cur, length s <= n ->
    join sep (Py.split_go sep cur 0 s) = rev cur ++ s.
Proof.
  intros Hsep. induction n as [|n IH]; intros s cur Hn.
  - destruct s; [|cbn in Hn; lia]. cbn. now rewrite app_nil_r.
  - destruct s as [|c s]; [cbn; now rewrite app_nil_r|].
    cbn [Py.split_go]. cbn [length] in Hn.
    destruct (Py.startswith sep (c :: s)) eqn:Es.
    + destruct (startswith_decompose _ _ Es) as [t Ht].
      destruct sep as [|a sep]; [contradiction|].
      injection Ht as -> ->.
      match goal with
      | |- context [length ?l - 1] =>
          replace (length l - 1) with (length sep) by (cbn [length]; lia)
      end.
      rewrite split_go_skip.
      rewrite join_cons_nonempty by apply split_go_nonempty.
      rewrite (IH t []); [reflexivity|].
      rewrite length_app in Hn. lia.
    + rewrite (IH s (c :: cur)) by lia. cbn [rev].
      now rewrite <- app_assoc.
Qed.

Lemma join_split (sep s : str) : sep ≠ [] -> join sep (Py.split sep s) = s.
Proof.
  intros Hsep. unfold Py.split.
  now rewrite (join_split_go sep (length s) Hsep s []).
Qed.

End SplitFacts.

Section PatternFacts.

Lemma fmap_cons_none (n : nat) (r : option (list nat)) :
  r = None -> cons n <$> r = None.
Proof. now intros ->. Qed.

Lemma greedy_none (cls : char -> bool) (k : str -> option (list nat))
    (c : char) (s : str) :
  (forall t, c ∉ t -> k t = None) -> c ∉ s -> Re.greedy cls k s = None.
Proof.
  intros Hk. induction s as [|x s IH]; intros Hs; cbn [Re.greedy].
  - now rewrite Hk.
  - rewrite (Hk (x :: s) Hs). apply not_elem_of_cons in Hs as [_ Hs].
    rewrite (IH Hs). now destruct (cls x).
Qed.

Lemma lazy_none (cls : char -> bool) (k : str -> option (list nat))
    (c : char) (s : str) :
  (forall t, c ∉ t -> k t = None) -> c ∉ s -> Re.lazy cls k s = None.
Proof.
  intros Hk. induction s as [|x s IH]; intros Hs; cbn [Re.lazy].
  - now rewrite Hk.
  - rewrite (Hk (x :: s) Hs). apply not_elem_of_cons in Hs as [_ Hs].
    rewrite (IH Hs). now destruct (cls x).
Qed.

Lemma atom_is_lit (a : Re.atom) (c : char) :
  a = Re.Lit c \/ a ≠ Re.Lit c.
Proof.
  destruct a as [d| | | |]; try (right; discriminate).
  destruct (N.eq_dec d c) as [->|Hne]; [now left|right]. congruence.
Qed.

(** A pattern with the literal [c] matches no text without [c]. *)
Lemma match_at_needs_literal (c : char) (p : Re.pattern) :
  In (Re.Lit c) p -> forall s, c ∉ s -> Re.match_at p s = None.
Proof.
  induction p as [|a p IH]; intros Hin s Hs; [destruct Hin|].
  destruct (atom_is_lit a c) as [->|Hne].
  - cbn [Re.match_at]. destruct s as [|x s]; [reflexivity|].
    apply not_elem_of_cons in Hs as [Hx _].
    destruct (N.eqb_spec x c); [congruence|reflexivity].
  - destruct Hin as [->|Hin]; [contradiction|].
    specialize (IH Hin). cbn [Re.match_at].
    destruct a as [d|d|cls|cls|cls].
    + destruct s as [|x s]; [reflexivity|].
      apply not_elem_of_cons in Hs as [_ Hs].
      rewrite (IH s Hs). now destruct (x =? d)%N.
    + destruct s as [|x s]; [now rewrite IH|].
      rewrite (IH (x :: s) Hs). apply not_elem_of_cons in Hs as [_ Hs].
      rewrite (IH s Hs). now destruct (x =? d)%N.
    + now apply (greedy_none cls _ c).
    + destruct s as [|x s]; [reflexivity|].
      apply not_elem_of_cons in Hs as [_ Hs].
      rewrite (greedy_none cls _ c s IH Hs). now destruct (cls x).
    + destruct s as [|x s]; [reflexivity|].
      apply not_elem_of_cons in Hs as [_ Hs].
      rewrite (lazy_none cls _ c s IH Hs). now destruct (cls x).
Qed.

Lemma finditer_needs_literal (c : char) (p : Re.pattern) (s : str) :
  In (Re.Lit c) p -> c ∉ s -> forall skip, Re.finditer_go p skip s = [].
Proof.
  intros Hin. induction s as [|x s IH]; intros Hs skip; [reflexivity|].
  cbn [Re.finditer_go]. rewrite (match_at_needs_literal c p Hin _ Hs).
  apply not_elem_of_cons in Hs as [_ Hs]. destruct skip; now apply IH.
Qed.

(** A line without a colon holds no text label, whatever the runtime. *)
Lemma line_texts_no_colon (rt : PyRuntime) (line : str) :
  58%N ∉ line -> line_texts line = [].
Proof.
  intros Hl. unfold line_texts, Re.finditer.
  rewrite (finditer_needs_literal 58%N); [reflexivity| |exact Hl].
  cbn. auto.
Qed.

End PatternFacts.

Lemma checkbox_of_option_kept (option : str) :
  1 < length option < 60 ->
  checkbox_of_option option = [mkFC Checkbox (take 30 option)].
Proof.
  intros [H1 H2]. unfold checkbox_of_option.
  apply Nat.ltb_lt in H1 as E1. apply Nat.ltb_lt in H2 as E2.
  rewrite E1, E2. rewrite bool_decide_eq_true_2; [reflexivity|].
  destruct option; [cbn in H1; lia|discriminate].
Qed.

Lemma checkbox_of_option_dropped (option : str) :
  ~ (1 < length option < 60) -> checkbox_of_option option = [].
Proof.
  intros Hn. unfold checkbox_of_option.
  destruct (1 <? length option) eqn:E1;
    destruct (length option <? 60) eqn:E2;
    rewrite ?andb_false_r; try reflexivity.
  apply Nat.ltb_lt in E1, E2. lia.
Qed.

Lemma checkbox_of_option_label (option : str) (f : FieldCandidate) :
  f ∈ checkbox_of_option option ->
  fc_kind f = Checkbox /\ fc_label f = take 30 option
  /\ 1 < length option < 60.
Proof.
  intros Hf.
  destruct (decide (1 < length option < 60)) as [Hl|Hl].
  - rewrite checkbox_of_option_kept in Hf by exact Hl.
    apply list_elem_of_singleton in Hf as ->. auto.
  - rewrite checkbox_of_option_dropped in Hf by exact Hl.
    now apply elem_of_nil in Hf.
Qed.

(** C6. For a glyph that does not occur in the line nothing is extracted;
    for a glyph that occurs, the line is split at its occurrences and
    every segment after the first gives its option text: the text before
    the next occurrence of any checkbox glyph with its white space
    collapsed.  The option text becomes a Checkbox candidate exactly when
    its length is strictly between 1 and 60.  The line "☐ Yes ☐ No" gives
    exactly the two Checkbox candidates "Yes" and "No". *)
Theorem checkbox_extraction_correct :
  (forall line, line_checkboxes line = flat_map (checkboxes_for line) ALL_CB)
  /\ (forall line cb,
        Py.contains cb line = false -> checkboxes_for line cb = [])
  /\ (forall line cb,
        Py.contains cb line = true ->
        checkboxes_for line cb
        = flat_map (fun part => checkbox_of_option (option_text part))
                   (tail (Py.split cb line)))
  /\ (forall line cb, cb ≠ [] -> join cb (Py.split cb line) = line)
  /\ (forall part,
        clean_option part
        = join (u " ") (Py.split_ws (before_any_glyph ALL_CB part)))
  /\ (forall option,
        1 < length option < 60 ->
        checkbox_of_option option = [mkFC Checkbox (take 30 option)])
  /\ (forall option,
        ~ (1 < length option < 60) -> checkbox_of_option option = [])
  /\ line_checkboxes (u "☐ Yes ☐ No")
     = [mkFC Checkbox (u "Yes"); mkFC Checkbox (u "No")]
  /\ (forall rt : PyRuntime,
        _extract_form_fields_from_markdown (u "☐ Yes ☐ No")
        = [mkFC Checkbox (u "Yes"); mkFC Checkbox (u "No")]).
Proof.
  repeat apply conj.
  - reflexivity.
  - intros line cb Hc. unfold checkboxes_for. now rewrite Hc.
  - intros line cb Hc. unfold checkboxes_for. rewrite Hc.
    induction (tail (Py.split cb line)) as [|part parts IH]; [reflexivity|].
    cbn [flat_map]. now rewrite IH, clean_option_spec.
  - intros line cb Hcb. now apply join_split.
  - intros part. now rewrite clean_option_spec.
  - intros option Hl. now apply checkbox_of_option_kept.
  - intros option Hl. now apply checkbox_of_option_dropped.
  - vm_compute. reflexivity.
  - intros rt. unfold _extract_form_fields_from_markdown. cbv zeta.
    assert (Py.split newline (Py.replace_char 124%N newline (u "☐ Yes ☐ No"))
            = [u "☐ Yes ☐ No"]) as -> by (vm_compute; reflexivity).
    cbn [flat_map]. unfold line_fields. cbv zeta.
    assert (Py.strip (u "☐ Yes ☐ No") = u "☐ Yes ☐ No") as ->
      by (vm_compute; reflexivity).
    assert (bool_decide (u "☐ Yes ☐ No" = [])
            || Py.startswith (u "---") (u "☐ Yes ☐ No") = false) as ->
      by (vm_compute; reflexivity).
    rewrite line_texts_no_colon, !app_nil_r.
    + vm_compute. reflexivity.
    + vm_compute. intros Hin. apply list_elem_of_In in Hin.
      cbn in Hin. intuition discriminate.
Qed.

(** The theorem at the glyph "☐" in the line "☐ Yes ☐ No". *)
Lemma checkbox_extraction_correct_witness :
  Py.contains (u "☐") (u "☐ Yes ☐ No") = true
  /\ checkboxes_for (u "☐ Yes ☐ No") (u "☐")
     = flat_map (fun part => checkbox_of_option (option_text part))
                (tail (Py.split (u "☐") (u "☐ Yes ☐ No"))).
Proof.
  assert (Py.contains (u "☐") (u "☐ Yes ☐ No") = true) as Hc
    by (vm_compute; reflexivity).
  split; [exact Hc|].
  exact (proj1 (proj2 (proj2 checkbox_extraction_correct)) _ _ Hc).
Defined.

Section TruncationFacts.
Context {rt : PyRuntime}.

Lemma line_checkboxes_label (line : str) (f : FieldCandidate) :
  f ∈ line_checkboxes line ->
  fc_kind f = Checkbox
  /\ exists option, fc_label f = take 30 option /\ 1 < length option < 60.
Proof.
  intros Hf. apply list_elem_of_In in Hf. unfold line_checkboxes in Hf.
  apply in_flat_map in Hf as (cb & _ & Hf). unfold checkboxes_for in Hf.
  destruct (Py.contains cb line); [|destruct Hf].
  apply in_flat_map in Hf as (part & _ & Hf). apply list_elem_of_In in Hf.
  apply checkbox_of_option_label in Hf as (Hk & Hl & Hlen).
  split; [exact Hk|]. now exists (clean_option part).
Qed.

Lemma line_texts_kind (line : str) (f : FieldCandidate) :
  f ∈ line_texts line -> fc_kind f = Text.
Proof.
  intros Hf. apply list_elem_of_In in Hf. unfold line_texts in Hf.
  apply in_flat_map in Hf as (m & _ & Hf). unfold text_of_match in Hf.
  cbv zeta in Hf. destruct (_ && _); [|destruct Hf].
  destruct Hf as [<-|[]]. reflexivity.
Qed.

(** C10. The label of every Checkbox candidate of the markdown extractor
    has at most 30 characters: an option text of up to 59 characters
    passes the filter, and what is stored, and later given to the matcher,
    is its first 30 characters. *)
Theorem checkbox_label_truncated :
  (forall markdown_text f,
      f ∈ _extract_form_fields_from_markdown markdown_text ->
      fc_kind f = Checkbox ->
      length (fc_label f) <= 30
      /\ exists option, fc_label f = take 30 option
                        /\ 1 < length option < 60)
  /\ (forall option,
        30 <= length option < 60 ->
        exists c, checkbox_of_option option = [c]
          /\ fc_label c = take 30 option /\ length (fc_label c) = 30)
  /\ (forall pw ps used option,
        1 < length option < 60 ->
        exists c, checkbox_of_option option = [c]
          /\ ocr_bind pw ps used c
             = match _find_label_position (take 30 option) ps used with
               | Some (idx, tp) => Some (idx, [place_checkbox tp])
               | None => None
               end)
  /\ line_checkboxes (u "☐ " ++ replicate 59 97%N)
     = [mkFC Checkbox (replicate 30 97%N)].
Proof.
  repeat apply conj.
  - intros md f Hf Hk. apply list_elem_of_In in Hf.
    unfold _extract_form_fields_from_markdown in Hf. cbv zeta in Hf.
    apply in_flat_map in Hf as (line0 & _ & Hf). unfold line_fields in Hf.
    cbv zeta in Hf. destruct (_ || _); [destruct Hf|].
    apply in_app_or in Hf as [Hf|Hf]; apply list_elem_of_In in Hf.
    + apply line_checkboxes_label in Hf as (_ & option & Hl & Hlen).
      split; [|now exists option]. rewrite Hl, length_take. lia.
    + apply line_texts_kind in Hf. congruence.
  - intros option Hl. rewrite checkbox_of_option_kept by lia.
    eexists. split; [reflexivity|]. cbn [fc_label]. split; [reflexivity|].
    rewrite length_take. lia.
  - intros pw ps used option Hl. rewrite checkbox_of_option_kept by exact Hl.
    eexists. split; [reflexivity|]. reflexivity.
  - vm_compute. reflexivity.
Qed.

End TruncationFacts.

(** The theorem at the markup "☐ Yes ☐ No" and its candidate "Yes". *)
Lemma checkbox_label_truncated_witness :
  mkFC Checkbox (u "Yes")
    ∈ @_extract_form_fields_from_markdown ascii_runtime (u "☐ Yes ☐ No")
  /\ fc_kind (mkFC Checkbox (u "Yes")) = Checkbox
  /\ length (fc_label (mkFC Checkbox (u "Yes"))) <= 30.
Proof.
  assert (mkFC Checkbox (u "Yes")
            ∈ @_extract_form_fields_from_markdown ascii_runtime
                (u "☐ Yes ☐ No")) as Hin.
  { vm_compute. apply list_elem_of_here. }
  split; [exact Hin|]. split; [reflexivity|].
  exact (proj1 (proj1 (@checkbox_label_truncated ascii_runtime)
                  _ _ Hin eq_refl)).
Defined.

(* ===================================================================== *)
(** ** Further properties of the deduplicator and of [detect_fields] *)
(* ===================================================================== *)

Section DedupInvariant.
Context {fz : FitzRect}.

Lemma is_dup_false (unique : list FieldDescriptor) (f : FieldDescriptor) :
  is_dup unique f = false
  <-> forall r, r ∈ unique -> fd_kind f = fd_kind r ->
        intersects (fd_rect f) (fd_rect r) = false.
Proof.
  split.
  - intros Hd r Hr Hk.
    destruct (intersects (fd_rect f) (fd_rect r)) eqn:Ei; [|reflexivity].
    assert (is_dup unique f = true) as Ht; [|congruence].
    apply is_dup_spec. eauto.
  - intros Hall. apply not_true_iff_false. intros Hd.
    apply is_dup_spec in Hd as (r & Hr & Hk & Hi).
    rewrite (Hall r Hr Hk) in Hi. discriminate.
Qed.

Lemma separated_snoc (l : list FieldDescriptor) (f : FieldDescriptor) :
  separated (l ++ [f])
  <-> separated l /\ is_dup l f = false.
Proof.
  split.
  - intros Hs. split.
    + intros i j e g Hij Hi Hj Hk. apply (Hs i j e g Hij); [| |exact Hk].
      * now apply lookup_app_l_Some.
      * now apply lookup_app_l_Some.
    + apply is_dup_false. intros r Hr Hk.
      apply list_elem_of_lookup in Hr as [i Hi].
      apply (Hs i (length l) r f); [| | |exact Hk].
      * now apply lookup_lt_Some in Hi.
      * now apply lookup_app_l_Some.
      * rewrite lookup_app_r, Nat.sub_diag by lia. reflexivity.
  - intros [Hs Hd] i j e g Hij Hi Hj Hk.
    destruct (decide (j < length l)) as [Hjl|Hjl].
    + rewrite lookup_app_l in Hi, Hj by lia. now apply (Hs i j e g).
    + assert (j = length l) as ->.
      { apply lookup_lt_Some in Hj. rewrite length_app in Hj. cbn in Hj.
        lia. }
      rewrite lookup_app_r, Nat.sub_diag in Hj by lia. injection Hj as <-.
      rewrite lookup_app_l in Hi by lia.
      apply (proj1 (is_dup_false l f) Hd e); [|exact Hk].
      apply list_elem_of_lookup. eauto.
Qed.

Lemma all_positive_snoc (l : list FieldDescriptor) (f : FieldDescriptor) :
  all_positive (l ++ [f])
  <-> all_positive l
      /\ (0 < width (fd_rect f))%Q /\ (0 < height (fd_rect f))%Q.
Proof.
  unfold all_positive. split.
  - intros Ha. split; [|apply Ha; set_solver].
    intros g Hg. apply Ha. set_solver.
  - intros [Ha Hf] g Hg. apply elem_of_app in Hg as [Hg|Hg]; [now apply Ha|].
    apply list_elem_of_singleton in Hg as ->. exact Hf.
Qed.

Lemma positive_not_dropped (f : FieldDescriptor) :
  (0 < width (fd_rect f))%Q -> (0 < height (fd_rect f))%Q ->
  Qle_bool (width (fd_rect f)) 0 || Qle_bool (height (fd_rect f)) 0 = false.
Proof.
  intros Hw Hh. apply orb_false_iff.
  split; apply not_true_iff_false; intros Hle;
    apply Qle_bool_iff in Hle; lra.
Qed.

(** What the deduplicator returns holds only descriptors of positive
    extent, none of which intersects an earlier one of its kind. *)
Lemma dedup_invariant (fields : list FieldDescriptor) :
  all_positive (dedup fields) /\ separated (dedup fields).
Proof.
  induction fields as [|f fields [IHp IHs]] using rev_ind.
  - split.
    + intros f Hf. now apply elem_of_nil in Hf.
    + intros i j e f Hij Hi. discriminate.
  - rewrite dedup_snoc. unfold dedup_step.
    destruct (Qle_bool (width (fd_rect f)) 0) eqn:Ew; [now split|].
    destruct (Qle_bool (height (fd_rect f)) 0) eqn:Eh; [now split|].
    cbn [orb]. destruct (is_dup (dedup fields) f) eqn:Ed; [now split|].
    split.
    + apply all_positive_snoc. split; [exact IHp|].
      split; apply Qnot_le_lt; intros Hle; apply Qle_bool_iff in Hle;
        congruence.
    + apply separated_snoc. now split.
Qed.

(** A list with that invariant is left as it is. *)
Lemma dedup_fixed (l : list FieldDescriptor) :
  all_positive l -> separated l -> dedup l = l.
Proof.
  induction l as [|f l IH] using rev_ind; intros Hp Hs; [reflexivity|].
  apply all_positive_snoc in Hp as (Hp & Hw & Hh).
  apply separated_snoc in Hs as [Hs Hd].
  rewrite dedup_snoc, (IH Hp Hs). unfold dedup_step.
  now rewrite (positive_not_dropped f Hw Hh), Hd.
Qed.

End DedupInvariant.

Section DetectFieldsFacts.
Context {rt : PyRuntime} {fz : FitzRect}.

(** X1. The list that [detect_fields] returns for a page holds only
    descriptors of positive width and height, and no descriptor in it
    intersects an earlier descriptor of the same kind. *)
Theorem detect_fields_separated (doc : list Page) (page_num : nat)
    (mistral_pages : option (list MistralPage))
    (fields : list FieldDescriptor) :
  detect_fields doc page_num mistral_pages = Some fields ->
  all_positive fields /\ separated fields.
Proof.
  unfold detect_fields. intros Hd.
  destruct (doc !! page_num) as [page|]; [|discriminate].
  cbn in Hd. injection Hd as <-. apply dedup_invariant.
Qed.

(** X2. Deduplicating twice changes nothing: the deduplicator leaves its
    own result, and so the result of [detect_fields], as it is. *)
Theorem dedup_idempotent :
  (forall fields, dedup (dedup fields) = dedup fields)
  /\ (forall doc page_num mistral_pages fields,
        detect_fields doc page_num mistral_pages = Some fields ->
        dedup fields = fields).
Proof.
  split.
  - intros fields. destruct (dedup_invariant fields) as [Hp Hs].
    now apply dedup_fixed.
  - intros doc page_num mps fields Hd. unfold detect_fields in Hd.
    destruct (doc !! page_num) as [page|]; [|discriminate].
    cbn in Hd. injection Hd as <-.
    destruct (dedup_invariant (candidate_fields page page_num mps))
      as [Hp Hs].
    now apply dedup_fixed.
Qed.

End DetectFieldsFacts.

(** The first theorem on the scanned page of scenario B. *)
Lemma detect_fields_separated_witness :
  @detect_fields ascii_runtime plain_rect [scanned_page] 0
    (Some [mkMP 0 (u "☐ Male ☐ Female")])
  = Some [mkFD Checkbox (mkRect 8 10 19 20);
          mkFD Checkbox (mkRect 58 10 69 20)]
  /\ @separated plain_rect [mkFD Checkbox (mkRect 8 10 19 20);
                            mkFD Checkbox (mkRect 58 10 69 20)].
Proof.
  assert (@detect_fields ascii_runtime plain_rect [scanned_page] 0
            (Some [mkMP 0 (u "☐ Male ☐ Female")])
          = Some [mkFD Checkbox (mkRect 8 10 19 20);
                  mkFD Checkbox (mkRect 58 10 69 20)]) as Hd
    by (vm_compute; reflexivity).
  split; [exact Hd|].
  exact (proj2 (@detect_fields_separated ascii_runtime plain_rect _ _ _ _ Hd)).
Defined.

(** The second theorem on the same page. *)
Lemma dedup_idempotent_witness :
  @detect_fields ascii_runtime plain_rect [scanned_page] 0
    (Some [mkMP 0 (u "☐ Male ☐ Female")])
  = Some [mkFD Checkbox (mkRect 8 10 19 20);
          mkFD Checkbox (mkRect 58 10 69 20)]
  /\ @dedup plain_rect [mkFD Checkbox (mkRect 8 10 19 20);
                        mkFD Checkbox (mkRect 58 10 69 20)]
     = [mkFD Checkbox (mkRect 8 10 19 20);
        mkFD Checkbox (mkRect 58 10 69 20)].
Proof.
  assert (@detect_fields ascii_runtime plain_rect [scanned_page] 0
            (Some [mkMP 0 (u "☐ Male ☐ Female")])
          = Some [mkFD Checkbox (mkRect 8 10 19 20);
                  mkFD Checkbox (mkRect 58 10 69 20)]) as Hd
    by (vm_compute; reflexivity).
  split; [exact Hd|].
  exact (proj2 (@dedup_idempotent ascii_runtime plain_rect) _ _ _ _ Hd).
Defined.

(* ===================================================================== *)
(** ** Further properties of the native strategies *)
(* ===================================================================== *)

Lemma within_refl (r : Rect) : within r r.
Proof. unfold within. repeat split; apply Qle_refl. Qed.

Lemma within_trans (a b c : Rect) : within a b -> within b c -> within a c.
Proof. unfold within. intros (?&?&?&?) (?&?&?&?). repeat split; lra. Qed.

Lemma union_rect_left (m inst : Rect) : within (union_rect m inst) m.
Proof.
  unfold within, union_rect. cbn.
  repeat split; (apply Q.le_min_l || apply Q.le_max_l).
Qed.

Lemma union_rect_right (m inst : Rect) : within (union_rect m inst) inst.
Proof.
  unfold within, union_rect. cbn.
  repeat split; (apply Q.le_min_r || apply Q.le_max_r).
Qed.

Lemma merge_step_keeps (merged : list Rect) (inst r : Rect) :
  covered merged r -> covered (merge_step merged inst) r.
Proof.
  intros (m & Hm & Hw).
  destruct merged as [|a merged _] using rev_ind;
    [now apply elem_of_nil in Hm|].
  rewrite merge_step_snoc. destruct (merge_cond a inst).
  - apply elem_of_app in Hm as [Hm|Hm].
    + exists m. split; [set_solver|exact Hw].
    + apply list_elem_of_singleton in Hm as ->.
      exists (union_rect a inst). split; [set_solver|].
      eapply within_trans; [apply union_rect_left|exact Hw].
  - exists m. split; [set_solver|exact Hw].
Qed.

Lemma merge_step_covers (merged : list Rect) (inst : Rect) :
  covered (merge_step merged inst) inst.
Proof.
  destruct merged as [|a merged _] using rev_ind.
  - exists inst. split; [cbn; set_solver|apply within_refl].
  - rewrite merge_step_snoc. destruct (merge_cond a inst).
    + exists (union_rect a inst). split; [set_solver|].
      apply union_rect_right.
    + exists inst. split; [set_solver|apply within_refl].
Qed.

Lemma merge_step_length (merged : list Rect) (inst : Rect) :
  1 <= length (merge_step merged inst) <= S (length merged).
Proof.
  destruct merged as [|a merged _] using rev_ind; [cbn; lia|].
  rewrite merge_step_snoc.
  destruct (merge_cond a inst); rewrite !length_app; cbn; lia.
Qed.

Lemma merge_fold_covers (l : list Rect) :
  forall merged r, r ∈ l \/ covered merged r ->
    covered (foldl merge_step merged l) r.
Proof.
  induction l as [|inst l IH]; intros merged r Hr; cbn [foldl].
  - destruct Hr as [Hr|Hr]; [now apply elem_of_nil in Hr|exact Hr].
  - apply IH. destruct Hr as [Hr|Hr].
    + apply elem_of_cons in Hr as [->|Hr]; [right|now left].
      apply merge_step_covers.
    + right. now apply merge_step_keeps.
Qed.

Lemma merge_fold_length (l : list Rect) :
  forall merged,
    length (foldl merge_step merged l) <= length merged + length l
    /\ (l ≠ [] -> 1 <= length (foldl merge_step merged l)).
Proof.
  induction l as [|inst l IH]; intros merged; cbn [foldl length].
  - split; [lia|]. contradiction.
  - destruct (IH (merge_step merged inst)) as [IHl IHn].
    pose proof (merge_step_length merged inst) as Hs. split; [lia|].
    intros _. destruct l as [|b l]; [cbn; lia|]. apply IHn. discriminate.
Qed.

(** X3. Every run of underscores that the search finds lies within one of
    the fields of the underscore merger, and all those fields are Text
    fields. *)
Theorem underscore_fields_cover (page : Page) (inst : Rect) :
  inst ∈ page_search_for page (u "___") ->
  (exists f, f ∈ _find_underscore_fields page /\ within (fd_rect f) inst)
  /\ (forall f, f ∈ _find_underscore_fields page -> fd_kind f = Text).
Proof.
  intros Hin. unfold _find_underscore_fields. cbv zeta.
  destruct (page_search_for page (u "___")) as [|a l] eqn:Es;
    [now apply elem_of_nil in Hin|].
  rewrite <- Es in *. split.
  - destruct (merge_fold_covers (sorted (page_search_for page (u "___")))
                [] inst) as (m & Hm & Hw).
    { left. destruct (sorted_from [] (page_search_for page (u "___")))
        as [Hp _]; [constructor|].
      unfold sorted. rewrite Hp. exact Hin. }
    exists (underscore_field m). split.
    + apply list_elem_of_In, in_map, list_elem_of_In, Hm.
    + eapply within_trans; [|exact Hw]. unfold within, underscore_field.
      cbn. repeat split; lra.
  - intros f Hf. apply list_elem_of_In, in_map_iff in Hf as (m & <- & _).
    reflexivity.
Qed.

(** X4. When the search finds runs of underscores, the merger returns at
    least one field and at most one field for each run; it returns none
    only when the search finds nothing. *)
Theorem underscore_fields_count (page : Page) :
  (page_search_for page (u "___") ≠ [] ->
     1 <= length (_find_underscore_fields page)
       <= length (page_search_for page (u "___")))
  /\ (_find_underscore_fields page = []
      <-> page_search_for page (u "___") = []).
Proof.
  assert (page_search_for page (u "___") ≠ [] ->
          1 <= length (_find_underscore_fields page)
            <= length (page_search_for page (u "___"))) as Hc.
  { intros Hne. unfold _find_underscore_fields. cbv zeta.
    destruct (page_search_for page (u "___")) as [|a l] eqn:Es;
      [contradiction|].
    rewrite <- Es in *. rewrite length_map.
    destruct (sorted_from [] (page_search_for page (u "___")))
      as [Hp _]; [constructor|].
    fold (sorted (page_search_for page (u "___"))) in Hp.
    destruct (merge_fold_length (sorted (page_search_for page (u "___"))) [])
      as [Hl Hn].
    apply Permutation_length in Hp as Hlen. cbn [app length] in Hl, Hlen.
    split; [|lia]. apply Hn. intros He. rewrite He in Hlen.
    destruct (page_search_for page (u "___")); [contradiction|discriminate]. }
  split; [exact Hc|]. split.
  - intros He.
    destruct (page_search_for page (u "___")) as [|a l] eqn:Es;
      [reflexivity|].
    rewrite <- Es in Hc. specialize (Hc ltac:(rewrite Es; discriminate)).
    rewrite He in Hc. cbn in Hc. lia.
  - intros He. unfold _find_underscore_fields. now rewrite He.
Qed.

(** The third theorem on a page where the search finds two runs. *)
Lemma underscore_fields_cover_witness :
  let page :=
    mkPage [] (fun _ => [mkRect 54 101 90 111; mkRect 10 100 50 110]) 600 [] in
  mkRect 54 101 90 111 ∈ page_search_for page (u "___")
  /\ exists f, f ∈ _find_underscore_fields page
       /\ within (fd_rect f) (mkRect 54 101 90 111).
Proof.
  intros page.
  assert (mkRect 54 101 90 111 ∈ page_search_for page (u "___")) as Hin
    by apply list_elem_of_here.
  split; [exact Hin|].
  exact (proj1 (underscore_fields_cover page _ Hin)).
Defined.

(** The fourth theorem on the same page. *)
Lemma underscore_fields_count_witness :
  let page :=
    mkPage [] (fun _ => [mkRect 54 101 90 111; mkRect 10 100 50 110]) 600 [] in
  page_search_for page (u "___") ≠ []
  /\ 1 <= length (_find_underscore_fields page)
       <= length (page_search_for page (u "___")).
Proof.
  intros page.
  assert (page_search_for page (u "___") ≠ []) as Hne by discriminate.
  split; [exact Hne|].
  exact (proj1 (underscore_fields_count page) Hne).
Defined.

Lemma label_field_at_bounds (pw : Q) (li : Rect) (f : FieldDescriptor) :
  f ∈ label_field_at pw li ->
  fd_kind f = Text
  /\ x0 (fd_rect f) = (x1 li + 2)%Q
  /\ y0 (fd_rect f) = y0 li /\ y1 (fd_rect f) = y1 li
  /\ (20 < x1 (fd_rect f) - x0 (fd_rect f) <= 150)%Q
  /\ (x1 (fd_rect f) <= pw - 20)%Q.
Proof.
  unfold label_field_at. cbv zeta.
  destruct (Qltb 20 _) eqn:E; intros Hf; [|now apply elem_of_nil in Hf].
  apply list_elem_of_singleton in Hf as ->. apply Qltb_lt in E. cbn.
  repeat split; try exact E.
  - pose proof (Q.le_min_l (x1 li + 2 + 150) (pw - 20)). lra.
  - apply Q.le_min_r.
Qed.

(** X5. Every field of the native label locator is a Text field more than
    20 and at most 150 wide that starts 2 right of a hit of the search on
    the page, has the vertical span of that hit and ends at least 20
    before the right edge of the page. *)
Theorem label_fields_bounds (page : Page) (f : FieldDescriptor) :
  f ∈ _find_label_fields page ->
  fd_kind f = Text
  /\ (20 < x1 (fd_rect f) - x0 (fd_rect f) <= 150)%Q
  /\ (x1 (fd_rect f) <= page_width page - 20)%Q
  /\ exists needle li,
       li ∈ page_search_for page needle
       /\ x0 (fd_rect f) = (x1 li + 2)%Q
       /\ y0 (fd_rect f) = y0 li /\ y1 (fd_rect f) = y1 li.
Proof.
  intros Hf. apply list_elem_of_In in Hf. unfold _find_label_fields in Hf.
  apply in_flat_map in Hf as (block & _ & Hf).
  apply in_flat_map in Hf as (line & _ & Hf).
  apply in_flat_map in Hf as (label & _ & Hf).
  unfold label_fields_of in Hf.
  destruct (List.find _ _) as [li|] eqn:Efind; [|destruct Hf].
  apply find_some in Efind as [Hli _].
  apply list_elem_of_In, label_field_at_bounds in Hf
    as (Hk & Hx & Hy0 & Hy1 & Hw & Hr).
  repeat split; try assumption; try apply Hw.
  exists (Py.strip label ++ u ":"), li. repeat split; try assumption.
  now apply list_elem_of_In.
Qed.

(** The theorem on the page with the single line "Name:". *)
Lemma label_fields_bounds_witness :
  let page := one_line_page (u "Name:") (mkRect 10 10 100 20) 200 in
  mkFD Text (mkRect 102 10 180 20) ∈ _find_label_fields page
  /\ (x1 (fd_rect (mkFD Text (mkRect 102 10 180 20))) <= page_width page - 20)%Q.
Proof.
  intros page.
  assert (mkFD Text (mkRect 102 10 180 20) ∈ _find_label_fields page) as Hin.
  { vm_compute. apply list_elem_of_here. }
  split; [exact Hin|].
  exact (proj1 (proj2 (proj2 (label_fields_bounds page _ Hin)))).
Defined.

(* ===================================================================== *)
(** ** Further properties of the OCR field synthesizer *)
(* ===================================================================== *)

Section SynthesizerBounds.
Context {rt : PyRuntime}.

Lemma ocr_bindings_length (pw : Q) (ps : list TextPosition)
    (fis : list FieldCandidate) :
  forall used, length (ocr_bindings pw ps used fis) <= length fis.
Proof.
  induction fis as [|fi fis IH]; intros used; cbn [ocr_bindings length];
    [lia|].
  destruct (ocr_bind pw ps used fi) as [[idx new]|] eqn:Eb.
  - apply ocr_bind_new in Eb as (tp & fd & _ & -> & _).
    cbn [map app length]. specialize (IH ({[idx]} ∪ used)). lia.
  - specialize (IH used). lia.
Qed.

(** X6. The OCR pipeline never produces more fields than the page has OCR
    positions, nor more than the markup has candidates; a page on which
    the OCR engine reads nothing gets no field. *)
Theorem ocr_fields_count (page : Page) (page_markdown : str) :
  length (_detect_fields_ocr page page_markdown)
    <= length (page_ocr_positions page)
  /\ length (_detect_fields_ocr page page_markdown)
       <= length (_extract_form_fields_from_markdown page_markdown)
  /\ (page_ocr_positions page = [] ->
      _detect_fields_ocr page page_markdown = []).
Proof.
  set (ps := page_ocr_positions page).
  set (fis := _extract_form_fields_from_markdown page_markdown).
  set (bs := ocr_bindings (page_width page) ps ∅ fis).
  assert (_detect_fields_ocr page page_markdown = bs.*2) as Hf.
  { apply (ocr_loop_bindings _ _ _ ([], ∅)). }
  destruct (ocr_bindings_fresh (page_width page) ps fis ∅) as [Hnd Hin].
  fold bs in Hnd, Hin.
  assert (length bs <= length ps) as Hle.
  { assert (length bs.*1 <= length (seq 0 (length ps))) as Hs.
    { apply submseteq_length, NoDup_submseteq; [exact Hnd|].
      intros i Hi. apply Hin in Hi as [_ Hi].
      apply lookup_lt_is_Some in Hi. apply elem_of_seq. lia. }
    now rewrite length_fmap, length_seq in Hs. }
  rewrite Hf, length_fmap. split; [exact Hle|]. split.
  - apply ocr_bindings_length.
  - fold ps. intros He. rewrite He in Hle. cbn in Hle.
    destruct bs; [reflexivity|cbn in Hle; lia].
Qed.





(** X8. Every field of the OCR pipeline is anchored at an OCR position of
    the page: a checkbox is the 11 wide box that ends 1 left of the
    position, a text field starts 2 right of the position; both have the
    vertical span of the position. *)
Theorem ocr_fields_anchored (page : Page) (page_markdown : str)
    (f : FieldDescriptor) :
  f ∈ _detect_fields_ocr page page_markdown ->
  exists tp, tp ∈ page_ocr_positions page
    /\ y0 (fd_rect f) = y0 (tp_rect tp) /\ y1 (fd_rect f) = y1 (tp_rect tp)
    /\ ((fd_kind f = Checkbox
         /\ x0 (fd_rect f) = (x0 (tp_rect tp) - 12)%Q
         /\ x1 (fd_rect f) = (x0 (tp_rect tp) - 1)%Q)
        \/ (fd_kind f = Text
            /\ x0 (fd_rect f) = (x1 (tp_rect tp) + 2)%Q)).
Proof.
  unfold _detect_fields_ocr.
  set (ps := page_ocr_positions page).
  generalize (_extract_form_fields_from_markdown page_markdown).
  intros fis.
  assert (forall g, g ∈ (([] : list FieldDescriptor), (∅ : gset nat)).1 ->
            exists tp, tp ∈ ps
              /\ y0 (fd_rect g) = y0 (tp_rect tp)
              /\ y1 (fd_rect g) = y1 (tp_rect tp)
              /\ ((fd_kind g = Checkbox
                   /\ x0 (fd_rect g) = (x0 (tp_rect tp) - 12)%Q
                   /\ x1 (fd_rect g) = (x0 (tp_rect tp) - 1)%Q)
                  \/ (fd_kind g = Text
                      /\ x0 (fd_rect g) = (x1 (tp_rect tp) + 2)%Q))) as Hst.
  { intros g Hg. now apply elem_of_nil in Hg. }
  revert Hst. generalize (([] : list FieldDescriptor), (∅ : gset nat)).
  induction fis as [|fi fis IH]; intros st Hst Hf; [now apply Hst|].
  cbn [ocr_loop foldl] in Hf.
  apply (IH (ocr_step (page_width page) ps st fi)); [|exact Hf].
  intros g Hg. unfold ocr_step in Hg.
  destruct (ocr_bind (page_width page) ps st.2 fi) as [[idx new]|] eqn:Eb;
    [|now apply Hst].
  cbn [fst] in Hg. apply elem_of_app in Hg as [Hg|Hg]; [now apply Hst|].
  apply ocr_bind_new in Eb as (tp & fd & Hfind & -> & Hk & Hcb & Htx).
  apply list_elem_of_singleton in Hg as ->.
  apply find_label_position_unused in Hfind as [_ Hl].
  exists tp. split; [apply list_elem_of_lookup; eauto|].
  destruct (fc_kind fi) eqn:Ek.
  - rewrite (Hcb eq_refl). cbn. split; [reflexivity|].
    split; [reflexivity|]. left. auto.
  - specialize (Htx eq_refl). unfold place_text in Htx. cbv zeta in Htx.
    destruct (Qltb 15 _); [|discriminate]. injection Htx as <-. cbn.
    split; [reflexivity|]. split; [reflexivity|]. right. auto.
Qed.

End SynthesizerBounds.


(** The theorem on the first checkbox of the scanned page. *)
Lemma ocr_fields_anchored_witness :
  mkFD Checkbox (mkRect 8 10 19 20)
    ∈ @_detect_fields_ocr ascii_runtime scanned_page (u "☐ Male ☐ Female")
  /\ exists tp, tp ∈ page_ocr_positions scanned_page
       /\ y0 (fd_rect (mkFD Checkbox (mkRect 8 10 19 20))) = y0 (tp_rect tp).
Proof.
  assert (mkFD Checkbox (mkRect 8 10 19 20)
            ∈ @_detect_fields_ocr ascii_runtime scanned_page
                (u "☐ Male ☐ Female")) as Hin.
  { vm_compute. apply list_elem_of_here. }
  split; [exact Hin|].
  destruct (@ocr_fields_anchored ascii_runtime scanned_page _ _ Hin)
    as (tp & Htp & Hy & _).
  exists tp. split; assumption.
Defined.

(* ===================================================================== *)
(** ** Further properties of the fuzzy position matcher *)
(* ===================================================================== *)

Lemma rstrip_of_all (p : char -> bool) (t : str) :
  Forall (fun c => p c = true) t -> Py.rstrip_of p t = [].
Proof.
  induction 1 as [|c t Hc Ht IH]; [reflexivity|].
  cbn [Py.rstrip_of]. now rewrite IH, Hc.
Qed.

Lemma rstrip_of_app_all (p : char -> bool) (s t : str) :
  Forall (fun c => p c = true) t ->
  Py.rstrip_of p (s ++ t) = Py.rstrip_of p s.
Proof.
  intros Ht. induction s as [|c s IH]; cbn [app Py.rstrip_of].
  - now apply rstrip_of_all.
  - now rewrite IH.
Qed.

Lemma ratio_above (a b : nat) :
  0 < b -> 3 * b < 10 * a -> (3 # 10 < ratio a b)%Q.
Proof.
  intros Hb Hab. unfold ratio. apply Qlt_shift_div_l.
  - change 0%Q with (inject_Z 0). rewrite <- Zlt_Qlt. lia.
  - unfold Qlt, Qmult, inject_Z. cbn. lia.
Qed.

Section MatcherMore.
Context {rt : PyRuntime}.

(** X9. Trailing colons and asterisks of a label do not matter to the
    matcher: "Name", "Name:" and "Name*:" are matched alike. *)
Theorem find_label_position_suffix (label_text sfx : str)
    (ps : list TextPosition) (used : gset nat) :
  Forall (fun c => c = 58%N \/ c = 42%N) sfx ->
  _find_label_position (label_text ++ sfx) ps used
  = _find_label_position label_text ps used.
Proof.
  intros Hs. unfold _find_label_position.
  assert (label_clean_of (label_text ++ sfx) = label_clean_of label_text)
    as ->; [|reflexivity].
  unfold label_clean_of, Py.rstrip_chars. rewrite rstrip_of_app_all;
    [reflexivity|].
  eapply Forall_impl; [exact Hs|]. cbn. intros c [->| ->]; reflexivity.
Qed.

Lemma matcher_returns_iff (label_text : str)
    (ps : list TextPosition) (used : gset nat) :
  2 <= length (label_clean_of label_text) ->
  is_Some (_find_label_position label_text ps used)
  <-> exists i tp, ps !! i = Some tp /\ (i ∉ used)
        /\ (3 # 10 < Spec.score (label_clean_of label_text) tp)%Q.
Proof.
  intros Hlen. split.
  - intros [[i tp] Hf]. apply find_label_position_iff in Hf; [|exact Hlen].
    destruct Hf as (Hi & Hu & Hs & _). eauto.
  - intros (i & tp & Hi & Hu & Hs). unfold _find_label_position. cbv zeta.
    set (lc := label_clean_of label_text) in *.
    destruct (length lc <? 2) eqn:E; [apply Nat.ltb_lt in E; lia|].
    destruct (match_loop_spec lc used ps 0 (None, 0%Q) (Qle_refl 0))
      as (Hall & _ & Hres).
    cbv zeta in Hall, Hres. cbn [Nat.add] in Hall, Hres.
    specialize (Hall i tp Hi Hu).
    set (st' := match_loop lc used 0 ps (None, 0%Q)) in *.
    destruct Hres as [Hsame|(j & tpj & _ & _ & Hm & _)].
    + rewrite Hsame in Hall. cbn in Hall. lra.
    + rewrite Hm.
      assert (Qltb (3 # 10) st'.2 = true) as -> by (apply Qltb_lt; lra).
      eauto.
Qed.

(** X10. For a label of normalized length at least 2 the matcher returns
    a position exactly when some unused position scores above 0.3; with
    no position at all, or every position used, it returns none. *)
Theorem find_label_position_some (label_text : str)
    (ps : list TextPosition) (used : gset nat) :
  2 <= length (label_clean_of label_text) ->
  (is_Some (_find_label_position label_text ps used)
   <-> exists i tp, ps !! i = Some tp /\ (i ∉ used)
         /\ (3 # 10 < Spec.score (label_clean_of label_text) tp)%Q)
  /\ ((forall i, i < length ps -> i ∈ used) ->
      _find_label_position label_text ps used = None).
Proof.
  intros Hlen. split; [now apply matcher_returns_iff|].
  intros Hused.
  destruct (_find_label_position label_text ps used) as [m|] eqn:E;
    [|reflexivity].
  assert (is_Some (_find_label_position label_text ps used)) as Hs
    by (rewrite E; eauto).
  apply matcher_returns_iff in Hs as (i & tp & Hi & Hu & _); [|exact Hlen].
  exfalso. apply Hu, Hused. now apply lookup_lt_Some in Hi.
Qed.

(** X11. A label is never left unmatched while an unused position holds
    it: when the normalized label (of length at least 2) and the
    normalized text of an unused position contain one another and the
    text is less than 10/3 times as long as the label, the matcher
    returns a position. *)
Theorem find_label_position_substring (label_text : str)
    (ps : list TextPosition) (used : gset nat) (i : nat)
    (tp : TextPosition) :
  2 <= length (label_clean_of label_text) ->
  ps !! i = Some tp -> i ∉ used ->
  Py.contains (label_clean_of label_text) (ocr_clean_of tp)
  || Py.contains (ocr_clean_of tp) (label_clean_of label_text) = true ->
  3 * length (ocr_clean_of tp) < 10 * length (label_clean_of label_text) ->
  is_Some (_find_label_position label_text ps used).
Proof.
  intros Hlen Hi Hu Hc Hl. apply matcher_returns_iff; [exact Hlen|].
  exists i, tp. split; [exact Hi|]. split; [exact Hu|].
  unfold Spec.score.
  eapply Qlt_le_trans; [|apply Q.le_max_l].
  unfold Spec.substring_score. rewrite Hc. apply ratio_above; lia.
Qed.

Lemma try_score_texts (i : nat) (a b : TextPosition) (score : Q)
    (st st' : Best) :
  fst <$> st.1 = fst <$> st'.1 /\ st.2 = st'.2 ->
  fst <$> (try_score i a score st).1 = fst <$> (try_score i b score st').1
  /\ (try_score i a score st).2 = (try_score i b score st').2.
Proof.
  intros [H1 H2]. unfold try_score. rewrite H2.
  destruct (Qltb st'.2 score); cbn [fst snd]; auto.
Qed.

Lemma match_step_texts (lc : str) (used : gset nat) (i : nat)
    (a b : TextPosition) (st st' : Best) :
  tp_text a = tp_text b ->
  fst <$> st.1 = fst <$> st'.1 /\ st.2 = st'.2 ->
  fst <$> (match_step lc used i a st).1
  = fst <$> (match_step lc used i b st').1
  /\ (match_step lc used i a st).2 = (match_step lc used i b st').2.
Proof.
  intros Hab Hst. unfold match_step, ocr_clean_of. rewrite Hab.
  destruct (decide (i ∈ used)); [exact Hst|]. cbv zeta.
  destruct (_ && _); destruct (_ || _);
    repeat apply try_score_texts; exact Hst.
Qed.

Lemma match_loop_texts (lc : str) (used : gset nat)
    (ps ps' : list TextPosition) :
  Forall2 (fun a b => tp_text a = tp_text b) ps ps' ->
  forall i (st st' : Best),
    fst <$> st.1 = fst <$> st'.1 /\ st.2 = st'.2 ->
    fst <$> (match_loop lc used i ps st).1
    = fst <$> (match_loop lc used i ps' st').1
    /\ (match_loop lc used i ps st).2 = (match_loop lc used i ps' st').2.
Proof.
  induction 1 as [|a b ps ps' Hab Hps IH]; intros i st st' Hst;
    cbn [match_loop]; [exact Hst|].
  apply IH. now apply match_step_texts.
Qed.

(** X12. Which position the matcher chooses depends on the texts of the
    positions only: neither their rectangles nor their confidences are
    looked at. *)
Theorem find_label_position_texts (label_text : str)
    (ps ps' : list TextPosition) (used : gset nat) :
  Forall2 (fun a b => tp_text a = tp_text b) ps ps' ->
  fst <$> _find_label_position label_text ps used
  = fst <$> _find_label_position label_text ps' used.
Proof.
  intros Hps. unfold _find_label_position. cbv zeta.
  destruct (length (label_clean_of label_text) <? 2); [reflexivity|].
  destruct (match_loop_texts (label_clean_of label_text) used ps ps' Hps 0
              (None, 0%Q) (None, 0%Q) (conj eq_refl eq_refl)) as [H1 H2].
  rewrite <- H2.
  destruct (match_loop _ used 0 ps (None, 0%Q)).1 as [m|],
           (match_loop _ used 0 ps' (None, 0%Q)).1 as [m'|];
    cbn in H1; try discriminate; [|reflexivity].
  destruct (Qltb _ _); [exact H1|reflexivity].
Qed.

End MatcherMore.

(** The theorem at the labels "Name" and "Name*:". *)
Lemma find_label_position_suffix_witness :
  Forall (fun c => c = 58%N \/ c = 42%N) (u "*:")
  /\ @_find_label_position ascii_runtime (u "Name" ++ u "*:")
       [position "Name" 10 10 40 20] ∅
     = @_find_label_position ascii_runtime (u "Name")
         [position "Name" 10 10 40 20] ∅.
Proof.
  assert (Forall (fun c => c = 58%N \/ c = 42%N) (u "*:")) as Hs.
  { change (u "*:") with [42%N; 58%N].
    constructor; [now right|]. constructor; [now left|]. constructor. }
  split; [exact Hs|].
  exact (@find_label_position_suffix ascii_runtime _ _ _ _ Hs).
Defined.

(** The theorem at the label "Patient Name" and the text "Patient Name:". *)
Lemma find_label_position_some_witness :
  2 <= length (@label_clean_of ascii_runtime (u "Patient Name"))
  /\ (is_Some (@_find_label_position ascii_runtime (u "Patient Name")
                 [position "Patient Name:" 0 0 9 9] ∅)
      <-> exists i tp,
            [position "Patient Name:" 0 0 9 9] !! i = Some tp /\ (i ∉ (∅ : gset nat))
            /\ (3 # 10 < @Spec.score ascii_runtime
                           (@label_clean_of ascii_runtime (u "Patient Name"))
                           tp)%Q).
Proof.
  assert (2 <= length (@label_clean_of ascii_runtime (u "Patient Name")))
    as Hl by (vm_compute; lia).
  split; [exact Hl|].
  exact (proj1 (@find_label_position_some ascii_runtime _ _ _ Hl)).
Defined.

(** The theorem at the same label and text. *)
Lemma find_label_position_substring_witness :
  2 <= length (@label_clean_of ascii_runtime (u "Patient Name"))
  /\ is_Some (@_find_label_position ascii_runtime (u "Patient Name")
                [position "Patient Name:" 0 0 9 9] ∅).
Proof.
  assert (2 <= length (@label_clean_of ascii_runtime (u "Patient Name")))
    as Hl by (vm_compute; lia).
  split; [exact Hl|].
  apply (@find_label_position_substring ascii_runtime _
           [position "Patient Name:" 0 0 9 9] ∅ 0
           (position "Patient Name:" 0 0 9 9) Hl).
  - reflexivity.
  - apply not_elem_of_empty.
  - vm_compute. reflexivity.
  - vm_compute. lia.
Defined.

(** The theorem at two lists that differ in rectangle and confidence. *)
Lemma find_label_position_texts_witness :
  Forall2 (fun a b => tp_text a = tp_text b)
    [position "Name" 10 10 40 20] [mkTP (u "Name") (mkRect 0 0 1 1) 0]
  /\ fst <$> @_find_label_position ascii_runtime (u "Name")
               [position "Name" 10 10 40 20] ∅
     = fst <$> @_find_label_position ascii_runtime (u "Name")
                 [mkTP (u "Name") (mkRect 0 0 1 1) 0] ∅.
Proof.
  assert (Forall2 (fun a b => tp_text a = tp_text b)
            [position "Name" 10 10 40 20]
            [mkTP (u "Name") (mkRect 0 0 1 1) 0]) as Hf.
  { repeat constructor. }
  split; [exact Hf|].
  exact (@find_label_position_texts ascii_runtime _ _ _ _ Hf).
Defined.

(* ===================================================================== *)
(** ** Further properties of the conversion driver *)
(* ===================================================================== *)

Section ConvertFacts.
Context {rt : PyRuntime} {fz : FitzRect}.

(** The widgets that the loop of line 295 adds for the page numbers
    [pages]. *)
Lemma convert_pages_closed (doc : list Page)
    (mistral_pages : option (list MistralPage)) (pages : list nat) :
  forall acc : nat * list (nat * Widget),
    Forall (fun i => i < length doc) pages ->
    convert_pages doc mistral_pages pages acc
    = Some (acc.1 + length (flat_map (page_widgets doc mistral_pages) pages),
            acc.2 ++ flat_map (page_widgets doc mistral_pages) pages).
Proof.
  induction pages as [|i pages IH]; intros acc Hall; cbn [convert_pages].
  - cbn. rewrite Nat.add_0_r, app_nil_r. now destruct acc.
  - apply Forall_cons in Hall as [Hi Hall].
    assert (detect_fields doc i mistral_pages
            = Some (fields_at doc mistral_pages i)) as Hd.
    { unfold fields_at, detect_fields. apply lookup_lt_is_Some in Hi as [page Hp].
      now rewrite Hp. }
    rewrite Hd. cbn [mbind option_bind]. rewrite (IH _ Hall).
    cbn [fst snd flat_map].
    change (imap (fun j field => (i, widget_of i j field))
              (fields_at doc mistral_pages i))
      with (page_widgets doc mistral_pages i).
    rewrite length_app, <- app_assoc. f_equal. f_equal.
    assert (length (page_widgets doc mistral_pages i)
            = length (fields_at doc mistral_pages i)) as ->
      by apply length_imap.
    lia.
Qed.

Lemma needs_ocr_spec (doc : list Page) :
  needs_ocr doc = true
  <-> exists page, page ∈ doc /\ _get_page_text_blocks page = [].
Proof.
  unfold needs_ocr. rewrite existsb_exists. split.
  - intros (page & Hin & Hl). exists page.
    split; [now apply list_elem_of_In|].
    apply Nat.eqb_eq in Hl. now destruct (_get_page_text_blocks page).
  - intros (page & Hin & Hl). exists page.
    split; [now apply list_elem_of_In|]. now rewrite Hl.
Qed.

(** X13. Whenever [convert] returns, the count it returns is the number
    of widgets it added, which are, page after page, the fields that
    [detect_fields] gives for the page, in their order; and the remote
    service was called exactly when some page has no native text
    block. *)
Theorem convert_result (doc : list Page) (remote : OcrOutcome)
    (r : Conversion) :
  convert doc remote = Some r ->
  total_fields r = length (widgets r)
  /\ widgets r
     = flat_map (page_widgets doc (request_ocr doc remote).1.1)
                (seq 0 (length doc))
  /\ (ocr_called r = true
      <-> exists page, page ∈ doc /\ _get_page_text_blocks page = []).
Proof.
  unfold convert.
  destruct (request_ocr doc remote) as [[mps out] called] eqn:Er.
  rewrite (convert_pages_closed doc mps (seq 0 (length doc)) (0, [])).
  - cbn [mbind option_bind fst snd app Nat.add]. intros [= <-].
    cbn [total_fields widgets ocr_called].
    split; [reflexivity|]. split; [reflexivity|].
    rewrite <- needs_ocr_spec. unfold request_ocr in Er.
    destruct (needs_ocr doc); [destruct remote|]; injection Er as _ _ <-;
      split; congruence.
  - apply Forall_forall. intros i Hi. apply elem_of_seq in Hi. lia.
Qed.

(** X14. When every page of the document has native text, the remote
    service is not called, nothing is printed, and the result of
    [convert] does not depend on what the remote call would give. *)
Theorem convert_without_scanned_pages (doc : list Page)
    (remote remote' : OcrOutcome) :
  Forall (fun page => _get_page_text_blocks page ≠ []) doc ->
  convert doc remote = convert doc remote'
  /\ exists r, convert doc remote = Some r
       /\ ocr_called r = false /\ printed r = [].
Proof.
  intros Hall.
  assert (needs_ocr doc = false) as Hn.
  { apply not_true_iff_false. intros Ht.
    apply needs_ocr_spec in Ht as (page & Hin & He).
    rewrite Forall_forall in Hall. now apply (Hall page Hin). }
  assert (forall o, request_ocr doc o = (None, [], false)) as Hr.
  { intros o. unfold request_ocr. now rewrite Hn. }
  unfold convert. rewrite !Hr. split; [reflexivity|].
  rewrite (convert_pages_closed doc None (seq 0 (length doc)) (0, [])).
  - cbn [mbind option_bind]. eexists. split; [reflexivity|]. now split.
  - apply Forall_forall. intros i Hi. apply elem_of_seq in Hi. lia.
Qed.

End ConvertFacts.

Section WidgetNames.

Lemma pretty_char_digit (d : N) : is_digit (Utf8.byte (pretty_N_char d)).
Proof.
  unfold pretty_N_char, is_digit. repeat case_match; vm_compute;
    split; discriminate.
Qed.

Lemma pretty_go_digits (x : N) :
  forall s : String.string,
    Forall is_digit (map Utf8.byte (String.list_ascii_of_string s)) ->
    Forall is_digit
      (map Utf8.byte (String.list_ascii_of_string (pretty_N_go x s))).
Proof.
  induction (N.lt_wf_0 x) as [x _ IH]; intros s Hs.
  assert (x = 0 \/ 0 < x)%N as [->|Hx] by lia.
  - now rewrite pretty_N_go_0.
  - rewrite pretty_N_go_step by exact Hx. apply IH.
    + now apply N.div_lt.
    + cbn. constructor; [apply pretty_char_digit|exact Hs].
Qed.

Lemma decimal_digits (n : nat) : Forall is_digit (decimal n).
Proof.
  unfold decimal, pretty, pretty_nat, pretty, pretty_N.
  destruct (decide (N.of_nat n = 0%N)).
  - repeat constructor; vm_compute; discriminate.
  - apply pretty_go_digits. constructor.
Qed.

Lemma decimal_inj (n m : nat) : decimal n = decimal m -> n = m.
Proof.
  unfold decimal. intros He. apply (inj pretty).
  rewrite <- (String.string_of_list_ascii_of_string (pretty n)),
          <- (String.string_of_list_ascii_of_string (pretty m)).
  f_equal. revert He.
  generalize (String.list_ascii_of_string (pretty n)),
             (String.list_ascii_of_string (pretty m)).
  intros l. induction l as [|a l IH]; intros [|b k] He;
    try discriminate; [reflexivity|].
  cbn in He. injection He as Hab He. f_equal; [|now apply IH].
  unfold Utf8.byte in Hab.
  rewrite <- (Ascii.ascii_N_embedding a), <- (Ascii.ascii_N_embedding b).
  now rewrite Hab.
Qed.

(** Two texts that agree up to the first [x] of each agree before it and
    after it. *)
Lemma split_at_first (x : char) (a a' r r' : str) :
  x ∉ a -> x ∉ a' -> a ++ x :: r = a' ++ x :: r' -> a = a' /\ r = r'.
Proof.
  revert a'. induction a as [|c a IH]; intros [|c' a'] Ha Ha' He;
    cbn in He.
  - injection He as ->. now split.
  - injection He as -> _. exfalso. apply Ha'. apply list_elem_of_here.
  - injection He as -> _. exfalso. apply Ha. apply list_elem_of_here.
  - injection He as -> He. apply not_elem_of_cons in Ha as [_ Ha].
    apply not_elem_of_cons in Ha' as [_ Ha'].
    destruct (IH a' Ha Ha' He) as [-> ->]. now split.
Qed.

(** The name [f"page{i+1}_field{j+1}"] of line 301. *)
Lemma widget_name_inj (i j i' j' : nat) :
  u "page" ++ decimal (i + 1) ++ u "_field" ++ decimal (j + 1)
  = u "page" ++ decimal (i' + 1) ++ u "_field" ++ decimal (j' + 1) ->
  i = i' /\ j = j'.
Proof.
  intros He. apply app_inv_head in He.
  change (u "_field") with (95%N :: u "field") in He.
  cbn [app] in He.
  assert (forall n, 95%N ∉ decimal n) as Hd.
  { intros n Hin. pose proof (decimal_digits n) as Hf.
    rewrite Forall_forall in Hf. specialize (Hf _ Hin).
    unfold is_digit in Hf. lia. }
  apply split_at_first in He as [Hi Hj]; [|apply Hd|apply Hd].
  apply app_inv_head in Hj. apply decimal_inj in Hi, Hj. lia.
Qed.

End WidgetNames.

Section WidgetNamesUnique.
Context {rt : PyRuntime} {fz : FitzRect}.

Lemma page_widgets_names (doc : list Page)
    (mps : option (list MistralPage)) (i : nat) (name : str) :
  name ∈ map (fun w : nat * Widget => widget_field_name w.2)
             (page_widgets doc mps i)
  -> exists j, name = u "page" ++ decimal (i + 1) ++ u "_field"
                      ++ decimal (j + 1).
Proof.
  intros Hin. apply list_elem_of_In, in_map_iff in Hin as ([k w] & <- & Hw).
  apply list_elem_of_In in Hw. unfold page_widgets in Hw.
  apply elem_of_lookup_imap in Hw as (j & f & [= -> ->] & _).
  now exists j.
Qed.

Lemma page_widgets_NoDup (doc : list Page)
    (mps : option (list MistralPage)) (i : nat) :
  NoDup (map (fun w : nat * Widget => widget_field_name w.2)
             (page_widgets doc mps i)).
Proof.
  unfold page_widgets.
  change (map (fun w : nat * Widget => widget_field_name w.2))
    with (fmap (M := list) (fun w : nat * Widget => widget_field_name w.2)).
  rewrite fmap_imap.
  rewrite (imap_ext _ (fun j _ => u "page" ++ decimal (i + 1) ++ u "_field"
                                  ++ decimal (j + 1)))
    by reflexivity.
  rewrite imap_seq_0. apply NoDup_fmap_2; [|apply NoDup_seq].
  intros j j' He. now apply widget_name_inj in He as [_ ->].
Qed.

Lemma all_widgets_NoDup (doc : list Page)
    (mps : option (list MistralPage)) (pages : list nat) :
  NoDup pages ->
  NoDup (map (fun w : nat * Widget => widget_field_name w.2)
             (flat_map (page_widgets doc mps) pages)).
Proof.
  induction 1 as [|i pages Hi Hnd IH]; cbn [flat_map map]; [constructor|].
  rewrite map_app. apply NoDup_app. split; [apply page_widgets_NoDup|].
  split; [|exact IH].
  intros name Hn Hrest. apply page_widgets_names in Hn as [j ->].
  apply list_elem_of_In, in_map_iff in Hrest as (w & Hw & Hin).
  apply in_flat_map in Hin as (i' & Hi' & Hin).
  assert (widget_field_name w.2
            ∈ map (fun w : nat * Widget => widget_field_name w.2)
                  (page_widgets doc mps i')) as Hn'.
  { apply list_elem_of_In.
    exact (in_map (fun w : nat * Widget => widget_field_name w.2) _ _ Hin). }
  apply page_widgets_names in Hn' as [j' Hj']. rewrite Hj' in Hw.
  apply widget_name_inj in Hw as [-> _]. apply Hi.
  now apply list_elem_of_In.
Qed.

(** X15. The widgets that [convert] adds to a document have pairwise
    different field names. *)
Theorem widget_names_unique (doc : list Page) (remote : OcrOutcome)
    (r : Conversion) :
  convert doc remote = Some r ->
  NoDup (map (fun w : nat * Widget => widget_field_name w.2) (widgets r)).
Proof.
  intros Hc. unfold convert in Hc.
  destruct (request_ocr doc remote) as [[mps out] called].
  rewrite (convert_pages_closed doc mps (seq 0 (length doc)) (0, [])) in Hc.
  - cbn in Hc. injection Hc as <-. cbn [widgets].
    apply all_widgets_NoDup, NoDup_seq.
  - apply Forall_forall. intros i Hi. apply elem_of_seq in Hi. lia.
Qed.

End WidgetNamesUnique.

(* ===================================================================== *)
(** ** Properties of the positions of the local OCR engine *)
(* ===================================================================== *)

Lemma position_of_result_some (sx sy : Q) (r : OcrResult)
    (tp : TextPosition) :
  position_of_result sx sy r = Some tp
  <-> exists a b c d, corners r a b c d
        /\ tp = mkTP (ocr_text r)
                     (mkRect (a * sx) (b * sy) (c * sx) (d * sy))
                     (ocr_conf r).
Proof.
  unfold position_of_result, corners. split.
  - intros Hp.
    destruct (ocr_bbox r !! 0) as [p0|] eqn:E0; [|discriminate]. cbn in Hp.
    destruct (p0 !! 0) as [a|] eqn:Ea; [|discriminate]. cbn in Hp.
    destruct (p0 !! 1) as [b|] eqn:Eb; [|discriminate]. cbn in Hp.
    destruct (ocr_bbox r !! 2) as [p2|] eqn:E2; [|discriminate]. cbn in Hp.
    destruct (p2 !! 0) as [c|] eqn:Ec; [|discriminate]. cbn in Hp.
    destruct (p2 !! 1) as [d|] eqn:Ed; [|discriminate]. cbn in Hp.
    injection Hp as <-. exists a, b, c, d. split; [|reflexivity].
    exists p0, p2. auto 10.
  - intros (a & b & c & d & (p0 & p2 & H0 & H2 & Ha & Hb & Hc & Hd) & ->).
    rewrite H0. cbn. rewrite Ha. cbn. rewrite Hb. cbn. rewrite H2. cbn.
    rewrite Hc. cbn. rewrite Hd. reflexivity.
Qed.

(** X16. [_ocr_page_positions] raises exactly when the rendered image has
    no width or no height, or when the box of some result lacks the
    corner 0 or 2 or a coordinate of them. *)
Theorem ocr_page_positions_defined (page_w page_h : Q) (img_w img_h : Z)
    (results : list OcrResult) :
  is_Some (_ocr_page_positions page_w page_h img_w img_h results)
  <-> img_w ≠ 0%Z /\ img_h ≠ 0%Z
      /\ Forall (fun r => exists a b c d, corners r a b c d) results.
Proof.
  unfold _ocr_page_positions.
  destruct (Z.eqb_spec img_w 0) as [->|Hw]; cbn [orb].
  - split; [intros [x Hx]; discriminate|]. intros (Hw & _). contradiction.
  - destruct (Z.eqb_spec img_h 0) as [->|Hh].
    + split; [intros [x Hx]; discriminate|]. intros (_ & Hh & _).
      contradiction.
    + cbv zeta. rewrite mapM_is_Some. split.
      * intros Hall. split; [exact Hw|]. split; [exact Hh|].
        eapply Forall_impl; [exact Hall|]. cbn. intros r [tp Htp].
        apply position_of_result_some in Htp as (a & b & c & d & Hc & _).
        eauto.
      * intros (_ & _ & Hall). eapply Forall_impl; [exact Hall|]. cbn.
        intros r (a & b & c & d & Hc). eexists.
        apply position_of_result_some. eauto 10.
Qed.

(** X17. The positions are the results of the reader in their order, one
    for one, each with the text and the confidence of its result. *)
Theorem ocr_page_positions_texts (page_w page_h : Q) (img_w img_h : Z)
    (results : list OcrResult) (positions : list TextPosition) :
  _ocr_page_positions page_w page_h img_w img_h results = Some positions ->
  length positions = length results
  /\ map tp_text positions = map ocr_text results
  /\ map tp_conf positions = map ocr_conf results.
Proof.
  unfold _ocr_page_positions. destruct (_ || _); [discriminate|].
  cbv zeta. intros Hm. apply mapM_Some in Hm.
  induction Hm as [|r tp results positions Hr Hm (IHl & IHt & IHc)];
    [now split|].
  apply position_of_result_some in Hr as (a & b & c & d & _ & ->).
  cbn. rewrite IHl, IHt, IHc. auto.
Qed.

Lemma scaled_ordered (x y size : Q) (pixels : Z) :
  (0 < pixels)%Z -> (0 <= size)%Q -> (0 <= x <= y)%Q ->
  (0 <= x * (size / inject_Z pixels) <= y * (size / inject_Z pixels))%Q.
Proof.
  intros Hp Hs [Hx0 Hxy].
  assert (0 < inject_Z pixels)%Q as Hpos.
  { change 0%Q with (inject_Z 0). now rewrite <- Zlt_Qlt. }
  assert (0 <= size / inject_Z pixels)%Q as Hq.
  { apply Qle_shift_div_l; [exact Hpos|]. lra. }
  split.
  - now apply Qmult_le_0_compat.
  - now apply Qmult_le_compat_r.
Qed.

(** X18. When the image has a positive size, the page size is not
    negative and in every box the corner 0 is not negative and lies
    neither right of nor below the corner 2, every position is a
    rectangle of the same orientation with coordinates that are not
    negative: its left edge is not right of its right edge, its top not
    below its bottom. *)
Theorem ocr_page_positions_oriented (page_w page_h : Q) (img_w img_h : Z)
    (results : list OcrResult) (positions : list TextPosition) :
  (0 < img_w)%Z -> (0 < img_h)%Z -> (0 <= page_w)%Q -> (0 <= page_h)%Q ->
  Forall (fun r => forall a b c d, corners r a b c d ->
            (0 <= a <= c)%Q /\ (0 <= b <= d)%Q) results ->
  _ocr_page_positions page_w page_h img_w img_h results = Some positions ->
  Forall (fun tp =>
            (0 <= x0 (tp_rect tp) <= x1 (tp_rect tp))%Q
            /\ (0 <= y0 (tp_rect tp) <= y1 (tp_rect tp))%Q) positions.
Proof.
  intros Hw Hh Hpw Hph Hall. unfold _ocr_page_positions.
  destruct (_ || _); [discriminate|]. cbv zeta. intros Hm.
  apply mapM_Some in Hm. revert Hall.
  induction Hm as [|r tp results positions Hr Hm IH]; intros Hall;
    [constructor|].
  apply Forall_cons in Hall as [Hr0 Hall]. constructor; [|now apply IH].
  apply position_of_result_some in Hr as (a & b & c & d & Hc & ->).
  destruct (Hr0 a b c d Hc) as (Ha & Hb). cbn.
  split; now apply scaled_ordered.
Qed.

(** The theorems at that result, for a page of 100 by 50. *)
Lemma ocr_page_positions_texts_witness :
  _ocr_page_positions 100 50 200 100 [sample_result]
  = Some [mkTP (u "Name")
               (mkRect (20 * (100 / 200)) (10 * (50 / 100))
                       (60 * (100 / 200)) (30 * (50 / 100))) (9 # 10)]
  /\ length [mkTP (u "Name")
                  (mkRect (20 * (100 / 200)) (10 * (50 / 100))
                          (60 * (100 / 200)) (30 * (50 / 100))) (9 # 10)]
     = length [sample_result].
Proof.
  assert (_ocr_page_positions 100 50 200 100 [sample_result]
          = Some [mkTP (u "Name")
                       (mkRect (20 * (100 / 200)) (10 * (50 / 100))
                               (60 * (100 / 200)) (30 * (50 / 100)))
                       (9 # 10)]) as Hp by reflexivity.
  split; [exact Hp|].
  exact (proj1 (ocr_page_positions_texts _ _ _ _ _ _ Hp)).
Defined.

(* ===================================================================== *)
(** ** What the patterns of the source match *)
(* ===================================================================== *)

Section PatternSoundness.

Lemma bump_some (r : option (list nat)) (lens : list nat) :
  Re.bump r = Some lens ->
  exists n l, r = Some (n :: l) /\ lens = S n :: l.
Proof.
  destruct r as [[|n l]|]; cbn; try discriminate.
  intros [= <-]. eauto.
Qed.

Lemma cons_some (n : nat) (r : option (list nat)) (lens : list nat) :
  cons n <$> r = Some lens -> exists l, r = Some l /\ lens = n :: l.
Proof. destruct r as [l|]; cbn; [|discriminate]. intros [= <-]. eauto. Qed.

Lemma greedy_sound (cls : char -> bool) (k : str -> option (list nat))
    (s : str) (lens : list nat) :
  Re.greedy cls k s = Some lens ->
  exists n l, lens = n :: l /\ n <= length s
    /\ Forall (fun x => cls x = true) (take n s) /\ k (drop n s) = Some l.
Proof.
  revert lens. induction s as [|c s IH]; intros lens Hg; cbn [Re.greedy] in Hg.
  - apply cons_some in Hg as (l & Hk & ->). exists 0, l. cbn. auto.
  - destruct (cls c) eqn:Ec.
    + destruct (Re.greedy cls k s) as [r|] eqn:Er.
      * apply bump_some in Hg as (n & l & [= ->] & ->).
        destruct (IH _ eq_refl) as (n' & l' & [= <- <-] & Hn & Hf & Hk).
        exists (S n), l. cbn. repeat split; auto with lia.
      * apply cons_some in Hg as (l & Hk & ->). exists 0, l. cbn.
        repeat split; auto with lia.
    + apply cons_some in Hg as (l & Hk & ->). exists 0, l. cbn.
      repeat split; auto with lia.
Qed.

Lemma lazy_sound (cls : char -> bool) (k : str -> option (list nat))
    (s : str) (lens : list nat) :
  Re.lazy cls k s = Some lens ->
  exists n l, lens = n :: l /\ n <= length s
    /\ Forall (fun x => cls x = true) (take n s) /\ k (drop n s) = Some l.
Proof.
  revert lens. induction s as [|c s IH]; intros lens Hg; cbn [Re.lazy] in Hg.
  - destruct (k []) as [l|] eqn:Ek; [|discriminate]. injection Hg as <-.
    exists 0, l. cbn. auto.
  - destruct (k (c :: s)) as [l|] eqn:Ek.
    + injection Hg as <-. exists 0, l. cbn. repeat split; auto with lia.
    + destruct (cls c) eqn:Ec; [|discriminate].
      apply bump_some in Hg as (n & l & Hr & ->).
      destruct (IH _ Hr) as (n' & l' & [= <- <-] & Hn & Hf & Hk).
      exists (S n), l. cbn. repeat split; auto with lia.
Qed.

(** What [match_at] returns cuts a prefix of the text into pieces that the
    atoms of the pattern take, in order. *)
Lemma match_at_sound (p : Re.pattern) :
  forall s lens, Re.match_at p s = Some lens -> conforms p lens s.
Proof.
  induction p as [|a p IH]; intros s lens Hm.
  - cbn in Hm. injection Hm as <-. exact I.
  - cbn [Re.match_at] in Hm. destruct a as [c|c|cls|cls|cls].
    + destruct s as [|x s]; [discriminate|].
      destruct (N.eqb_spec x c) as [->|]; [|discriminate].
      apply cons_some in Hm as (l & Hk & ->). cbn.
      repeat split; auto with lia.
    + assert (cons 0 <$> Re.match_at p s = Some lens ->
              conforms (Re.Opt c :: p) lens s) as H0.
      { intros H. apply cons_some in H as (l & Hk & ->). cbn.
        repeat split; auto with lia. }
      destruct s as [|x s]; [now apply H0|].
      destruct (N.eqb_spec x c) as [->|]; [|now apply H0].
      destruct (Re.match_at p s) as [r|] eqn:Er; [|now apply H0].
      injection Hm as <-. cbn. repeat split; auto with lia.
    + apply greedy_sound in Hm as (n & l & -> & Hn & Hf & Hk). cbn.
      repeat split; auto.
    + destruct s as [|x s]; [discriminate|].
      destruct (cls x) eqn:Ex; [|discriminate].
      apply bump_some in Hm as (n & l & Hg & ->).
      apply greedy_sound in Hg as (n' & l' & [= <- <-] & Hn & Hf & Hk).
      cbn. repeat split; auto with lia.
    + destruct s as [|x s]; [discriminate|].
      destruct (cls x) eqn:Ex; [|discriminate].
      apply bump_some in Hm as (n & l & Hg & ->).
      apply lazy_sound in Hg as (n' & l' & [= <- <-] & Hn & Hf & Hk).
      cbn. repeat split; auto with lia.
Qed.

(** Every match of [finditer] is a match of the pattern at its start. *)
Lemma finditer_go_matches (p : Re.pattern) (s : str) :
  forall skip m, m ∈ Re.finditer_go p skip s ->
    Re.match_at p m.1 = Some m.2.
Proof.
  induction s as [|c s IH]; intros skip m Hm; cbn [Re.finditer_go] in Hm.
  - now apply elem_of_nil in Hm.
  - destruct skip; [|now apply (IH skip)].
    destruct (Re.match_at p (c :: s)) as [lens|] eqn:Em;
      [|now apply (IH 0)].
    apply elem_of_cons in Hm as [->|Hm]; [exact Em|].
    now apply (IH (sum_list lens - 1)).
Qed.

(** The match of a pattern that ends in the literal [c] ends in [c]. *)
Lemma conforms_last_lit (p : Re.pattern) (c : char) :
  forall lens s, conforms (p ++ [Re.Lit c]) lens s ->
    last (take (sum_list lens) s) = Some c.
Proof.
  induction p as [|a p IH]; intros lens s Hc; cbn [app conforms] in Hc.
  - destruct lens as [|n [|? ?]]; try contradiction;
      [|destruct Hc as (_ & _ & []) ].
    destruct Hc as (_ & Ht & _). cbn. rewrite Nat.add_0_r.
    cbn in Ht. now rewrite Ht.
  - destruct lens as [|n lens]; [contradiction|].
    destruct Hc as (_ & _ & Hc). apply IH in Hc.
    cbn [sum_list_with]. unfold id at 1.
    rewrite <- take_take_drop, last_app, Hc. reflexivity.
Qed.

(** The first piece of a match whose pattern begins with a greedy
    repetition is a non-empty run of characters of its class. *)
Lemma conforms_first_plus (cls : char -> bool) (p : Re.pattern)
    (lens : list nat) (s : str) :
  conforms (Re.Plus cls :: p) lens s ->
  take (hd 0 lens) s ≠ []
  /\ Forall (fun x => cls x = true) (take (hd 0 lens) s).
Proof.
  destruct lens as [|n lens]; [contradiction|]. cbn.
  intros (_ & Ht & _). exact Ht.
Qed.

End PatternSoundness.

Section LstripFacts.

Lemma lstrip_snoc_nonspace (s : str) (c : char) :
  Py.isspace c = false ->
  exists t, Py.lstrip_of Py.isspace (s ++ [c]) = t ++ [c].
Proof.
  intros Hc. induction s as [|x s [t IH]]; cbn.
  - rewrite Hc. now exists [].
  - destruct (Py.isspace x); [now exists t|now exists (x :: s)].
Qed.

Lemma strip_last_nonspace (s : str) (c : char) :
  Py.isspace c = false -> last s = Some c -> last (Py.strip s) = Some c.
Proof.
  intros Hc Hl. apply last_Some in Hl as [t ->]. unfold Py.strip.
  destruct (lstrip_snoc_nonspace t c Hc) as [t' ->].
  rewrite rstrip_app. cbn. rewrite Hc. apply last_snoc.
Qed.

End LstripFacts.

Section CandidateFacts.
Context {rt : PyRuntime}.

(** X19. Every Text candidate of the markdown extractor has a label that
    ends with a colon, is shorter than 40, carries no white space at
    either end and holds none of the noise keywords. *)
Theorem text_candidate_label (markdown_text : str) (f : FieldCandidate) :
  f ∈ _extract_form_fields_from_markdown markdown_text ->
  fc_kind f = Text ->
  last (fc_label f) = Some 58%N
  /\ length (fc_label f) < 40
  /\ Py.strip (fc_label f) = fc_label f
  /\ (forall sk, sk ∈ skip_keywords -> Py.contains sk (fc_label f) = false).
Proof.
  intros Hf Hk. apply list_elem_of_In in Hf.
  unfold _extract_form_fields_from_markdown in Hf. cbv zeta in Hf.
  apply in_flat_map in Hf as (line0 & _ & Hf). unfold line_fields in Hf.
  cbv zeta in Hf. destruct (_ || _); [destruct Hf|].
  apply in_app_or in Hf as [Hf|Hf].
  { apply list_elem_of_In, line_checkboxes_label in Hf as [Hc _].
    congruence. }
  unfold line_texts in Hf. apply in_flat_map in Hf as (m & Hm & Hf).
  unfold text_of_match in Hf. cbv zeta in Hf.
  destruct (length (Py.strip (Re.group0 m)) <? 40) eqn:El; [|destruct Hf].
  destruct (existsb _ skip_keywords) eqn:Es; [destruct Hf|].
  destruct Hf as [<-|[]]. cbn [fc_label].
  apply list_elem_of_In, finditer_go_matches, match_at_sound in Hm.
  repeat split.
  - apply strip_last_nonspace; [reflexivity|].
    unfold Re.group0.
    exact (conforms_last_lit
             [Re.PlusLazy md_label_class; Re.Opt 42%N; Re.Star Py.isspace]
             58%N _ _ Hm).
  - now apply Nat.ltb_lt.
  - apply strip_idemp.
  - intros sk Hsk.
    destruct (Py.contains sk (Py.strip (Re.group0 m))) eqn:Ec;
      [|reflexivity].
    assert (existsb (fun sk => Py.contains sk (Py.strip (Re.group0 m)))
              skip_keywords = true) as Ht; [|congruence].
    apply existsb_exists. exists sk. split; [|exact Ec].
    now apply list_elem_of_In.
Qed.

End CandidateFacts.

(** X20. Every label that the pattern of the native label locator
    extracts from a line is a non-empty run of characters of its class;
    it holds no digit and no colon. *)
Theorem native_labels_class (lt label : str) :
  label ∈ native_labels lt ->
  label ≠ []
  /\ Forall (fun c => native_label_class c = true) label
  /\ Forall (fun c => ~ (48 <= c <= 57)%N /\ c ≠ 58%N) label.
Proof.
  intros Hl. apply list_elem_of_In in Hl. unfold native_labels in Hl.
  apply in_map_iff in Hl as (m & <- & Hm).
  apply list_elem_of_In, finditer_go_matches, match_at_sound in Hm.
  apply conforms_first_plus in Hm as [Hne Hf]. unfold Re.group1.
  split; [exact Hne|]. split; [exact Hf|].
  eapply Forall_impl; [exact Hf|]. cbn. intros c Hc. split.
  - intros Hd.
    assert (c = 48 \/ c = 49 \/ c = 50 \/ c = 51 \/ c = 52 \/ c = 53
            \/ c = 54 \/ c = 55 \/ c = 56 \/ c = 57)%N as Hd' by lia.
    repeat (destruct Hd' as [->|Hd']; [discriminate|]). now subst c.
  - intros ->. discriminate.
Qed.

(** The theorem at the markup "Name*: x". *)
Lemma text_candidate_label_witness :
  mkFC Text (u "Name*:")
    ∈ @_extract_form_fields_from_markdown ascii_runtime (u "Name*: x")
  /\ last (fc_label (mkFC Text (u "Name*:"))) = Some 58%N.
Proof.
  assert (mkFC Text (u "Name*:")
            ∈ @_extract_form_fields_from_markdown ascii_runtime
                (u "Name*: x")) as Hin.
  { vm_compute. apply list_elem_of_here. }
  split; [exact Hin|].
  exact (proj1 (@text_candidate_label ascii_runtime _ _ Hin eq_refl)).
Defined.

(** The theorem at the line "Room 2 Name: x". *)
Lemma native_labels_class_witness :
  u " Name" ∈ native_labels (u "Room 2 Name: x")
  /\ u " Name" ≠ [].
Proof.
  assert (u " Name" ∈ native_labels (u "Room 2 Name: x")) as Hin.
  { vm_compute. apply list_elem_of_here. }
  split; [exact Hin|].
  exact (proj1 (native_labels_class _ _ Hin)).
Defined.

(* ===================================================================== *)
(** ** Further properties of the markdown field extractor *)
(* ===================================================================== *)

Section ContainsFacts.

Lemma contains_cons (g : str) (c : char) (s : str) :
  Py.contains g (c :: s) = Py.startswith g (c :: s) || Py.contains g s.
Proof.
  unfold Py.contains. cbn [Py.find].
  destruct (Py.startswith g (c :: s)); [reflexivity|].
  now destruct (Py.find g s).
Qed.

Lemma contains_nil (g : str) : Py.contains g [] = Py.startswith g [].
Proof. unfold Py.contains. cbn. now destruct (Py.startswith g []). Qed.

Lemma contains_app_l (g a b : str) :
  Py.contains g a = true -> Py.contains g (a ++ b) = true.
Proof.
  induction a as [|c a IH]; intros Ha.
  - rewrite contains_nil in Ha. destruct g; [|discriminate].
    unfold Py.contains. now destruct b.
  - rewrite contains_cons in Ha. cbn [app]. rewrite contains_cons.
    apply orb_true_iff in Ha as [Ha|Ha]; apply orb_true_iff.
    + left. now apply (startswith_app g (c :: a) b).
    + right. now apply IH.
Qed.

Lemma contains_take (g s : str) (n : nat) :
  Py.contains g (take n s) = true -> Py.contains g s = true.
Proof.
  intros Ht. rewrite <- (take_drop n s). now apply contains_app_l.
Qed.

Lemma contains_lstrip (g s : str) :
  Py.contains g (Py.lstrip_of Py.isspace s) = true -> Py.contains g s = true.
Proof.
  induction s as [|c s IH]; cbn [Py.lstrip_of]; [auto|].
  destruct (Py.isspace c); [|auto]. intros Hc.
  rewrite contains_cons, (IH Hc). apply orb_true_r.
Qed.

Lemma contains_strip (g s : str) :
  Py.contains g (Py.strip s) = true -> Py.contains g s = true.
Proof.
  unfold Py.strip. intros Hc. apply contains_lstrip.
  destruct (rstrip_prefix (Py.lstrip_of Py.isspace s)) as [w Hw].
  rewrite Hw. now apply contains_app_l.
Qed.

Lemma startswith_sub_spaces (g : str) :
  Forall (fun c => Py.isspace c = false) g ->
  forall t, Py.startswith g (Py.sub_spaces_go false t) = true ->
            Py.startswith g t = true.
Proof.
  induction 1 as [|y g Hy Hg IH]; intros t Hs; [now destruct t|].
  destruct t as [|c t]; [discriminate|]. cbn [Py.sub_spaces_go] in Hs.
  destruct (Py.isspace c) eqn:Ec; cbn [Py.startswith] in Hs |- *;
    apply andb_true_iff in Hs as [Hyc Hs]; apply N.eqb_eq in Hyc.
  - subst y. discriminate.
  - subst y. rewrite N.eqb_refl. now apply IH.
Qed.

Lemma contains_sub_spaces (g : str) :
  g ≠ [] -> Forall (fun c => Py.isspace c = false) g ->
  forall t b, Py.contains g (Py.sub_spaces_go b t) = true ->
              Py.contains g t = true.
Proof.
  intros Hne Hg. induction t as [|c t IH]; intros b Hc.
  - cbn in Hc. rewrite contains_nil in Hc. destruct g; [contradiction|].
    discriminate.
  - rewrite contains_cons. apply orb_true_iff.
    cbn [Py.sub_spaces_go] in Hc. destruct (Py.isspace c) eqn:Ec.
    + right. destruct b; [now apply (IH true)|].
      rewrite contains_cons in Hc. apply orb_true_iff in Hc as [Hc|Hc];
        [|now apply (IH true)].
      destruct g as [|y g]; [contradiction|]. cbn in Hc.
      apply andb_true_iff in Hc as [Hy _]. apply N.eqb_eq in Hy.
      apply Forall_cons in Hg as [Hy' _]. subst y. discriminate.
    + rewrite contains_cons in Hc. apply orb_true_iff in Hc as [Hc|Hc];
        [left|right; now apply (IH false)].
      apply (startswith_sub_spaces g Hg (c :: t)).
      cbn [Py.sub_spaces_go]. now rewrite Ec.
Qed.

Lemma before_any_no_glyph (gs : list str) (g s : str) :
  g ∈ gs -> g ≠ [] -> Py.contains g (before_any_glyph gs s) = false.
Proof.
  intros Hin Hne. induction s as [|c s IH].
  - rewrite before_any_nil, contains_nil. now destruct g.
  - rewrite before_any_cons.
    destruct (existsb (fun g' => Py.startswith g' (c :: s)) gs) eqn:Ee.
    + rewrite contains_nil. now destruct g.
    + rewrite contains_cons, IH, orb_false_r.
      apply not_true_iff_false. intros Hs.
      assert (Py.startswith g (before_any_glyph gs (c :: s)) = true) as Hb.
      { rewrite before_any_cons, Ee. exact Hs. }
      apply startswith_of_before_any in Hb.
      assert (existsb (fun g' => Py.startswith g' (c :: s)) gs = true)
        as Ht; [|congruence].
      apply existsb_exists. exists g. split; [|exact Hb].
      now apply list_elem_of_In.
Qed.

(** The option text of a segment holds no checkbox glyph. *)
Lemma clean_option_no_glyph (part cb : str) :
  cb ∈ ALL_CB -> Py.contains cb (clean_option part) = false.
Proof.
  intros Hcb. pose proof all_cb_ok as Hok. rewrite Forall_forall in Hok.
  destruct (Hok cb Hcb) as [_ Hg].
  assert (cb ≠ []) as Hne.
  { unfold glyph_ok in Hg. destruct cb; [discriminate|discriminate]. }
  apply not_true_iff_false. intros Hc. unfold clean_option in Hc.
  rewrite cut_all_glyphs in Hc.
  apply contains_strip in Hc. unfold Py.sub_spaces in Hc.
  apply (contains_sub_spaces cb Hne (glyph_nonspace _ _ Hg)) in Hc.
  apply contains_strip in Hc.
  now rewrite (before_any_no_glyph ALL_CB cb part Hcb Hne) in Hc.
Qed.

Lemma line_checkboxes_origin (line : str) (f : FieldCandidate) :
  f ∈ line_checkboxes line ->
  exists part, fc_label f = take 30 (clean_option part)
    /\ 1 < length (clean_option part) < 60.
Proof.
  intros Hf. apply list_elem_of_In in Hf. unfold line_checkboxes in Hf.
  apply in_flat_map in Hf as (cb & _ & Hf). unfold checkboxes_for in Hf.
  destruct (Py.contains cb line); [|destruct Hf].
  apply in_flat_map in Hf as (part & _ & Hf). apply list_elem_of_In in Hf.
  apply checkbox_of_option_label in Hf as (_ & Hl & Hlen).
  now exists part.
Qed.

End ContainsFacts.

Section CheckboxCandidateFacts.
Context {rt : PyRuntime}.

(** X21. Every Checkbox candidate of the markdown extractor has a label
    of 2 to 30 characters in which no checkbox glyph occurs. *)
Theorem checkbox_candidate_label (markdown_text : str)
    (f : FieldCandidate) :
  f ∈ _extract_form_fields_from_markdown markdown_text ->
  fc_kind f = Checkbox ->
  2 <= length (fc_label f) <= 30
  /\ (forall cb, cb ∈ ALL_CB -> Py.contains cb (fc_label f) = false).
Proof.
  intros Hf Hk. apply list_elem_of_In in Hf.
  unfold _extract_form_fields_from_markdown in Hf. cbv zeta in Hf.
  apply in_flat_map in Hf as (line0 & _ & Hf). unfold line_fields in Hf.
  cbv zeta in Hf. destruct (_ || _); [destruct Hf|].
  apply in_app_or in Hf as [Hf|Hf]; apply list_elem_of_In in Hf.
  - apply line_checkboxes_origin in Hf as (part & Hl & Hlen).
    rewrite Hl. split; [rewrite length_take; lia|].
    intros cb Hcb. apply not_true_iff_false. intros Hc.
    apply contains_take in Hc.
    now rewrite (clean_option_no_glyph part cb Hcb) in Hc.
  - apply line_texts_kind in Hf. congruence.
Qed.

End CheckboxCandidateFacts.

(** The theorem at the markup "☑ Male ☐ Female". *)
Lemma checkbox_candidate_label_witness :
  mkFC Checkbox (u "Female")
    ∈ @_extract_form_fields_from_markdown ascii_runtime (u "☑ Male ☐ Female")
  /\ 2 <= length (fc_label (mkFC Checkbox (u "Female"))) <= 30.
Proof.
  assert (mkFC Checkbox (u "Female")
            ∈ @_extract_form_fields_from_markdown ascii_runtime
                (u "☑ Male ☐ Female")) as Hin.
  { vm_compute. apply list_elem_of_here. }
  split; [exact Hin|].
  exact (proj1 (@checkbox_candidate_label ascii_runtime _ _ Hin eq_refl)).
Defined.

Section ProseFacts.

Lemma elem_of_rev (c : char) (l : str) : c ∈ rev l -> c ∈ l.
Proof.
  intros Hc. apply list_elem_of_In. apply in_rev.
  now apply list_elem_of_In.
Qed.

Lemma split_go_chars (sep : str) (s : str) :
  forall cur skip piece c,
    piece ∈ Py.split_go sep cur skip s -> c ∈ piece -> c ∈ cur \/ c ∈ s.
Proof.
  induction s as [|x s IH]; intros cur skip piece c Hp Hc;
    cbn [Py.split_go] in Hp.
  - apply list_elem_of_singleton in Hp as ->. left.
    now apply elem_of_rev.
  - destruct skip as [|k].
    + destruct (Py.startswith sep (x :: s)).
      * apply elem_of_cons in Hp as [->|Hp].
        -- left. now apply elem_of_rev.
        -- destruct (IH _ _ _ _ Hp Hc) as [H|H];
             [now apply elem_of_nil in H|right; set_solver].
      * destruct (IH _ _ _ _ Hp Hc) as [H|H]; [|right; set_solver].
        apply elem_of_cons in H as [->|H]; [right; set_solver|now left].
    + destruct (IH _ _ _ _ Hp Hc) as [H|H]; [now left|right; set_solver].
Qed.

Lemma replace_char_chars (old : char) (new s : str) (c : char) :
  c ∈ Py.replace_char old new s -> c ∈ new \/ c ∈ s.
Proof.
  unfold Py.replace_char. induction s as [|x s IH]; cbn [flat_map].
  - intros H. now apply elem_of_nil in H.
  - intros H. apply elem_of_app in H as [H|H].
    + destruct (x =? old)%N; [now left|].
      apply list_elem_of_singleton in H as ->. right. set_solver.
    + destruct (IH H) as [?|?]; [now left|right; set_solver].
Qed.

Lemma strip_chars (s : str) (c : char) : c ∈ Py.strip s -> c ∈ s.
Proof.
  intros Hc.
  assert (Forall (fun x => x ∈ s) (Py.strip s)) as Hf.
  { apply rstrip_of_Forall, lstrip_of_Forall. now apply Forall_forall. }
  rewrite Forall_forall in Hf. now apply Hf.
Qed.

Lemma contains_head (a : char) (g s : str) :
  Py.contains (a :: g) s = true -> a ∈ s.
Proof.
  induction s as [|x s IH]; intros Hc.
  - rewrite contains_nil in Hc. discriminate.
  - rewrite contains_cons in Hc. apply orb_true_iff in Hc as [Hc|Hc].
    + cbn in Hc. apply andb_true_iff in Hc as [Hx _].
      apply N.eqb_eq in Hx. subst x. set_solver.
    + specialize (IH Hc). set_solver.
Qed.

(** The lines of a markup hold only characters of the markup, or the
    line feed put in place of a cell delimiter. *)
Lemma markdown_line_chars (markdown_text line0 : str) (c : char) :
  line0 ∈ Py.split newline (Py.replace_char 124%N newline markdown_text) ->
  c ∈ Py.strip line0 -> c = 10%N \/ c ∈ markdown_text.
Proof.
  intros Hl Hc. apply strip_chars in Hc. unfold Py.split in Hl.
  destruct (split_go_chars _ _ _ _ _ _ Hl Hc) as [H|H];
    [now apply elem_of_nil in H|].
  apply replace_char_chars in H as [H|H]; [left|now right].
  now apply list_elem_of_singleton in H.
Qed.

End ProseFacts.

Section ProseYieldsNothing.
Context {rt : PyRuntime}.

(** X22. A markup without a colon yields no Text candidate, and a markup
    in which no character begins a checkbox glyph yields no Checkbox
    candidate: from prose without either the extractor returns
    nothing. *)
Theorem extract_nothing_from_prose (markdown_text : str) :
  (58%N ∉ markdown_text ->
     forall f, f ∈ _extract_form_fields_from_markdown markdown_text ->
               fc_kind f = Checkbox)
  /\ ((forall cb c, cb ∈ ALL_CB -> head cb = Some c -> c ∉ markdown_text) ->
        forall f, f ∈ _extract_form_fields_from_markdown markdown_text ->
                  fc_kind f = Text)
  /\ (58%N ∉ markdown_text ->
        (forall cb c, cb ∈ ALL_CB -> head cb = Some c -> c ∉ markdown_text) ->
        _extract_form_fields_from_markdown markdown_text = []).
Proof.
  assert (58%N ∉ markdown_text ->
          forall f, f ∈ _extract_form_fields_from_markdown markdown_text ->
                    fc_kind f = Checkbox) as Hcolon.
  { intros Hn f Hf. apply list_elem_of_In in Hf.
    unfold _extract_form_fields_from_markdown in Hf. cbv zeta in Hf.
    apply in_flat_map in Hf as (line0 & Hl & Hf). unfold line_fields in Hf.
    cbv zeta in Hf. destruct (_ || _); [destruct Hf|].
    rewrite line_texts_no_colon, app_nil_r in Hf.
    - now apply list_elem_of_In, line_checkboxes_label in Hf as [Hk _].
    - intros Hc. apply list_elem_of_In in Hl.
      destruct (markdown_line_chars _ _ _ Hl Hc) as [?|?];
        [discriminate|contradiction]. }
  assert ((forall cb c, cb ∈ ALL_CB -> head cb = Some c ->
             c ∉ markdown_text) ->
          forall f, f ∈ _extract_form_fields_from_markdown markdown_text ->
                    fc_kind f = Text) as Hglyph.
  { intros Hn f Hf. apply list_elem_of_In in Hf.
    unfold _extract_form_fields_from_markdown in Hf. cbv zeta in Hf.
    apply in_flat_map in Hf as (line0 & Hl & Hf). unfold line_fields in Hf.
    cbv zeta in Hf. destruct (_ || _); [destruct Hf|].
    apply in_app_or in Hf as [Hf|Hf];
      [|now apply list_elem_of_In, line_texts_kind in Hf].
    exfalso. unfold line_checkboxes in Hf.
    apply in_flat_map in Hf as (cb & Hcb & Hf). unfold checkboxes_for in Hf.
    destruct (Py.contains cb (Py.strip line0)) eqn:Ec; [|destruct Hf].
    apply list_elem_of_In in Hcb, Hl.
    pose proof all_cb_ok as Hok. rewrite Forall_forall in Hok.
    destruct (Hok cb Hcb) as [_ Hg].
    pose proof (glyph_nonspace _ _ Hg) as Hns.
    destruct cb as [|a g]; [discriminate|].
    apply contains_head in Ec.
    destruct (markdown_line_chars _ _ _ Hl Ec) as [->|Hin].
    - apply Forall_cons in Hns as [Ha _]. discriminate.
    - now apply (Hn (a :: g) a Hcb eq_refl). }
  split; [exact Hcolon|]. split; [exact Hglyph|].
  intros Hn Hg.
  destruct (_extract_form_fields_from_markdown markdown_text) as [|f l] eqn:E;
    [reflexivity|].
  assert (f ∈ f :: l) as Hf by apply list_elem_of_here.
  pose proof (Hcolon Hn f Hf). pose proof (Hglyph Hg f Hf). congruence.
Qed.

End ProseYieldsNothing.

(** X23. A page on whose text lines no colon stands gets no field from
    the native label locator. *)
Theorem no_colon_no_label_field (page : Page) :
  (forall block line,
      block ∈ _get_page_text_blocks page -> line ∈ block_lines block ->
      58%N ∉ line_text line) ->
  _find_label_fields page = [].
Proof.
  intros Hn. unfold _find_label_fields.
  induction (_get_page_text_blocks page) as [|block blocks IH];
    [reflexivity|].
  cbn [flat_map]. rewrite IH by (intros b l Hb; apply Hn; set_solver).
  rewrite app_nil_r.
  assert (forall line, line ∈ block_lines block -> 58%N ∉ line_text line)
    as Hb by (intros l Hl; apply (Hn block l); set_solver).
  clear IH Hn. induction (block_lines block) as [|line lines IH];
    [reflexivity|].
  cbn [flat_map]. rewrite IH by (intros l Hl; apply Hb; set_solver).
  rewrite app_nil_r. unfold native_labels, Re.finditer.
  rewrite (finditer_needs_literal 58%N); [reflexivity| |].
  - cbn. auto.
  - apply Hb. set_solver.
Qed.

(** The theorem at the markup "Please sign below". *)
Lemma extract_nothing_from_prose_witness :
  (58%N ∉ u "Please sign below")
  /\ (forall f, f ∈ @_extract_form_fields_from_markdown ascii_runtime
                      (u "Please sign below") ->
                fc_kind f = Checkbox).
Proof.
  assert (58%N ∉ u "Please sign below") as Hn.
  { vm_compute. intros Hin. apply list_elem_of_In in Hin. cbn in Hin.
    intuition discriminate. }
  split; [exact Hn|].
  exact (proj1 (@extract_nothing_from_prose ascii_runtime _) Hn).
Defined.

(** The theorem at the page with the single line "Please sign below". *)
Lemma no_colon_no_label_field_witness :
  _find_label_fields
    (one_line_page (u "Please sign below") (mkRect 10 10 100 20) 200) = [].
Proof.
  apply no_colon_no_label_field. intros block line Hb Hl.
  vm_compute in Hb. apply list_elem_of_singleton in Hb. subst block.
  vm_compute in Hl. apply list_elem_of_singleton in Hl. subst line.
  vm_compute. intros Hin. apply list_elem_of_In in Hin. cbn in Hin.
  intuition discriminate.
Defined.

(* ===================================================================== *)
(** ** The further theorems on sample documents *)
(* ===================================================================== *)

(** The theorem on a page on which the OCR engine reads nothing. *)
Lemma ocr_fields_count_witness :
  page_ocr_positions (mkPage [] (fun _ => []) 600 []) = []
  /\ @_detect_fields_ocr ascii_runtime (mkPage [] (fun _ => []) 600 [])
       (u "☐ Male ☐ Female") = [].
Proof.
  split; [reflexivity|].
  exact (proj2 (proj2 (@ocr_fields_count ascii_runtime
                         (mkPage [] (fun _ => []) 600 [])
                         (u "☐ Male ☐ Female"))) eq_refl).
Defined.

(** The theorem on the document of a native page and the scanned page. *)
Lemma convert_result_witness :
  exists r,
    @convert ascii_runtime plain_rect [native_page; scanned_page]
      (OcrPages [mkMP 1 (u "☐ Male ☐ Female")]) = Some r
    /\ total_fields r = length (widgets r).
Proof.
  destruct (@convert ascii_runtime plain_rect [native_page; scanned_page]
              (OcrPages [mkMP 1 (u "☐ Male ☐ Female")])) as [r|] eqn:E.
  - exists r. split; [reflexivity|].
    exact (proj1 (@convert_result ascii_runtime plain_rect _ _ _ E)).
  - vm_compute in E. discriminate.
Defined.

(** The theorem on the document of the native page alone. *)
Lemma convert_without_scanned_pages_witness :
  Forall (fun page => _get_page_text_blocks page ≠ []) [native_page]
  /\ @convert ascii_runtime plain_rect [native_page] (OcrRaised (u "timeout"))
     = @convert ascii_runtime plain_rect [native_page] (OcrPages []).
Proof.
  assert (Forall (fun page => _get_page_text_blocks page ≠ []) [native_page])
    as Hall.
  { constructor; [|constructor]. vm_compute. discriminate. }
  split; [exact Hall|].
  exact (proj1 (@convert_without_scanned_pages ascii_runtime plain_rect
                  [native_page] _ _ Hall)).
Defined.

(** The theorem on the document of the native page and the scanned
    page. *)
Lemma widget_names_unique_witness :
  exists r,
    @convert ascii_runtime plain_rect [native_page; scanned_page]
      (OcrPages [mkMP 1 (u "☐ Male ☐ Female")]) = Some r
    /\ NoDup (map (fun w : nat * Widget => widget_field_name w.2)
                  (widgets r)).
Proof.
  destruct (@convert ascii_runtime plain_rect [native_page; scanned_page]
              (OcrPages [mkMP 1 (u "☐ Male ☐ Female")])) as [r|] eqn:E.
  - exists r. split; [reflexivity|].
    exact (@widget_names_unique ascii_runtime plain_rect _ _ _ E).
  - vm_compute in E. discriminate.
Defined.

(** The theorem at the sample result on an image of 200 by 100 pixels. *)
Lemma ocr_page_positions_defined_witness :
  is_Some (_ocr_page_positions 100 50 200 100 [sample_result])
  /\ (200 ≠ 0)%Z.
Proof.
  assert (is_Some (_ocr_page_positions 100 50 200 100 [sample_result]))
    as Hs by (eexists; reflexivity).
  split; [exact Hs|].
  exact (proj1 (proj1 (ocr_page_positions_defined _ _ _ _ _) Hs)).
Defined.

(** The theorem at the same result and image, for a page of 100 by 50. *)
Lemma ocr_page_positions_oriented_witness :
  exists positions,
    _ocr_page_positions 100 50 200 100 [sample_result] = Some positions
    /\ Forall (fun tp =>
                 (0 <= x0 (tp_rect tp) <= x1 (tp_rect tp))%Q
                 /\ (0 <= y0 (tp_rect tp) <= y1 (tp_rect tp))%Q) positions.
Proof.
  eexists. split; [reflexivity|].
  apply (ocr_page_positions_oriented 100 50 200 100 [sample_result]).
  - reflexivity.
  - reflexivity.
  - discriminate.
  - discriminate.
  - constructor; [|constructor].
    intros a b c d (p0 & p2 & H0 & H2 & Ha & Hb & Hc & Hd).
    cbn in H0, H2. injection H0 as <-. injection H2 as <-.
    cbn in Ha, Hb, Hc, Hd.
    injection Ha as <-. injection Hb as <-.
    injection Hc as <-. injection Hd as <-.
    repeat split; discriminate.
  - reflexivity.
Defined.
